(** * Beard: matching new clusters against the clusters of a production system

    A shallow embedding of [beard/matching/clusters.py] (function
    [cluster_assignment] and its inner function [graph_traversal]) and the
    properties of the matching that the specification states.

    Python dictionaries are association lists with pairwise distinct keys, in
    iteration order; lists are lists; exceptions are the [Raise] results of an
    error monad.  The Hungarian algorithm of the external package [munkres] is
    a parameter of the development, and so is the recursion limit of the
    interpreter, under which [graph_traversal] recurses.

    A second embedding, in module [Heap], keeps lists and dictionaries as
    objects of a store and makes every append and item assignment a write; it
    is the one used for what a call does to the objects it is given. *)

From Stdlib Require Import ZArith Lia.
From stdpp Require Import base tactics option list strings relations.

Set Default Proof Using "Type".
#[global] Set Warnings "-clear-no-such-hyp".
Open Scope Z_scope.
Open Scope nat_scope.

(** ** Exceptions and results *)

(** The exceptions the function can end with: the [KeyError] of a dictionary
    subscript, the [IndexError] of a list subscript, the [TypeError] of an
    operation on an object of another type, whatever the cost function
    raises, and the error of the interpreter at its recursion limit. *)
Inductive exn (X : Type) : Type :=
| KeyError
| IndexError
| TypeError
| CostError (x : X)
| RecursionError.
Arguments KeyError {X}.
Arguments TypeError {X}.
Arguments IndexError {X}.
Arguments CostError {X} x.
Arguments RecursionError {X}.

Inductive res (X A : Type) : Type :=
| Ok (a : A)
| Raise (e : exn X).
Arguments Ok {X A} a.
Arguments Raise {X A} e.

Definition res_bind {X A B} (m : res X A) (f : A → res X B) : res X B :=
  match m with
  | Ok a => f a
  | Raise e => Raise e
  end.

#[global] Instance res_mbind {X} : MBind (res X) :=
  λ A B f m, res_bind m f.
#[global] Instance res_mret {X} : MRet (res X) := @Ok X.

(** A [for] loop whose body may raise: the state is threaded through the
    elements in order and the first exception ends the loop. *)
Fixpoint foldM {X A B} (f : A → B → res X A) (l : list B) (a : A) : res X A :=
  match l with
  | [] => Ok a
  | b :: l' => a' ← f a b; foldM f l' a'
  end.

(** Python's [enumerate]. *)
Definition enumerate {A} (l : list A) : list (nat * A) :=
  zip (seq 0 (length l)) l.

(** ** Dictionaries *)

Abbreviation dict A B := (list (A * B)).

Section Dict.
Context {A B : Type} `{EqDecision A}.

(** [d.get(k)] *)
Fixpoint dict_get (d : dict A B) (k : A) : option B :=
  match d with
  | [] => None
  | (k', v) :: d' => if decide (k' = k) then Some v else dict_get d' k
  end.

(** [d[k] = v] *)
Fixpoint dict_set (d : dict A B) (k : A) (v : B) : dict A B :=
  match d with
  | [] => [(k, v)]
  | (k', v') :: d' =>
      if decide (k' = k) then (k, v) :: d' else (k', v') :: dict_set d' k v
  end.

(** [d[k]], which raises [KeyError] when the key is missing. *)
Definition dict_lookup {X} (d : dict A B) (k : A) : res X B :=
  match dict_get d k with
  | Some v => Ok v
  | None => Raise KeyError
  end.

(** [d.get(k, dflt)] *)
Definition dict_get_default (d : dict A B) (k : A) (dflt : B) : B :=
  default dflt (dict_get d k).

Definition keys (d : dict A B) : list A := d.*1.
Definition values (d : dict A B) : list B := d.*2.
End Dict.

(** [l[i]] for a non-negative index, [IndexError] out of range. *)
Definition list_index {X A} (l : list A) (i : nat) : res X A :=
  match l !! i with
  | Some a => Ok a
  | None => Raise IndexError
  end.

(** [d[k].append(x)] on a dictionary of lists. *)
Definition dict_append {X A B} `{EqDecision A}
    (d : dict A (list B)) (k : A) (x : B) : res X (dict A (list B)) :=
  l ← dict_lookup d k; Ok (dict_set d k (l ++ [x])).

(** [{v: k for k, va in clusters.iteritems() for v in va}]: a later pair
    overwrites an earlier one with the same entity. *)
Definition reverse_index {K E} `{EqDecision E}
    (clusters : dict K (list E)) : dict E K :=
  fold_left (λ d kva, fold_left (λ d v, dict_set d v kva.1) kva.2 d)
            clusters [].

(** ** The cost matrix *)

Abbreviation matrix := (list (list Z)).

(** [cost_matrix[i][j] = c] *)
Definition matrix_set {X} (M : matrix) (i j : nat) (c : Z) : res X matrix :=
  match M !! i with
  | None => Raise IndexError
  | Some row =>
      if decide (j < length row) then Ok (<[i := <[j := c]> row]> M)
      else Raise IndexError
  end.

(** ** The matching *)

Section ClusterAssignment.
Context {K E X : Type} `{EqDecision K} `{EqDecision E}.

(** The depth of nested calls of [graph_traversal] that the interpreter
    allows when the function is called, its recursion limit less the
    frames in use: a call that would nest deeper raises the recursion
    error.  It is a fact of the interpreter, not of the arguments. *)
Variable recursion_limit : nat.

(** [munkres.Munkres().compute]: from a cost matrix to the list of
    (row, column) pairs of an assignment. *)
Variable munkres_compute : matrix → list (nat * nat).

Variable old_clusters new_clusters : dict K (list E).
(** The cost function returns a number or raises. *)
Variable similarity_function : list E → list E → list E → list E → X + Z.
Variable claims rejected : dict K (list E).

Definition call_similarity (nc oc cl rj : list E) : res X Z :=
  match similarity_function nc oc cl rj with
  | inl x => Raise (CostError x)
  | inr c => Ok c
  end.

(** The four objects [graph_traversal] mutates, in the order of its
    parameters: the two lists of the component and the two visit maps. *)
Definition sides : Type := list K * list K * dict K bool * dict K bool.

Definition swap_sides (s : sides) : sides :=
  let '(a, b, va, vb) := s in (b, a, vb, va).

(** Graph traversal in a bipartite graph.  [fuel] is the number of nested
    calls that the interpreter still allows: with none left, the call
    raises the recursion error. *)
Fixpoint graph_traversal (fuel : nat)
    (current_this_side current_other_side : list K)
    (reversed_this_side reversed_other_side : dict E K)
    (this_side_clusters other_side_clusters : dict K (list E))
    (this_side_visited other_side_visited : dict K bool)
    (current_cluster : K) : res X sides :=
  match fuel with
  | 0 => Raise RecursionError
  | S fuel' =>
      let current_this_side := current_this_side ++ [current_cluster] in
      let this_side_visited := dict_set this_side_visited current_cluster true in
      sigs ← dict_lookup this_side_clusters current_cluster;
      foldM (λ (s : sides) sig,
               let '(current_this_side, current_other_side,
                     this_side_visited, other_side_visited) := s in
               other ← dict_lookup reversed_other_side sig;
               seen ← dict_lookup other_side_visited other;
               if (seen : bool) then Ok s
               else
                 (* Notice the sides switch in the function call *)
                 s' ← graph_traversal fuel'
                        current_other_side current_this_side
                        reversed_other_side reversed_this_side
                        other_side_clusters this_side_clusters
                        other_side_visited this_side_visited
                        other;
                 Ok (swap_sides s'))
            sigs
            (current_this_side, current_other_side,
             this_side_visited, other_side_visited)
  end.

(** Set of all claimed entities. *)
Definition claims_set : list E := concat (values claims).
(** Map from entity id to new cluster id. *)
Definition reversed_new : dict E K := reverse_index new_clusters.
(** Map from entity id to old cluster id. *)
Definition reversed_old : dict E K := reverse_index old_clusters.

(** Lines 135-145: the component of the new cluster [k] with entities [n],
    as (current_new, current_old, new_visited, old_visited). *)
Definition discover (fuel : nat) (k : K) (n : list E)
    (old_visited new_visited : dict K bool) : res X sides :=
  seen ← dict_lookup new_visited k;
  if (seen : bool) then Ok ([], [], new_visited, old_visited)
  else
    (* The algorithm didn't run on this graph. Dig. *)
    foldM (λ (s : sides) sig,
             let '(current_new, current_old, new_visited, old_visited) := s in
             old ← dict_lookup reversed_old sig;
             seen ← dict_lookup old_visited old;
             if (seen : bool) then Ok s
             else
               s' ← graph_traversal fuel
                      current_old current_new
                      reversed_old reversed_new
                      old_clusters new_clusters
                      old_visited new_visited
                      old;
               Ok (swap_sides s'))
          n
          ([k], [], dict_set new_visited k true, old_visited).

(** Lines 152-164: the cost matrix of a component, one row per new
    cluster, one column per old cluster and then one artificial column per
    new cluster. *)
Definition cost_row (current_new current_old : list K)
    (M : matrix) (inew : nat * K) : res X matrix :=
  let '(i, new) := inew in
  M ← foldM (λ M (jold : nat * K),
               let '(j, old) := jold in
               nc ← dict_lookup new_clusters new;
               oc ← dict_lookup old_clusters old;
               c ← call_similarity nc oc
                     (dict_get_default claims old [])
                     (dict_get_default rejected old []);
               matrix_set M i j c)
            (enumerate current_old) M;
  foldM (λ M j,
           (* Here the cost for the artificial clusters is computed. *)
           nc ← dict_lookup new_clusters new;
           c ← call_similarity nc [] [] [];
           matrix_set M i (j + length current_old) c)
        (seq 0 (length current_new)) M.

Definition build_cost_matrix (current_new current_old : list K)
    : res X matrix :=
  let cost_matrix :=
    (λ _, (λ _, 0%Z) <$> (current_old ++ current_new)) <$> current_new in
  foldM (cost_row current_new current_old) (enumerate current_new)
        cost_matrix.

(** Lines 173-187: where one entity of a new cluster matched with column
    [old] goes.  The state is [assigned] and [to_new_cluster]. *)
Definition resolve_sig (current_old : list K) (old : nat)
    (s : dict K (list E) * list E) (sig : E)
    : res X (dict K (list E) * list E) :=
  let '(assigned, to_new_cluster) := s in
  if decide (sig ∈ claims_set) then
    (* If claimed, the signature belongs to the same cluster as before *)
    o ← dict_lookup reversed_old sig;
    assigned ← dict_append assigned o sig;
    Ok (assigned, to_new_cluster)
  else if decide (old < length old_clusters) then
    g ← list_index current_old old;
    if decide (sig ∈ dict_get_default rejected g []) then
      (* If rejected by this author, the signature belongs to the same
         cluster as before *)
      o ← dict_lookup reversed_old sig;
      assigned ← dict_append assigned o sig;
      Ok (assigned, to_new_cluster)
    else
      (* Assign to this cluster *)
      assigned ← dict_append assigned g sig;
      Ok (assigned, to_new_cluster)
  else
    (* The signature wasn't assigned to an old cluster *)
    Ok (assigned, to_new_cluster ++ [sig]).

(** Lines 170-189 for one pair of the assignment.  The state is
    [assigned] and [unassigned]. *)
Definition resolve_pair (current_new current_old : list K)
    (s : dict K (list E) * list (list E)) (p : nat * nat)
    : res X (dict K (list E) * list (list E)) :=
  let '(assigned, unassigned) := s in
  let '(new, old) := p in
  k ← list_index current_new new;
  sigs ← dict_lookup new_clusters k;
  r ← foldM (resolve_sig current_old old) sigs (assigned, []);
  let '(assigned, to_new_cluster) := r in
  match to_new_cluster with
  | [] => Ok (assigned, unassigned)
  | _ :: _ => Ok (assigned, unassigned ++ [to_new_cluster])
  end.

(** The state of the main loop: [assigned], [unassigned], [old_visited]
    and [new_visited]; [current_new] and [current_old] are empty at the
    start of every iteration. *)
Definition loop_state : Type :=
  dict K (list E) * list (list E) * dict K bool * dict K bool.

(** Lines 149-189: solve and resolve a discovered component. *)
Definition solve_component (current_new current_old : list K)
    (s : dict K (list E) * list (list E))
    : res X (dict K (list E) * list (list E)) :=
  match current_new with
  | [] => Ok s
  | _ :: _ =>
      cost_matrix ← build_cost_matrix current_new current_old;
      (* Run the Hungarian algorithm *)
      let assignment := munkres_compute cost_matrix in
      foldM (resolve_pair current_new current_old) assignment s
  end.

(** One iteration of the loop of line 134. *)
Definition component_step (fuel : nat) (s : loop_state) (kn : K * list E)
    : res X loop_state :=
  let '(assigned, unassigned, old_visited, new_visited) := s in
  let '(k, n) := kn in
  c ← discover fuel k n old_visited new_visited;
  let '(current_new, current_old, new_visited, old_visited) := c in
  r ← solve_component current_new current_old (assigned, unassigned);
  let '(assigned, unassigned) := r in
  Ok (assigned, unassigned, old_visited, new_visited).

Definition initial_state : loop_state :=
  ((λ kv, (kv.1, [])) <$> old_clusters, [],
   (λ kv, (kv.1, false)) <$> old_clusters,
   (λ kv, (kv.1, false)) <$> new_clusters).

Definition main_loop (fuel : nat) (clusters : dict K (list E))
    (s : loop_state) : res X loop_state :=
  foldM (component_step fuel) clusters s.

(** The call, in an interpreter that allows [recursion_limit] nested calls
    of [graph_traversal]. *)
Definition cluster_assignment
    : res X (dict K (list E) * list (list E)) :=
  s ← main_loop recursion_limit new_clusters initial_state;
  Ok (s.1.1.1, s.1.1.2).

End ClusterAssignment.

Arguments cluster_assignment {K E X _ _} recursion_limit munkres_compute
  old_clusters new_clusters similarity_function claims rejected.

(** ** Vocabulary of the specification *)

(** A partition is internally disjoint when no entity occurs in two of its
    clusters. *)
Definition disjoint_clusters {K E} (clusters : dict K (list E)) : Prop :=
  ∀ i j c1 c2 e,
    clusters !! i = Some c1 → clusters !! j = Some c2 →
    e ∈ c1.2 → e ∈ c2.2 → i = j.

(** What the development asks of the solver: on a matrix with at least as
    many columns as rows it pairs every row with a column of the matrix, no
    column twice. *)
Definition is_assignment (M : matrix) (a : list (nat * nat)) : Prop :=
  a.*1 ≡ₚ seq 0 (length M) ∧
  NoDup a.*2 ∧
  Forall (λ j, Forall (λ row, j < length row) M) a.*2.

Definition solver_ok (solver : matrix → list (nat * nat)) : Prop :=
  ∀ M w, M ≠ [] → Forall (λ row, length row = w) M → length M ≤ w →
    is_assignment M (solver M).

(** [reached r clusters k]: the cluster [k] is the entry of the reverse
    index [r] for an entity of one of [clusters]. *)
Definition reached {K E} `{EqDecision E}
    (r : dict E K) (clusters : dict K (list E)) (k : K) : Prop :=
  ∃ c l sig, (c, l) ∈ clusters ∧ sig ∈ l ∧ dict_get r sig = Some k.

(** The clusters that a traversal may append to the new side while the
    loop is at the key [k]. *)
Definition new_side {K E} `{EqDecision E}
    (old_clusters new_clusters : dict K (list E)) (k k' : K) : Prop :=
  k' = k ∨ reached (reversed_new new_clusters) old_clusters k'.

(** The clusters the loop over [cl] may visit on the new side. *)
Definition loop_new_side {K E} `{EqDecision E}
    (old_clusters new_clusters cl : dict K (list E)) (k : K) : Prop :=
  k ∈ keys cl ∨ reached (reversed_new new_clusters) old_clusters k.

(** The number of clusters of a side that are not visited yet. *)
Definition pending {K} `{EqDecision K} (v : dict K bool) : nat :=
  length (filter (λ k, dict_get v k = Some false) (keys v)).

(** The number of clusters of the two sides. *)
Definition cluster_count {K E} (old_clusters new_clusters : dict K (list E))
    : nat :=
  length old_clusters + length new_clusters.

(** The result is not the recursion error. *)
Definition within_depth {X A} (m : res X A) : Prop :=
  m ≠ Raise RecursionError.

(** How a traversal changes one side: it appends pairwise distinct clusters
    that were not visited and marks exactly them as visited. *)
Definition side_rel {K} `{EqDecision K} (P : K → Prop)
    (l : list K) (v : dict K bool) (l' : list K) (v' : dict K bool) : Prop :=
  ∃ added,
    l' = l ++ added ∧ NoDup added ∧ Forall P added ∧
    keys v' = keys v ∧
    Forall (λ k, dict_get v k = Some false) added ∧
    ∀ k, dict_get v' k = if decide (k ∈ added) then Some true
                         else dict_get v k.

(** ** The calls of the cost function *)

Section CostCalls.
Context {K E X : Type} `{EqDecision K}.
Variable old_clusters new_clusters : dict K (list E).
Variable similarity_function : list E → list E → list E → list E → X + Z.
Variable claims rejected : dict K (list E).

(** The evaluation of line 157 for the new cluster [new] and the old
    cluster [old]. *)
Definition old_cost (new old : K) : res X Z :=
  nc ← dict_lookup new_clusters new;
  oc ← dict_lookup old_clusters old;
  call_similarity similarity_function nc oc
    (dict_get_default claims old []) (dict_get_default rejected old []).

(** The evaluation of line 164 for the new cluster [new]. *)
Definition dummy_cost (new : K) : res X Z :=
  nc ← dict_lookup new_clusters new;
  call_similarity similarity_function nc [] [] [].

(** The evaluations for one row of the matrix, in order. *)
Definition row_calls (current_new current_old : list K) (new : K)
    : list (res X Z) :=
  (old_cost new <$> current_old) ++
  ((λ _, dummy_cost new) <$> seq 0 (length current_new)).

(** The evaluations for the matrix of a component, in order. *)
Definition cost_calls (current_new current_old : list K) : list (res X Z) :=
  current_new ≫= row_calls current_new current_old.
End CostCalls.

(** The first exception of a sequence of evaluations. *)
Fixpoint first_raise {X A} (l : list (res X A)) : option (exn X) :=
  match l with
  | [] => None
  | Ok _ :: l' => first_raise l'
  | Raise e :: _ => Some e
  end.

Definition is_Ok {X A} (r : res X A) : Prop := ∃ a, r = Ok a.

(** A matrix of [m] rows and [w] columns. *)
Definition dims (m w : nat) (M : matrix) : Prop :=
  length M = m ∧ Forall (λ row, length row = w) M.

(** ** The resolution rule and the record of a run *)

Section Routing.
Context {K E : Type} `{EqDecision K} `{EqDecision E}.
Variable old_clusters new_clusters claims rejected : dict K (list E).

(** Where the resolver sends the entity [sig] of a new cluster matched
    with column [old] of a component whose old clusters are
    [current_old]: [Some g] is the list [assigned[g]], [None] is the list
    of leftovers of the new cluster. *)
Inductive routed (current_old : list K) (old : nat) (sig : E)
    : option K → Prop :=
| routed_claimed o :
    sig ∈ claims_set claims →
    dict_get (reversed_old old_clusters) sig = Some o →
    routed current_old old sig (Some o)
| routed_rejected g o :
    sig ∉ claims_set claims →
    old < length old_clusters →
    current_old !! old = Some g →
    sig ∈ dict_get_default rejected g [] →
    dict_get (reversed_old old_clusters) sig = Some o →
    routed current_old old sig (Some o)
| routed_matched g :
    sig ∉ claims_set claims →
    old < length old_clusters →
    current_old !! old = Some g →
    sig ∉ dict_get_default rejected g [] →
    routed current_old old sig (Some g)
| routed_leftover :
    sig ∉ claims_set claims →
    ¬ old < length old_clusters →
    routed current_old old sig None.

(** The entities a list of routings sends to [assigned[g]], in order. *)
Definition placed (g : K) (ds : list (E * option K)) : list E :=
  (filter (λ p, p.2 = Some g) ds).*1.

(** The entities a list of routings leaves over, in order. *)
Definition unplaced (ds : list (E * option K)) : list E :=
  (filter (λ p, p.2 = None) ds).*1.

(** [assigned'] is [assigned] with the routed entities appended. *)
Definition extends (assigned : dict K (list E)) (ds : list (E * option K))
    (assigned' : dict K (list E)) : Prop :=
  keys assigned' = keys assigned ∧
  ∀ g l, dict_get assigned g = Some l →
         dict_get assigned' g = Some (l ++ placed g ds).

(** The resolution of one new cluster: its key, the old clusters of its
    component, its column, and the routing of each of its entities. *)
Record resolution : Type := Resolution {
  res_new : K;
  res_current_old : list K;
  res_column : nat;
  res_routes : list (E * option K)
}.

Definition resolution_ok (r : resolution) : Prop :=
  dict_get new_clusters (res_new r) = Some (res_routes r).*1 ∧
  Forall (λ p, routed (res_current_old r) (res_column r) p.1 p.2)
         (res_routes r) ∧
  Forall (reached (reversed_old old_clusters) new_clusters)
         (res_current_old r) ∧
  length (res_current_old r) ≤ length old_clusters.

(** [r] records the resolution of the pair [p] of an assignment for the
    component [current_new], [current_old]. *)
Definition resolves (current_new current_old : list K) (p : nat * nat)
    (r : resolution) : Prop :=
  current_new !! p.1 = Some (res_new r) ∧
  res_column r = p.2 ∧
  res_current_old r = current_old ∧
  dict_get new_clusters (res_new r) = Some (res_routes r).*1 ∧
  Forall (λ q, routed current_old p.2 q.1 q.2) (res_routes r).

Definition all_routes (tr : list resolution) : list (E * option K) :=
  tr ≫= res_routes.

(** What a list of resolutions appends to [unassigned]. *)
Definition leftovers (tr : list resolution) : list (list E) :=
  tr ≫= λ r, match unplaced (res_routes r) with
             | [] => []
             | t => [t]
             end.
End Routing.

(** ** Statements about a run *)

Section Statements.
Context {K E X : Type} `{EqDecision K} `{EqDecision E}.
Variable recursion_limit : nat.
Variable munkres_compute : matrix → list (nat * nat).
Variable old_clusters new_clusters : dict K (list E).
Variable similarity_function : list E → list E → list E → list E → X + Z.
Variable claims rejected : dict K (list E).

(** The loop reaches the new cluster [(k, n)] in the state [s], after the
    new clusters [pre]. *)
Definition loop_reaches (pre : dict K (list E)) (k : K) (n : list E)
    (post : dict K (list E)) (s : loop_state) : Prop :=
  new_clusters = pre ++ (k, n) :: post ∧
  main_loop munkres_compute old_clusters new_clusters similarity_function
            claims rejected recursion_limit pre
            (initial_state old_clusters new_clusters) = Ok s.

(** The loop discovers the component [current_new], [current_old]. *)
Definition discovers (current_new current_old : list K) : Prop :=
  ∃ pre k n post assigned unassigned old_visited new_visited
    new_visited' old_visited',
    loop_reaches pre k n post
                 (assigned, unassigned, old_visited, new_visited) ∧
    discover (X:=X) old_clusters new_clusters recursion_limit k n
             old_visited new_visited
      = Ok (current_new, current_old, new_visited', old_visited').

(** In the run, the solver pairs the new cluster [c] with the column of
    the old cluster [g] of its component. *)
Definition solver_pairs (c g : K) : Prop :=
  ∃ current_new current_old M i j,
    discovers current_new current_old ∧
    build_cost_matrix old_clusters new_clusters similarity_function
                      claims rejected current_new current_old = Ok M ∧
    (i, j) ∈ munkres_compute M ∧
    current_new !! i = Some c ∧
    current_old !! j = Some g.

(** Foreign keys as the specification words them: a key of [claims] or of
    [rejected] that is not a key of [old_clusters] makes the call fail. *)
Definition foreign_keys_rejected_as_stated : Prop :=
  (∃ g, (g ∈ keys claims ∨ g ∈ keys rejected) ∧ g ∉ keys old_clusters) →
  ∃ err,
    cluster_assignment recursion_limit munkres_compute old_clusters new_clusters
      similarity_function claims rejected = Raise err.

(** New clusters without old entities as the specification words them:
    the call returns and the entities of the cluster make one list of
    [unassigned]. *)
Definition fresh_cluster_as_stated : Prop :=
  ∀ k n,
    (k, n) ∈ new_clusters →
    (∀ e g va, e ∈ n → (g, va) ∈ old_clusters → e ∉ va) →
    ∃ assigned unassigned,
      cluster_assignment recursion_limit munkres_compute
        old_clusters new_clusters
        similarity_function claims rejected = Ok (assigned, unassigned) ∧
      ∀ e, e ∈ n → ∃ t, t ∈ unassigned ∧ e ∈ t.

(** Claim dominance as the specification words it: an entity of a new
    cluster that [g] claims is in [assigned[g]]. *)
Definition claim_dominance_as_stated : Prop :=
  ∀ g cl e c l,
    dict_get claims g = Some cl → e ∈ cl →
    (c, l) ∈ new_clusters → e ∈ l →
    ∃ assigned unassigned la,
      cluster_assignment recursion_limit munkres_compute
        old_clusters new_clusters
        similarity_function claims rejected = Ok (assigned, unassigned) ∧
      dict_get assigned g = Some la ∧ e ∈ la.

(** The rejection redirect as the specification words it, with no
    condition on [g_orig] and [g_target]. *)
Definition rejection_redirect_as_stated : Prop :=
  ∀ c l e g_orig g_target va assigned unassigned,
    (g_orig, va) ∈ old_clusters → e ∈ va →
    e ∉ claims_set claims →
    dict_get new_clusters c = Some l → e ∈ l →
    solver_pairs c g_target →
    e ∈ dict_get_default rejected g_target [] →
    cluster_assignment recursion_limit munkres_compute old_clusters new_clusters
      similarity_function claims rejected = Ok (assigned, unassigned) →
    (∃ la, dict_get assigned g_orig = Some la ∧ e ∈ la) ∧
    (∀ lt, dict_get assigned g_target = Some lt → e ∉ lt).
End Statements.

(** ** Vocabulary of the decomposition *)

(** [scanned clusters r v k]: the cluster [k] exists, and every entity of
    it has an entry in the reverse index [r] of the opposite side, a
    cluster that is marked in [v]. *)
Definition scanned {K E} `{EqDecision K} `{EqDecision E}
    (clusters : dict K (list E)) (r : dict E K) (v : dict K bool) (k : K)
    : Prop :=
  ∃ sigs, dict_get clusters k = Some sigs ∧
    ∀ sig, sig ∈ sigs →
      ∃ o, dict_get r sig = Some o ∧ dict_get v o = Some true.

(** The flag of [k] goes from [False] to [True]. *)
Definition turned {K} `{EqDecision K} (v v' : dict K bool) (k : K) : Prop :=
  dict_get v k = Some false ∧ dict_get v' k = Some true.

(** No flag is reset. *)
Definition flags_kept {K} `{EqDecision K} (v v' : dict K bool) : Prop :=
  ∀ k, dict_get v k = Some true → dict_get v' k = Some true.

(** The visited clusters are closed: the neighbours of a visited cluster
    are visited. *)
Definition closed_flags {K E} `{EqDecision K} `{EqDecision E}
    (old_clusters new_clusters : dict K (list E)) (nv ov : dict K bool)
    : Prop :=
  (∀ k, dict_get nv k = Some true →
        scanned new_clusters (reversed_old old_clusters) ov k) ∧
  (∀ g, dict_get ov g = Some true →
        scanned old_clusters (reversed_new new_clusters) nv g).

(** The reverse index [r] has an entry, a key of [other], for every entity
    of a cluster of [clusters]. *)
Definition indexed {K E} `{EqDecision K} `{EqDecision E}
    (clusters other : dict K (list E)) (r : dict E K) : Prop :=
  ∀ k sigs sig, dict_get clusters k = Some sigs → sig ∈ sigs →
    ∃ o, dict_get r sig = Some o ∧ o ∈ keys other.

(** ** The graph of the clusters *)

Section Graph.
Context {K E : Type} `{EqDecision K} `{EqDecision E}.
Variable old_clusters new_clusters : dict K (list E).

(** The new cluster [c] and the old cluster [g] share an entity. *)
Definition shares (c g : K) : Prop :=
  ∃ l va e, (c, l) ∈ new_clusters ∧ (g, va) ∈ old_clusters ∧ e ∈ l ∧ e ∈ va.

(** The clusters are the nodes of a bipartite graph, [inl c] for a new
    cluster and [inr g] for an old one, with an edge between two clusters
    that share an entity. *)
Definition linked (x y : K + K) : Prop :=
  match x, y with
  | inl c, inr g => shares c g
  | _, _ => False
  end.

(** Two clusters are connected by a chain of shared entities. *)
Definition connected : relation (K + K) := rtsc linked.

(** All the clusters. *)
Definition nodes : list (K + K) :=
  (inl <$> keys new_clusters) ++ (inr <$> keys old_clusters).

(** Any two clusters are connected: the graph is one component. *)
Definition graph_connected : Prop :=
  ∀ x y, x ∈ nodes → y ∈ nodes → connected x y.
End Graph.

(** ** The components of a run *)

Section ComponentRecords.
Context {K E X : Type} `{EqDecision K} `{EqDecision E}.
Variable recursion_limit : nat.
Variable munkres_compute : matrix → list (nat * nat).
Variable old_clusters new_clusters : dict K (list E).
Variable similarity_function : list E → list E → list E → list E → X + Z.
Variable claims rejected : dict K (list E).

(** What one iteration of the main loop does: the component it discovers
    and the resolutions of the pairs of its assignment, in order. *)
Record component : Type := Component {
  comp_new : list K;
  comp_old : list K;
  comp_trace : list (@resolution K E)
}.

(** The loop discovers the component, and its resolutions are those of the
    pairs that the solver returns for its matrix; the empty component, of
    a new cluster that is visited when the loop reaches it, has none. *)
Definition component_ok (c : component) : Prop :=
  discovers recursion_limit munkres_compute
            old_clusters new_clusters similarity_function
            claims rejected (comp_new c) (comp_old c) ∧
  ∃ asg,
    Forall2 (resolves old_clusters new_clusters claims rejected
               (comp_new c) (comp_old c)) asg (comp_trace c) ∧
    (comp_new c = [] → asg = []) ∧
    (comp_new c ≠ [] →
     ∃ M, build_cost_matrix old_clusters new_clusters similarity_function
            claims rejected (comp_new c) (comp_old c) = Ok M ∧
          asg = munkres_compute M).

(** The resolutions of a run, in order. *)
Definition run_trace (comps : list component) : list (@resolution K E) :=
  comps ≫= comp_trace.
End ComponentRecords.

Arguments component : clear implicits.

(** The old cluster that the column of a resolution stands for, when the
    resolver takes the column for an old cluster. *)
Definition res_target {K E} (old_clusters : dict K (list E))
    (r : @resolution K E) : option K :=
  if decide (res_column r < length old_clusters)
  then res_current_old r !! res_column r
  else None.

(** ** The entries of the cost matrix *)


(** ** The exceptions of a call *)

(** Every exception that a computation can end with satisfies [Q]. *)
Definition raises_only {X A} (Q : exn X → Prop) (m : res X A) : Prop :=
  ∀ e, m = Raise e → Q e.

(** The exceptions that are not the failure of the lookup of a key: of a
    list subscript, of the cost function, of the recursion limit. *)
Definition no_key_error {X} (e : exn X) : Prop :=
  e = IndexError ∨ (∃ x, e = CostError x) ∨ e = RecursionError.

(** ** A reference solver of the assignment problem *)

(** Modelled from the spec: the solver of the external package [munkres],
    which is not part of the repository (section 4.2: every new cluster is
    paired with one column, no column is used twice, and the total cost is
    the least possible).  It is an exhaustive search over the choices of
    pairwise distinct columns, one per row, which returns the first choice
    of least total cost in lexicographic order.  It stands for [munkres]
    where a concrete run is evaluated. *)

(** The total cost of the columns [cols] chosen for [rows]. *)
Fixpoint choice_cost (rows : matrix) (cols : list nat) : Z :=
  match rows, cols with
  | row :: rows', j :: cols' =>
      (default 0%Z (row !! j) + choice_cost rows' cols')%Z
  | _, _ => 0%Z
  end.

(** All choices of pairwise distinct columns, outside [used], for [rows],
    each with its total cost. *)
Fixpoint column_choices (rows : matrix) (used : list nat)
    : list (list nat * Z) :=
  match rows with
  | [] => [([], 0%Z)]
  | row :: rows' =>
      j ← filter (λ j, j ∉ used) (seq 0 (length row));
      '(cols, c) ← column_choices rows' (j :: used);
      [(j :: cols, (default 0%Z (row !! j) + c)%Z)]
  end.

(** The first element of least cost. *)
Fixpoint first_min (best : list nat * Z) (l : list (list nat * Z))
    : list nat * Z :=
  match l with
  | [] => best
  | x :: l' => first_min (if decide (x.2 < best.2)%Z then x else best) l'
  end.

Definition best_columns (M : matrix) : list nat :=
  match column_choices M [] with
  | [] => []
  | x :: l => (first_min x l).1
  end.

Definition exhaustive_assignment (M : matrix) : list (nat * nat) :=
  zip (seq 0 (length M)) (best_columns M).

(** ** The inputs of the test suite *)

Module Tests.
(** Simplest, constant cost function. *)
Definition simple_cost : list Z → list Z → list Z → list Z → string + Z :=
  λ x y z a, inr 1%Z.

(** [len(set(x).intersection(y))] *)
Definition intersection_size (x y : list Z) : Z :=
  Z.of_nat (length (filter (λ e, e ∈ y) (remove_dups x))).

(** The bigger the intersection is, the lower the cost. *)
Definition intersection_cost
    : list Z → list Z → list Z → list Z → string + Z :=
  λ x y z a, inr (- intersection_size x y)%Z.

(** The bigger the intersection is, the bigger the cost. *)
Definition weird_cost : list Z → list Z → list Z → list Z → string + Z :=
  λ x y z a, inr (if decide (intersection_size x y = 1) then -1 else 0)%Z.

(** A cost that prefers leaving a new cluster unmatched: the size of the
    old cluster. *)
Definition size_cost : list Z → list Z → list Z → list Z → string + Z :=
  λ x y z a, inr (Z.of_nat (length y)).


(** A recursion limit for the runs of the test suite: the default limit of
    the interpreter, which the test suite does not change.  The frames in
    use when a test calls the function leave somewhat less; every limit
    that is at least the number of clusters gives the same runs. *)
Definition recursion_limit : nat := 1000.

(** [cluster_assignment] with the reference solver. *)
Definition run (old_clusters new_clusters : dict Z (list Z))
    (similarity_function : list Z → list Z → list Z → list Z → string + Z)
    (claims rejected : dict Z (list Z))
    : res string (dict Z (list Z) * list (list Z)) :=
  cluster_assignment recursion_limit exhaustive_assignment
    old_clusters new_clusters similarity_function claims rejected.

(** [test_disconnected_graph] *)
Definition disconnected_old : dict Z (list Z) :=
  [(1, [9]); (2, [10; 11]); (3, [12; 13]); (4, [14])]%Z.
Definition disconnected_new : dict Z (list Z) :=
  [(8, [12; 14]); (9, [13]); (5, [10]); (6, [9; 11])]%Z.

(** [test_claimed_paper] and [test_rejected_paper] *)
Definition paper_old : dict Z (list Z) := [(1, [1; 2]); (2, [3])]%Z.
Definition paper_new : dict Z (list Z) := [(1, [1]); (2, [2; 3])]%Z.

(** A chain: every cluster but the two ends shares an entity with two
    clusters of the other side. *)
Definition chain_old : dict Z (list Z) :=
  [(1, [1; 2]); (2, [3; 4]); (3, [5])]%Z.
Definition chain_new : dict Z (list Z) :=
  [(1, [1]); (2, [2; 3]); (3, [4; 5])]%Z.
End Tests.

(** * The same function on a store of objects

    The embedding above passes values; Python passes references to mutable
    objects.  Here the lists and dictionaries that the function receives,
    creates and mutates are objects of a store, the variables of the code
    hold their locations, and every [append] and item assignment is a
    write to the store.  The reverse indices and the set of claimed
    entities are created by the function and never mutated; they stay
    values.  The cost function is a computation on the store that is
    given the locations of four lists. *)

Module Heap.

Abbreviation loc := nat.

Inductive obj {K E : Type} : Type :=
| OList (l : list E)          (* a list of entities *)
| OKeys (l : list K)          (* a list of cluster ids *)
| ODict (d : dict K loc)      (* a dictionary of lists of entities *)
| OFlags (d : dict K bool)    (* a visit map *)
| OLists (l : list loc)       (* a list of lists of entities *)
| ORow (r : list Z).          (* a row of the cost matrix *)
Arguments obj : clear implicits.

(** A computation on the store; the store survives an exception. *)
Definition hm (K E X A : Type) : Type :=
  list (obj K E) → list (obj K E) * res X A.

#[global] Instance hm_ret {K E X} : MRet (hm K E X) := λ A a h, (h, Ok a).
#[global] Instance hm_bind {K E X} : MBind (hm K E X) :=
  λ A B f m h,
    match m h with
    | (h', Ok a) => f a h'
    | (h', Raise e) => (h', Raise e)
    end.

Section Store.
Context {K E X : Type} `{EqDecision K} `{EqDecision E}.

Abbreviation heap := (list (obj K E)).
Abbreviation M := (hm K E X).

Definition lift {A} (r : res X A) : M A := λ h, (h, r).

(** A new object. *)
Definition alloc (o : obj K E) : M loc := λ h, (h ++ [o], Ok (length h)).

(** The object at a location, read at one type. *)
Definition get {A} (as_type : obj K E → option A) (l : loc) : M A :=
  λ h, (h, match h !! l ≫= as_type with
           | Some a => Ok a
           | None => Raise TypeError
           end).

(** An update in place of the object at a location. *)
Definition modify (f : obj K E → option (obj K E)) (l : loc) : M unit :=
  λ h, match h !! l ≫= f with
       | Some o => (<[l := o]> h, Ok ())
       | None => (h, Raise TypeError)
       end.

Definition as_list (o : obj K E) : option (list E) :=
  match o with OList l => Some l | _ => None end.
Definition as_keys (o : obj K E) : option (list K) :=
  match o with OKeys l => Some l | _ => None end.
Definition as_dict (o : obj K E) : option (dict K loc) :=
  match o with ODict d => Some d | _ => None end.
Definition as_flags (o : obj K E) : option (dict K bool) :=
  match o with OFlags d => Some d | _ => None end.
Definition as_lists (o : obj K E) : option (list loc) :=
  match o with OLists l => Some l | _ => None end.
Definition as_row (o : obj K E) : option (list Z) :=
  match o with ORow r => Some r | _ => None end.

(** [l.append(x)] for the three kinds of lists. *)
Definition list_append (l : loc) (x : E) : M unit :=
  modify (λ o, match o with
               | OList xs => Some (OList (xs ++ [x]))
               | _ => None
               end) l.
Definition keys_append (l : loc) (k : K) : M unit :=
  modify (λ o, match o with
               | OKeys ks => Some (OKeys (ks ++ [k]))
               | _ => None
               end) l.
Definition lists_append (l : loc) (x : loc) : M unit :=
  modify (λ o, match o with
               | OLists ls => Some (OLists (ls ++ [x]))
               | _ => None
               end) l.

(** [visited[k] = b] *)
Definition flags_set (l : loc) (k : K) (b : bool) : M unit :=
  modify (λ o, match o with
               | OFlags d => Some (OFlags (dict_set d k b))
               | _ => None
               end) l.

(** [row[j] = c] *)
Definition row_set (l : loc) (j : nat) (c : Z) : M unit :=
  r ← get as_row l;
  if decide (j < length r) then
    modify (λ o, match o with
                 | ORow r => Some (ORow (<[j := c]> r))
                 | _ => None
                 end) l
  else lift (Raise IndexError).

(** A [for] loop over a list of values. *)
Fixpoint for_each {B} (l : list B) (body : B → M unit) : M unit :=
  match l with
  | [] => mret ()
  | b :: l' => _ ← body b; for_each l' body
  end.

(** A loop that collects the results of its body. *)
Fixpoint collect {A B} (l : list B) (body : B → M A) : M (list A) :=
  match l with
  | [] => mret []
  | b :: l' => a ← body b; r ← collect l' body; mret (a :: r)
  end.

(** A loop that threads a state. *)
Fixpoint fold_each {A B} (l : list B) (body : A → B → M A) (a : A) : M A :=
  match l with
  | [] => mret a
  | b :: l' => a' ← body a b; fold_each l' body a'
  end.

(** [d[k]] and [d.get(k, [])] for a dictionary of lists; the default is
    a new empty list. *)
Definition subscript (d : loc) (k : K) : M loc :=
  entries ← get as_dict d;
  lift (dict_lookup entries k).

Definition get_or_new (d : loc) (k : K) : M loc :=
  empty ← alloc (OList []);
  entries ← get as_dict d;
  mret (default empty (dict_get entries k)).

(** [{v: k for k, va in clusters.iteritems() for v in va}] *)
Definition reverse_index (clusters : loc) : M (dict E K) :=
  entries ← get as_dict clusters;
  fold_each entries
    (λ d kl, va ← get as_list kl.2;
             mret (fold_left (λ d v, dict_set d v kl.1) va d))
    [].

(** [{z for claim_list in claims.values() for z in claim_list}] *)
Definition claims_set (claims : loc) : M (list E) :=
  entries ← get as_dict claims;
  lists ← collect entries (λ kl, get as_list kl.2);
  mret (concat lists).

(** The depth of nested calls of [graph_traversal] that the interpreter
    allows. *)
Variable recursion_limit : nat.
Variable munkres_compute : matrix → list (nat * nat).
(** The cost function is given four lists by their locations; it returns
    a number or raises. *)
Variable similarity_function : loc → loc → loc → loc → M (X + Z).

Definition call_similarity (nc oc cl rj : loc) : M Z :=
  r ← similarity_function nc oc cl rj;
  match r with
  | inl x => lift (Raise (CostError x))
  | inr c => mret c
  end.

Fixpoint graph_traversal (fuel : nat)
    (current_this_side current_other_side : loc)
    (reversed_this_side reversed_other_side : dict E K)
    (this_side_clusters other_side_clusters : loc)
    (this_side_visited other_side_visited : loc)
    (current_cluster : K) : M unit :=
  match fuel with
  | 0 => lift (Raise RecursionError)
  | S fuel' =>
      _ ← keys_append current_this_side current_cluster;
      _ ← flags_set this_side_visited current_cluster true;
      cluster ← subscript this_side_clusters current_cluster;
      sigs ← get as_list cluster;
      for_each sigs (λ sig,
        other ← lift (dict_lookup reversed_other_side sig);
        visited ← get as_flags other_side_visited;
        seen ← lift (dict_lookup visited other);
        if (seen : bool) then mret ()
        else
          graph_traversal fuel'
            current_other_side current_this_side
            reversed_other_side reversed_this_side
            other_side_clusters this_side_clusters
            other_side_visited this_side_visited
            other)
  end.

Section Call.
(** The locations of the four dictionaries of the call. *)
Variable old_clusters new_clusters claims rejected : loc.
(** The objects of lines 111-126. *)
Variable assigned unassigned : loc.
Variable the_claims_set : list E.
Variable reversed_new reversed_old : dict E K.
Variable old_visited new_visited : loc.

(** Lines 135-145. *)
Definition discover (fuel : nat) (current_new current_old : loc)
    (k : K) (n : loc) : M unit :=
  visited ← get as_flags new_visited;
  seen ← lift (dict_lookup visited k);
  if (seen : bool) then mret ()
  else
    _ ← keys_append current_new k;
    _ ← flags_set new_visited k true;
    sigs ← get as_list n;
    for_each sigs (λ sig,
      old ← lift (dict_lookup reversed_old sig);
      visited ← get as_flags old_visited;
      seen ← lift (dict_lookup visited old);
      if (seen : bool) then mret ()
      else
        graph_traversal fuel
          current_old current_new
          reversed_old reversed_new
          old_clusters new_clusters
          old_visited new_visited
          old).

(** Lines 152-164; the rows are new objects. *)
Definition build_cost_matrix (current_new current_old : list K)
    : M (list loc) :=
  cost_matrix ← collect current_new
    (λ _, alloc (ORow ((λ _, 0%Z) <$> (current_old ++ current_new))));
  _ ← for_each (enumerate current_new) (λ inew,
    row ← lift (list_index cost_matrix inew.1);
    _ ← for_each (enumerate current_old) (λ jold,
      nc ← subscript new_clusters inew.2;
      oc ← subscript old_clusters jold.2;
      cl ← get_or_new claims jold.2;
      rj ← get_or_new rejected jold.2;
      c ← call_similarity nc oc cl rj;
      row_set row jold.1 c);
    for_each (seq 0 (length current_new)) (λ j,
      nc ← subscript new_clusters inew.2;
      oc ← alloc (OList []);
      cl ← alloc (OList []);
      rj ← alloc (OList []);
      c ← call_similarity nc oc cl rj;
      row_set row (j + length current_old) c));
  mret cost_matrix.

(** Lines 173-187 for one entity. *)
Definition resolve_sig (current_old : list K) (old : nat)
    (to_new_cluster : loc) (sig : E) : M unit :=
  if decide (sig ∈ the_claims_set) then
    o ← lift (dict_lookup reversed_old sig);
    target ← subscript assigned o;
    list_append target sig
  else
    olds ← get as_dict old_clusters;
    if decide (old < length olds) then
      g ← lift (list_index current_old old);
      rejections ← get_or_new rejected g;
      rj ← get as_list rejections;
      if decide (sig ∈ rj) then
        o ← lift (dict_lookup reversed_old sig);
        target ← subscript assigned o;
        list_append target sig
      else
        target ← subscript assigned g;
        list_append target sig
    else list_append to_new_cluster sig.

(** Lines 170-189 for one pair. *)
Definition resolve_pair (current_new current_old : list K)
    (p : nat * nat) : M unit :=
  to_new_cluster ← alloc (OList []);
  k ← lift (list_index current_new p.1);
  cluster ← subscript new_clusters k;
  sigs ← get as_list cluster;
  _ ← for_each sigs (resolve_sig current_old p.2 to_new_cluster);
  leftover ← get as_list to_new_cluster;
  match leftover with
  | [] => mret ()
  | _ :: _ => lists_append unassigned to_new_cluster
  end.

(** One iteration of the loop of line 134; the state is the locations of
    [current_new] and [current_old]. *)
Definition component_step (fuel : nat) (s : loc * loc) (kn : K * loc)
    : M (loc * loc) :=
  _ ← discover fuel s.1 s.2 kn.1 kn.2;
  current_new ← get as_keys s.1;
  current_old ← get as_keys s.2;
  _ ← match current_new with
      | [] => mret ()
      | _ :: _ =>
          rows ← build_cost_matrix current_new current_old;
          cost_matrix ← collect rows (get as_row);
          for_each (munkres_compute cost_matrix)
                   (resolve_pair current_new current_old)
      end;
  current_new ← alloc (OKeys []);
  current_old ← alloc (OKeys []);
  mret (current_new, current_old).
End Call.

(** Lines 114-194, after [assigned] and [unassigned] are created. *)
Definition cluster_assignment_body
    (old_clusters new_clusters claims rejected assigned unassigned : loc)
    : M (loc * loc) :=
  olds ← get as_dict old_clusters;
  the_claims_set ← claims_set claims;
  reversed_new ← reverse_index new_clusters;
  reversed_old ← reverse_index old_clusters;
  old_visited ← alloc (OFlags ((λ kl, (kl.1, false)) <$> olds));
  news ← get as_dict new_clusters;
  new_visited ← alloc (OFlags ((λ kl, (kl.1, false)) <$> news));
  current_new ← alloc (OKeys []);
  current_old ← alloc (OKeys []);
  _ ← fold_each news
        (component_step old_clusters new_clusters claims rejected
           assigned unassigned the_claims_set reversed_new reversed_old
           old_visited new_visited recursion_limit)
        (current_new, current_old);
  mret (assigned, unassigned).

(** The call: the four dictionaries are given by their locations, and the
    result is the locations of [assigned] and [unassigned]. *)
Definition cluster_assignment (old_clusters new_clusters claims rejected : loc)
    : M (loc * loc) :=
  olds ← get as_dict old_clusters;
  lists ← collect olds (λ kl, l ← alloc (OList []); mret (kl.1, l));
  assigned ← alloc (ODict lists);
  unassigned ← alloc (OLists []);
  cluster_assignment_body old_clusters new_clusters claims rejected
                          assigned unassigned.

(** Dictionaries of lists as objects of the store, and back. *)
Definition store_dict (d : dict K (list E)) : M loc :=
  entries ← collect d (λ kl, l ← alloc (OList kl.2); mret (kl.1, l));
  alloc (ODict entries).

Definition load_dict (d : loc) : M (dict K (list E)) :=
  entries ← get as_dict d;
  collect entries (λ kl, l ← get as_list kl.2; mret (kl.1, l)).

Definition load_lists (l : loc) : M (list (list E)) :=
  ls ← get as_lists l;
  collect ls (get as_list).

(** A cost function that reads the four lists and computes on their
    contents. *)
Definition of_contents
    (f : list E → list E → list E → list E → X + Z)
    (nc oc cl rj : loc) : M (X + Z) :=
  nc ← get as_list nc;
  oc ← get as_list oc;
  cl ← get as_list cl;
  rj ← get as_list rj;
  mret (f nc oc cl rj).

(** The call on four dictionaries laid out in an empty store: the result
    and the four dictionaries after the call. *)
Definition run (old_clusters new_clusters claims rejected : dict K (list E))
    : M (dict K (list E) * list (list E) * list (dict K (list E))) :=
  o ← store_dict old_clusters;
  n ← store_dict new_clusters;
  c ← store_dict claims;
  r ← store_dict rejected;
  au ← cluster_assignment o n c r;
  a ← load_dict au.1;
  u ← load_lists au.2;
  inputs ← collect [o; n; c; r] load_dict;
  mret (a, u, inputs).

(** The absence of mutation as the specification words it, for every
    cost function: a dictionary of lists that can be read from the store
    before the call reads the same after it. *)
Definition inputs_unchanged_as_stated
    (old_clusters new_clusters claims rejected : loc) (h : heap) : Prop :=
  ∀ d v,
    (load_dict d h).2 = Ok v →
    (load_dict d (cluster_assignment old_clusters new_clusters claims
                    rejected h).1).2 = Ok v.

(** What a call may do to a store whose first [n0] objects exist before
    it: objects are added, the first [n0] objects and the dictionaries are
    kept, a list of lists only gains new lists. *)
Definition extends (n0 : nat) (h h' : heap) : Prop :=
  length h ≤ length h' ∧
  (∀ l, l < n0 → h' !! l = h !! l) ∧
  (∀ l d, h !! l = Some (ODict d) → h' !! l = Some (ODict d)) ∧
  (∀ l ls, h !! l = Some (OLists ls) →
     ∃ ls', h' !! l = Some (OLists (ls ++ ls')) ∧ Forall (λ x, n0 ≤ x) ls').

(** A property of the store that such calls keep. *)
Definition stable (n0 : nat) (I : heap → Prop) : Prop :=
  ∀ h h', extends n0 h h' → I h → I h'.

(** A computation that respects the first [n0] objects, in a store that
    satisfies [I], and whose result satisfies [φ]. *)
Definition framed {A} (n0 : nat) (I : heap → Prop) (m : M A) (φ : A → Prop)
    : Prop :=
  ∀ h, n0 ≤ length h → I h →
    extends n0 h (m h).1 ∧ ∀ a, (m h).2 = Ok a → φ a.

(** An update in place that [extends] allows: not of a dictionary, and of
    a list of lists only by appending new lists. *)
Definition safe_update (n0 : nat) (o o' : obj K E) : Prop :=
  match o with
  | ODict _ => False
  | OLists ls => ∃ new, o' = OLists (ls ++ new) ∧ Forall (λ x, n0 ≤ x) new
  | _ => True
  end.
End Store.
End Heap.

(** The store of [test_rejected_paper]: the old clusters at 2, the new
    clusters at 5, the claims at 6 and the rejections at 8. *)
Module StoreTests.
Import Heap.
Definition paper_store : list (obj Z Z) :=
  [OList [1; 2]%Z; OList [3]%Z; ODict [(1%Z, 0); (2%Z, 1)];
   OList [1]%Z; OList [2; 3]%Z; ODict [(1%Z, 3); (2%Z, 4)];
   ODict [];
   OList [2]%Z; ODict [(2%Z, 7)]].

(** The call of [Heap.run] with the reference solver: the result and the
    four dictionaries after the call. *)
Definition run (old_clusters new_clusters : dict Z (list Z))
    (similarity_function : list Z → list Z → list Z → list Z → string + Z)
    (claims rejected : dict Z (list Z))
    : res string (dict Z (list Z) * list (list Z)
                  * list (dict Z (list Z))) :=
  (Heap.run Tests.recursion_limit exhaustive_assignment
            (Heap.of_contents similarity_function)
            old_clusters new_clusters claims rejected []).2.

(** A cost function that appends to the new cluster it is given. *)
Definition writing_cost (nc oc cl rj : loc)
    : hm Z Z string (string + Z) :=
  _ ← list_append nc 0%Z; mret (inr 1%Z).

(** A cost function that leaves the lists it is given as they are and
    sets [claims[99] = []] in the dictionary of the caller, which is at
    the location 6 of [paper_store]. *)
Definition claiming_cost (nc oc cl rj : loc)
    : hm Z Z string (string + Z) :=
  l ← alloc (OList []);
  _ ← modify (λ o, match o with
                   | ODict d => Some (ODict (dict_set d 99%Z l))
                   | _ => None
                   end) 6;
  mret (inr 1%Z).
End StoreTests.

(** * Properties *)

(** ** The error monad *)

Lemma bind_Ok {X A B} (m : res X A) (f : A → res X B) b :
  (a ← m; f a) = Ok b ↔ ∃ a, m = Ok a ∧ f a = Ok b.
Proof.
  destruct m as [a|e]; simpl.
  - split; [eauto | by intros (? & [= <-] & ?)].
  - split; [done | by intros (? & ? & ?)].
Qed.

Lemma bind_Raise {X A B} (m : res X A) (f : A → res X B) e :
  (a ← m; f a) = Raise e ↔ m = Raise e ∨ ∃ a, m = Ok a ∧ f a = Raise e.
Proof.
  destruct m as [a|e']; simpl; naive_solver.
Qed.

Lemma foldM_cons {X A B} (f : A → B → res X A) b l a :
  foldM f (b :: l) a = (a' ← f a b; foldM f l a').
Proof. done. Qed.

Lemma foldM_app {X A B} (f : A → B → res X A) l1 l2 a :
  foldM f (l1 ++ l2) a = (a' ← foldM f l1 a; foldM f l2 a').
Proof.
  revert a. induction l1 as [|b l1 IH]; intros a; simpl; [done|].
  destruct (f a b); simpl; [apply IH | done].
Qed.

(** A loop invariant that every successful iteration preserves holds at the
    end of a successful loop. *)
Lemma foldM_invariant {X A B} (I : list B → A → Prop)
    (f : A → B → res X A) l a a' :
  I [] a →
  (∀ done b s s', I done s → b ∈ l → f s b = Ok s' → I (done ++ [b]) s') →
  foldM f l a = Ok a' → I l a'.
Proof.
  intros H0 Hstep.
  cut (∀ rest done s, I done s → done ++ rest = l →
         foldM f rest s = Ok a' → I l a').
  { intros Hcut. by apply (Hcut l [] a). }
  induction rest as [|b rest IH]; intros pre s Hs Hl; simpl.
  - intros [= <-]. by rewrite app_nil_r in Hl; subst.
  - rewrite bind_Ok. intros (s' & Hf & Hrest).
    apply (IH (pre ++ [b]) s'); [| by rewrite <-app_assoc | done].
    eapply Hstep; [done | | done].
    subst l. apply elem_of_app. right. by left.
Qed.

Ltac inv_res :=
  repeat match goal with
  | H : (_ ← _; _) = Ok _ |- _ =>
      apply bind_Ok in H; destruct H as (? & ? & H)
  | H : mbind _ _ = Ok _ |- _ =>
      apply bind_Ok in H; destruct H as (? & ? & H)
  | H : Ok _ = Ok _ |- _ => injection H as H
  | H : Raise _ = Ok _ |- _ => discriminate H
  end.

(** ** Dictionaries *)

Section DictFacts.
Context {A B : Type} `{EqDecision A}.
Implicit Types (d : dict A B) (k : A) (v : B).

Lemma dict_get_set_eq d k v : dict_get (dict_set d k v) k = Some v.
Proof.
  induction d as [|[k' v'] d IH]; simpl.
  - by rewrite decide_True.
  - destruct (decide (k' = k)); simpl.
    + by rewrite decide_True.
    + by rewrite decide_False.
Qed.

Lemma dict_get_set_ne d k k' v :
  k ≠ k' → dict_get (dict_set d k v) k' = dict_get d k'.
Proof.
  intros Hne. induction d as [|[k0 v0] d IH]; simpl.
  - by rewrite decide_False.
  - destruct (decide (k0 = k)) as [->|]; simpl.
    + by rewrite !decide_False.
    + by rewrite IH.
Qed.

Lemma dict_get_set d k k' v :
  dict_get (dict_set d k v) k' =
    if decide (k = k') then Some v else dict_get d k'.
Proof.
  destruct (decide (k = k')) as [->|].
  - apply dict_get_set_eq.
  - by apply dict_get_set_ne.
Qed.

Lemma dict_get_Some_elem d k v : dict_get d k = Some v → (k, v) ∈ d.
Proof.
  induction d as [|[k' v'] d IH]; simpl; [done|].
  destruct (decide (k' = k)) as [->|].
  - intros [= ->]. by left.
  - intros. right. auto.
Qed.

Lemma dict_get_is_Some d k : is_Some (dict_get d k) ↔ k ∈ keys d.
Proof.
  unfold keys. induction d as [|[k' v'] d IH]; simpl.
  - split; [by intros [? ?] | by intros ?%elem_of_nil].
  - rewrite elem_of_cons. destruct (decide (k' = k)) as [->|].
    + split; [by left | eauto].
    + rewrite IH. naive_solver.
Qed.

Lemma dict_get_None d k : dict_get d k = None ↔ k ∉ keys d.
Proof. rewrite <-dict_get_is_Some, eq_None_not_Some. done. Qed.

Lemma dict_get_elem_NoDup d k v :
  NoDup (keys d) → (k, v) ∈ d → dict_get d k = Some v.
Proof.
  unfold keys. induction d as [|[k' v'] d IH]; simpl.
  - by intros _ ?%elem_of_nil.
  - rewrite NoDup_cons, elem_of_cons. intros [Hk Hd] [[= -> ->] | Hin].
    + by rewrite decide_True.
    + rewrite decide_False; [auto|].
      intros ->. apply Hk. apply list_elem_of_fmap. by exists (k, v).
Qed.

Lemma keys_dict_set d k v :
  is_Some (dict_get d k) → keys (dict_set d k v) = keys d.
Proof.
  unfold keys. induction d as [|[k' v'] d IH]; simpl.
  - by intros [? ?].
  - destruct (decide (k' = k)) as [->|]; simpl; [done|].
    intros ?. f_equal. auto.
Qed.

Lemma dict_lookup_Ok {X} d k v :
  dict_lookup (X:=X) d k = Ok v ↔ dict_get d k = Some v.
Proof.
  unfold dict_lookup. destruct (dict_get d k); naive_solver.
Qed.

Lemma dict_lookup_Raise {X} d k (e : exn X) :
  dict_lookup d k = Raise e ↔ dict_get d k = None ∧ e = KeyError.
Proof.
  unfold dict_lookup. destruct (dict_get d k); naive_solver.
Qed.

Lemma keys_fmap_const {C} (d : dict A B) (c : C) :
  keys ((λ kv, (kv.1, c)) <$> d) = keys d.
Proof.
  unfold keys. rewrite <-list_fmap_compose. by apply list_fmap_ext.
Qed.

Lemma dict_get_fmap_const {C} (d : dict A B) (c : C) k :
  dict_get ((λ kv, (kv.1, c)) <$> d) k = (λ _, c) <$> dict_get d k.
Proof.
  induction d as [|[k' v'] d IH]; simpl; [done|].
  by destruct (decide (k' = k)).
Qed.
End DictFacts.

Lemma list_index_Ok {X A} (l : list A) i a :
  list_index (X:=X) l i = Ok a ↔ l !! i = Some a.
Proof. unfold list_index. destruct (l !! i); naive_solver. Qed.

(** Appending to one list of a dictionary of lists adds one element to the
    multiset of all its elements. *)
Lemma concat_values_dict_set {A B} `{EqDecision A}
    (d : dict A (list B)) k l x :
  dict_get d k = Some l →
  concat (values (dict_set d k (l ++ [x]))) ≡ₚ x :: concat (values d).
Proof.
  unfold values. induction d as [|[k' v'] d IH]; simpl; [done|].
  destruct (decide (k' = k)) as [->|]; simpl.
  - intros [= ->]. rewrite <-app_assoc. simpl.
    by rewrite <-Permutation_middle.
  - intros Hget. rewrite (IH Hget). by rewrite Permutation_middle.
Qed.

(** ** The reverse index *)

Section ReverseIndex.
Context {K E : Type} `{EqDecision E}.
Implicit Types (cl : dict K (list E)) (d : dict E K).

Lemma reverse_index_inner_get d (k0 : K) (va : list E) e k :
  dict_get (fold_left (λ d v, dict_set d v k0) va d) e = Some k →
  dict_get d e = Some k ∨ (k = k0 ∧ e ∈ va).
Proof.
  revert d. induction va as [|v va IH]; intros d; simpl; [by left|].
  intros [Hd | [-> Hin]]%IH.
  - rewrite dict_get_set in Hd. destruct (decide (v = e)) as [->|].
    + injection Hd as <-. right. split; [done | by left].
    + by left.
  - right. split; [done | by right].
Qed.

Lemma reverse_index_inner_is_Some d (k0 : K) (va : list E) e :
  is_Some (dict_get d e) ∨ e ∈ va →
  is_Some (dict_get (fold_left (λ d v, dict_set d v k0) va d) e).
Proof.
  revert d. induction va as [|v va IH]; intros d; simpl.
  - intros [?|?%elem_of_nil]; done.
  - intros Hor. apply IH. rewrite dict_get_set.
    destruct (decide (v = e)) as [->|Hne]; [by left; eauto|].
    destruct Hor as [?|[?|?]%elem_of_cons]; [by left | congruence | by right].
Qed.

Lemma reverse_index_fold_get cl d e k :
  dict_get (fold_left (λ d kva, fold_left (λ d v, dict_set d v kva.1)
                                          kva.2 d) cl d) e = Some k →
  dict_get d e = Some k ∨ ∃ va, (k, va) ∈ cl ∧ e ∈ va.
Proof.
  revert d. induction cl as [|[k0 va0] cl IH]; intros d; simpl; [by left|].
  intros [Hd | (va & Hin & He)]%IH.
  - apply reverse_index_inner_get in Hd as [?|[-> ?]]; [by left|].
    right. exists va0. split; [by left | done].
  - right. exists va. split; [by right | done].
Qed.

Lemma reverse_index_fold_is_Some cl d e :
  is_Some (dict_get d e) ∨ (∃ k va, (k, va) ∈ cl ∧ e ∈ va) →
  is_Some (dict_get (fold_left (λ d kva, fold_left (λ d v, dict_set d v kva.1)
                                                   kva.2 d) cl d) e).
Proof.
  revert d. induction cl as [|[k0 va0] cl IH]; intros d; simpl.
  - intros [?|(? & ? & ?%elem_of_nil & _)]; done.
  - intros Hor. apply IH.
    destruct Hor as [?|(k & va & [[= -> ->]|?]%elem_of_cons & ?)].
    + left. apply reverse_index_inner_is_Some. by left.
    + left. apply reverse_index_inner_is_Some. by right.
    + right. eauto.
Qed.

(** An entry of the reverse index names a cluster that holds the entity. *)
Lemma reverse_index_sound cl e k :
  dict_get (reverse_index cl) e = Some k → ∃ va, (k, va) ∈ cl ∧ e ∈ va.
Proof.
  intros [Hd|?]%reverse_index_fold_get; [done | done].
Qed.

(** Every entity of a cluster has an entry. *)
Lemma reverse_index_complete cl e k va :
  (k, va) ∈ cl → e ∈ va → is_Some (dict_get (reverse_index cl) e).
Proof.
  intros. apply reverse_index_fold_is_Some. right. eauto.
Qed.

Lemma reverse_index_None cl e :
  (∀ k va, (k, va) ∈ cl → e ∉ va) → dict_get (reverse_index cl) e = None.
Proof.
  intros Hno. apply eq_None_not_Some. intros [k Hk].
  apply reverse_index_sound in Hk as (va & ? & ?). naive_solver.
Qed.

(** In a disjoint partition with distinct keys the entry is the cluster of
    the entity. *)
Lemma reverse_index_disjoint cl e k va :
  disjoint_clusters cl → (k, va) ∈ cl → e ∈ va →
  dict_get (reverse_index cl) e = Some k.
Proof.
  intros Hdis Hin He.
  destruct (reverse_index_complete cl e k va Hin He) as [k' Hk'].
  rewrite Hk'. f_equal.
  apply reverse_index_sound in Hk' as (va' & Hin' & He').
  apply list_elem_of_lookup in Hin as [i Hi].
  apply list_elem_of_lookup in Hin' as [j Hj].
  assert (i = j) as -> by (eapply (Hdis i j); eauto).
  congruence.
Qed.
End ReverseIndex.

(** ** What a traversal does to one side *)

Section SideRel.
Context {K : Type} `{EqDecision K}.
Implicit Types (P : K → Prop) (l : list K) (v : dict K bool).

Lemma side_rel_refl P l v : side_rel P l v l v.
Proof.
  exists []. rewrite app_nil_r. split_and!; try done; constructor.
Qed.

Lemma side_rel_mark P l v c :
  dict_get v c = Some false → P c →
  side_rel P l v (l ++ [c]) (dict_set v c true).
Proof.
  intros Hc HP. exists [c]. split_and!.
  - done.
  - apply NoDup_singleton.
  - by constructor.
  - by apply keys_dict_set.
  - by constructor.
  - intros k. rewrite dict_get_set.
    destruct (decide (c = k)) as [->|].
    + by rewrite decide_True by (by left).
    + by rewrite decide_False by (by intros ->%list_elem_of_singleton).
Qed.

Lemma side_rel_trans P l1 v1 l2 v2 l3 v3 :
  side_rel P l1 v1 l2 v2 → side_rel P l2 v2 l3 v3 →
  side_rel P l1 v1 l3 v3.
Proof.
  intros (a1 & -> & Hnd1 & HP1 & Hk1 & Hf1 & Hg1)
         (a2 & -> & Hnd2 & HP2 & Hk2 & Hf2 & Hg2).
  assert (Hdisj : ∀ k, k ∈ a1 → k ∉ a2).
  { intros k Hin1 Hin2.
    rewrite Forall_forall in Hf2. specialize (Hf2 k Hin2).
    rewrite Hg1, decide_True in Hf2 by done. done. }
  exists (a1 ++ a2). split_and!.
  - by rewrite app_assoc.
  - apply NoDup_app. done.
  - by apply Forall_app.
  - congruence.
  - apply Forall_app. split; [done|].
    rewrite Forall_forall in Hf2 |- *. intros k Hin2.
    specialize (Hf2 k Hin2). rewrite Hg1 in Hf2.
    by destruct (decide (k ∈ a1)).
  - intros k. rewrite Hg2, Hg1.
    destruct (decide (k ∈ a2)), (decide (k ∈ a1));
      [rewrite decide_True | rewrite decide_True | rewrite decide_True
      | rewrite decide_False]; try done; rewrite elem_of_app; naive_solver.
Qed.

Lemma side_rel_mono (P Q : K → Prop) l v l' v' :
  (∀ k, P k → Q k) → side_rel P l v l' v' → side_rel Q l v l' v'.
Proof.
  intros HPQ (a & ? & ? & HP & ?). exists a. split_and!; try tauto.
  eapply Forall_impl; eauto.
Qed.

Lemma side_rel_visited P l v l' v' k :
  side_rel P l v l' v' → dict_get v k = Some true →
  dict_get v' k = Some true.
Proof.
  intros (a & ? & ? & ? & ? & ? & Hg) Hk. rewrite Hg, Hk.
  by destruct (decide (k ∈ a)).
Qed.
End SideRel.

(** ** The traversal *)

Section Traversal.
Context {K E X : Type} `{EqDecision K} `{EqDecision E}.

(** A traversal appends to each side clusters that were not visited, each
    of them once, and marks them; every cluster it appends to a side,
    apart from the one it starts from, is the reverse-index entry of an
    entity of a cluster of the opposite side. *)
Lemma graph_traversal_spec (P : K → Prop) fuel :
  ∀ ct co (rt ro : dict E K) (tc oc : dict K (list E)) tv ov c
    ct' co' tv' ov',
    graph_traversal (X:=X) fuel ct co rt ro tc oc tv ov c
      = Ok (ct', co', tv', ov') →
    dict_get tv c = Some false → P c →
    (∀ k, reached rt oc k → P k) →
    side_rel P ct tv ct' tv' ∧ side_rel (reached ro tc) co ov co' ov'.
Proof.
  revert P. induction fuel as [|fuel IH];
    intros P ct co rt ro tc oc tv ov c ct' co' tv' ov' Hrun Hc HPc HP;
    simpl in Hrun; [done|].
  apply bind_Ok in Hrun as (sigs & Hsigs%dict_lookup_Ok & Hloop).
  apply dict_get_Some_elem in Hsigs.
  refine (foldM_invariant
    (λ _ (s : @sides K),
       let '(a, b, va, vb) := s in
       side_rel P ct tv a va ∧ side_rel (reached ro tc) co ov b vb)
    _ sigs _ (ct', co', tv', ov') _ _ Hloop).
  - split; [by apply side_rel_mark | apply side_rel_refl].
  - intros _ sig [[[a b] va] vb] [[[a' b'] va'] vb'] [Ha Hb] Hsig Hstep.
    apply bind_Ok in Hstep as (other & Hother%dict_lookup_Ok & Hstep).
    apply bind_Ok in Hstep as (seen & Hseen%dict_lookup_Ok & Hstep).
    destruct seen; [by injection Hstep as <- <- <- <-|].
    apply bind_Ok in Hstep as ([[[b1 a1] vb1] va1] & Hrec & [= <- <- <- <-]).
    apply (IH (reached ro tc)) in Hrec as [Hb1 Ha1]; [| done | | done].
    + split; [| by eapply side_rel_trans].
      eapply side_rel_trans; [done|]. by eapply side_rel_mono.
    + by exists c, sigs, sig.
Qed.
End Traversal.

(** ** The override resolver *)

Section Resolver.
Context {K E X : Type} `{EqDecision K} `{EqDecision E}.
Variable old_clusters new_clusters : dict K (list E).
Variable claims rejected : dict K (list E).

Abbreviation routed := (routed old_clusters claims rejected).
Abbreviation resolution_ok :=
  (resolution_ok old_clusters new_clusters claims rejected).
Abbreviation resolve_sig :=
  (resolve_sig (X:=X) old_clusters claims rejected).
Abbreviation resolve_pair :=
  (resolve_pair (X:=X) old_clusters new_clusters claims rejected).

Implicit Types (a : dict K (list E)) (ds : list (E * option K)).

Lemma placed_app g ds1 ds2 :
  placed g (ds1 ++ ds2) = placed g ds1 ++ placed g ds2.
Proof. unfold placed. by rewrite filter_app, fmap_app. Qed.

Lemma unplaced_app ds1 ds2 :
  unplaced (K:=K) (ds1 ++ ds2) = unplaced ds1 ++ unplaced ds2.
Proof. unfold unplaced. by rewrite filter_app, fmap_app. Qed.

Lemma elem_of_placed g ds e : e ∈ placed g ds ↔ (e, Some g) ∈ ds.
Proof.
  unfold placed. rewrite list_elem_of_fmap. split.
  - intros ([e' d] & -> & [Hd ?]%list_elem_of_filter). simpl in *. by subst.
  - intros ?. exists (e, Some g). split; [done|].
    by apply list_elem_of_filter.
Qed.

Lemma elem_of_unplaced ds e : e ∈ unplaced (K:=K) ds ↔ (e, None) ∈ ds.
Proof.
  unfold unplaced. rewrite list_elem_of_fmap. split.
  - intros ([e' d] & -> & [Hd ?]%list_elem_of_filter). simpl in *. by subst.
  - intros ?. exists (e, None). split; [done|].
    by apply list_elem_of_filter.
Qed.

Lemma extends_nil a : extends a [] a.
Proof. split; [done|]. intros g l ->. by rewrite app_nil_r. Qed.

Lemma extends_trans a1 a2 a3 ds1 ds2 :
  extends a1 ds1 a2 → extends a2 ds2 a3 → extends a1 (ds1 ++ ds2) a3.
Proof.
  intros [Hk1 Hg1] [Hk2 Hg2]. split; [congruence|].
  intros g l Hl. rewrite placed_app, app_assoc. auto.
Qed.

Lemma extends_append a g l sig :
  dict_get a g = Some l →
  extends a [(sig, Some g)] (dict_set a g (l ++ [sig])).
Proof.
  intros Hl. split; [by apply keys_dict_set|].
  intros g' l' Hl'. rewrite dict_get_set. unfold placed.
  rewrite filter_cons. simpl.
  destruct (decide (g = g')) as [->|Hne].
  - rewrite decide_True by done. simpl. congruence.
  - rewrite decide_False by congruence. simpl. by rewrite app_nil_r.
Qed.

Lemma extends_lookup a ds a' g l :
  extends a ds a' → dict_get a g = Some l →
  dict_get a' g = Some (l ++ placed g ds).
Proof. intros [_ Hg]. apply Hg. Qed.

(** One entity: it is routed by the resolution rule and lands where the
    rule says. *)
Lemma resolve_sig_spec current_old old a t sig a' t' :
  resolve_sig current_old old (a, t) sig = Ok (a', t') →
  ∃ d, routed current_old old sig d ∧
       extends a [(sig, d)] a' ∧
       t' = t ++ unplaced [(sig, d)] ∧
       concat (values a') ++ t' ≡ₚ sig :: concat (values a) ++ t.
Proof.
  unfold resolve_sig, dict_append.
  destruct (decide (sig ∈ claims_set claims)) as [Hcl|Hcl].
  { intros Hrun.
    apply bind_Ok in Hrun as (o & Ho%dict_lookup_Ok & Hrun).
    apply bind_Ok in Hrun as (a1 & Ha1 & [= <- <-]).
    apply bind_Ok in Ha1 as (l & Hl%dict_lookup_Ok & [= <-]).
    exists (Some o). split_and!.
    - by apply routed_claimed.
    - by apply extends_append.
    - by rewrite app_nil_r.
    - by rewrite (concat_values_dict_set _ _ _ _ Hl). }
  destruct (decide (old < length old_clusters)) as [Hlt|Hlt]; last first.
  { intros [= <- <-]. exists None. split_and!.
    - by apply routed_leftover.
    - apply extends_nil.
    - done.
    - rewrite app_assoc. symmetry. apply Permutation_cons_append. }
  intros Hrun.
  apply bind_Ok in Hrun as (g & Hg%list_index_Ok & Hrun).
  destruct (decide (sig ∈ dict_get_default rejected g [])) as [Hrj|Hrj].
  - apply bind_Ok in Hrun as (o & Ho%dict_lookup_Ok & Hrun).
    apply bind_Ok in Hrun as (a1 & Ha1 & [= <- <-]).
    apply bind_Ok in Ha1 as (l & Hl%dict_lookup_Ok & [= <-]).
    exists (Some o). split_and!.
    + by eapply routed_rejected.
    + by apply extends_append.
    + by rewrite app_nil_r.
    + by rewrite (concat_values_dict_set _ _ _ _ Hl).
  - apply bind_Ok in Hrun as (a1 & Ha1 & [= <- <-]).
    apply bind_Ok in Ha1 as (l & Hl%dict_lookup_Ok & [= <-]).
    exists (Some g). split_and!.
    + by eapply routed_matched.
    + by apply extends_append.
    + by rewrite app_nil_r.
    + by rewrite (concat_values_dict_set _ _ _ _ Hl).
Qed.

(** The entities of one new cluster. *)
Lemma resolve_sigs_spec current_old old sigs :
  ∀ a t a' t',
    foldM (resolve_sig current_old old) sigs (a, t) = Ok (a', t') →
    ∃ ds, ds.*1 = sigs ∧
          Forall (λ p, routed current_old old p.1 p.2) ds ∧
          extends a ds a' ∧
          t' = t ++ unplaced ds ∧
          concat (values a') ++ t' ≡ₚ (concat (values a) ++ t) ++ sigs.
Proof.
  induction sigs as [|sig sigs IH]; intros a t a' t'; simpl.
  - intros [= <- <-]. exists []. split_and!; try done.
    + apply extends_nil.
    + by rewrite app_nil_r.
    + by rewrite app_nil_r.
  - intros Hrun. apply bind_Ok in Hrun as ([a1 t1] & Hsig & Hrest).
    apply resolve_sig_spec in Hsig as (d & Hd & Hext & -> & Hperm).
    apply IH in Hrest as (ds & <- & Hds & Hext' & -> & Hperm').
    exists ((sig, d) :: ds). split_and!.
    + done.
    + by constructor.
    + by apply (extends_trans a a1 a' [(sig, d)] ds).
    + by rewrite <-app_assoc, <-unplaced_app.
    + rewrite Hperm', Hperm. simpl.
      by rewrite <-!Permutation_middle.
Qed.

Abbreviation resolves :=
  (resolves old_clusters new_clusters claims rejected).

Lemma leftovers_app (tr1 tr2 : list (@resolution K E)) :
  leftovers (tr1 ++ tr2) = leftovers tr1 ++ leftovers tr2.
Proof. unfold leftovers. apply bind_app. Qed.

Lemma all_routes_app (tr1 tr2 : list (@resolution K E)) :
  all_routes (tr1 ++ tr2) = all_routes tr1 ++ all_routes tr2.
Proof. unfold all_routes. apply bind_app. Qed.

Lemma concat_leftovers_single (r : @resolution K E) :
  concat (leftovers [r]) = unplaced (res_routes r).
Proof.
  unfold leftovers. simpl. rewrite app_nil_r.
  destruct (unplaced (res_routes r)); simpl; [done|].
  by rewrite app_nil_r.
Qed.

(** One pair of the assignment. *)
Lemma resolve_pair_spec current_new current_old a u p a' u' :
  resolve_pair current_new current_old (a, u) p = Ok (a', u') →
  ∃ r, resolves current_new current_old p r ∧
       extends a (res_routes r) a' ∧
       u' = u ++ leftovers [r] ∧
       concat (values a') ++ concat u'
         ≡ₚ (concat (values a) ++ concat u) ++ (res_routes r).*1.
Proof.
  destruct p as [new old]. unfold resolve_pair.
  intros Hrun.
  apply bind_Ok in Hrun as (k & Hk%list_index_Ok & Hrun).
  apply bind_Ok in Hrun as (sigs & Hsigs%dict_lookup_Ok & Hrun).
  apply bind_Ok in Hrun as ([a1 t1] & Hloop & Hrun).
  apply resolve_sigs_spec in Hloop as (ds & <- & Hds & Hext & -> & Hperm).
  simpl in Hperm. rewrite app_nil_r in Hperm.
  exists (Resolution k current_old old ds).
  assert (a' = a1 ∧ u' = u ++ leftovers [Resolution k current_old old ds])
    as [-> ->].
  { unfold leftovers. simpl.
    destruct (unplaced ds); injection Hrun as <- <-;
      by rewrite ?app_nil_r. }
  split_and!; try done.
  rewrite concat_app, concat_leftovers_single. simpl.
  rewrite (Permutation_app_comm (concat u)), app_assoc, Hperm.
  by rewrite <-!app_assoc, (Permutation_app_comm (concat u)).
Qed.

(** The pairs of an assignment, in order. *)
Lemma resolve_pairs_spec current_new current_old asg :
  ∀ a u a' u',
    foldM (resolve_pair current_new current_old) asg (a, u) = Ok (a', u') →
    ∃ tr, Forall2 (resolves current_new current_old) asg tr ∧
          extends a (all_routes tr) a' ∧
          u' = u ++ leftovers tr ∧
          concat (values a') ++ concat u'
            ≡ₚ (concat (values a) ++ concat u) ++ (all_routes tr).*1.
Proof.
  induction asg as [|p asg IH]; intros a u a' u'; simpl.
  - intros [= <- <-]. exists []. split_and!.
    + constructor.
    + apply extends_nil.
    + by rewrite app_nil_r.
    + by rewrite app_nil_r.
  - intros Hrun. apply bind_Ok in Hrun as ([a1 u1] & Hp & Hrest).
    apply resolve_pair_spec in Hp as (r & Hr & Hext & -> & Hperm).
    apply IH in Hrest as (tr & Htr & Hext' & -> & Hperm').
    exists (r :: tr). split_and!.
    + by constructor.
    + change (r :: tr) with ([r] ++ tr). rewrite all_routes_app.
      eapply extends_trans; [|done].
      unfold all_routes. simpl. by rewrite app_nil_r.
    + change (r :: tr) with ([r] ++ tr).
      by rewrite leftovers_app, app_assoc.
    + rewrite Hperm', Hperm.
      change (r :: tr) with ([r] ++ tr). rewrite all_routes_app, fmap_app.
      unfold all_routes at 2. simpl. by rewrite app_nil_r, <-!app_assoc.
Qed.

End Resolver.

(** ** The cost matrix *)

Lemma first_raise_app {X A} (l1 l2 : list (res X A)) :
  first_raise (l1 ++ l2) =
    match first_raise l1 with
    | Some e => Some e
    | None => first_raise l2
    end.
Proof. induction l1 as [|[a|e] l1 IH]; simpl; auto. Qed.


Lemma first_raise_Some {X A} (l : list (res X A)) e :
  first_raise l = Some e →
  ∃ pre rest, l = pre ++ Raise e :: rest ∧ Forall is_Ok pre.
Proof.
  induction l as [|[a|e'] l IH]; simpl; [done| |].
  - intros (pre & rest & -> & Hpre)%IH.
    exists (Ok a :: pre), rest. split; [done|].
    constructor; [by exists a | done].
  - intros [= ->]. exists [], l. split; [done | constructor].
Qed.

Lemma matrix_set_dims {X} m w M i j c :
  dims m w M → i < m → j < w →
  ∃ M', matrix_set (X:=X) M i j c = Ok M' ∧ dims m w M'.
Proof.
  intros [Hm Hw] Hi Hj. unfold matrix_set.
  destruct (M !! i) as [row|] eqn:Hrow; last first.
  { apply lookup_ge_None in Hrow. lia. }
  assert (length row = w) as Hlen.
  { rewrite Forall_forall in Hw. apply Hw.
    by eapply list_elem_of_lookup_2. }
  rewrite decide_True by lia. eexists. split; [done|].
  split; [by rewrite length_insert|].
  apply Forall_insert; [done|]. by rewrite length_insert.
Qed.

(** A loop that evaluates a cost and stores it into the matrix returns the
    matrix unless an evaluation raises, and then it raises the same. *)
Lemma foldM_store {X B} (f : matrix → B → res X matrix)
    (call : B → res X Z) (pos : B → nat * nat) m w l :
  (∀ M b, f M b = (c ← call b; matrix_set M (pos b).1 (pos b).2 c)) →
  Forall (λ b, (pos b).1 < m ∧ (pos b).2 < w) l →
  ∀ M, dims m w M →
    match first_raise (call <$> l) with
    | Some e => foldM f l M = Raise e
    | None => ∃ M', foldM f l M = Ok M' ∧ dims m w M'
    end.
Proof.
  intros Hf. induction 1 as [|b l [Hi Hj] _ IH]; intros M HM; simpl.
  - eauto.
  - rewrite Hf. destruct (call b) as [c|e]; simpl; [|done].
    destruct (matrix_set_dims (X:=X) m w M _ _ c HM Hi Hj) as (M' & -> & HM').
    simpl. by apply IH.
Qed.

Section CostMatrix.
Context {K E X : Type} `{EqDecision K} `{EqDecision E}.
Variable old_clusters new_clusters : dict K (list E).
Variable similarity_function : list E → list E → list E → list E → X + Z.
Variable claims rejected : dict K (list E).

Abbreviation cost_row :=
  (cost_row old_clusters new_clusters similarity_function claims rejected).
Abbreviation build_cost_matrix :=
  (build_cost_matrix old_clusters new_clusters similarity_function
     claims rejected).
Abbreviation row_calls :=
  (row_calls old_clusters new_clusters similarity_function claims rejected).
Abbreviation cost_calls :=
  (cost_calls old_clusters new_clusters similarity_function claims rejected).

Lemma zip_seq_positions {A} (l : list A) s (Q : nat * A → Prop) :
  (∀ j a, s ≤ j < s + length l → Q (j, a)) →
  Forall Q (zip (seq s (length l)) l).
Proof.
  revert s. induction l as [|a l IH]; intros s HQ; simpl; constructor.
  - apply HQ. simpl. lia.
  - apply IH. intros j b ?. apply HQ. simpl. lia.
Qed.

Lemma fmap_zip_seq {A C} (g : A → C) (l : list A) s :
  (λ ja : nat * A, g ja.2) <$> zip (seq s (length l)) l = g <$> l.
Proof.
  revert s. induction l as [|a l IH]; intros s; simpl; [done|].
  f_equal. apply IH.
Qed.

(** One row: the evaluations of the row decide the outcome. *)
Lemma cost_row_spec current_new current_old m M i new :
  dims m (length current_old + length current_new) M → i < m →
  match first_raise (row_calls current_new current_old new) with
  | Some e => cost_row current_new current_old M (i, new) = Raise e
  | None => ∃ M', cost_row current_new current_old M (i, new) = Ok M' ∧
                  dims m (length current_old + length current_new) M'
  end.
Proof.
  intros HM Hi. unfold row_calls, cost_row.
  rewrite first_raise_app.
  set (w := length current_old + length current_new) in *.
  match goal with
  | |- context [foldM ?f (enumerate current_old) M] =>
      pose proof (foldM_store (X:=X) f (λ jo, old_cost old_clusters new_clusters
                     similarity_function claims rejected new jo.2)
                   (λ jo, (i, jo.1)) m w (enumerate current_old)) as Hold
  end.
  unfold enumerate in *. rewrite fmap_zip_seq in Hold.
  specialize (Hold ltac:(intros M0 [j old]; unfold old_cost; simpl;
    destruct (dict_lookup new_clusters new); simpl; [|done];
    destruct (dict_lookup old_clusters old); simpl; done)).
  specialize (Hold ltac:(apply zip_seq_positions; simpl; lia) M HM).
  destruct (first_raise (_ <$> current_old)) as [e|].
  { by rewrite Hold. }
  destruct Hold as (M1 & -> & HM1). simpl.
  match goal with
  | |- context [foldM ?f (seq 0 (length current_new)) M1] =>
      pose proof (foldM_store (X:=X) f (λ _, dummy_cost new_clusters
                     similarity_function new)
                   (λ j, (i, j + length current_old)) m w
                   (seq 0 (length current_new))) as Hdummy
  end.
  specialize (Hdummy ltac:(intros M0 j; unfold dummy_cost; simpl;
    destruct (dict_lookup new_clusters new); simpl; done)).
  apply Hdummy; [|done].
  apply Forall_forall. intros j [_ ?]%elem_of_seq. simpl. lia.
Qed.

(** The matrix: the evaluations of the component decide the outcome, and
    the matrix has one row per new cluster and one column per old cluster
    and per new cluster. *)
Lemma cost_rows_spec current_new current_old m l :
  ∀ s M,
    dims m (length current_old + length current_new) M →
    s + length l ≤ m →
    match first_raise (l ≫= row_calls current_new current_old) with
    | Some e =>
        foldM (cost_row current_new current_old)
              (zip (seq s (length l)) l) M = Raise e
    | None =>
        ∃ M', foldM (cost_row current_new current_old)
                    (zip (seq s (length l)) l) M = Ok M' ∧
              dims m (length current_old + length current_new) M'
    end.
Proof.
  induction l as [|new l IH]; intros s M HM Hs; [simpl; eauto|].
  rewrite bind_cons, first_raise_app.
  change (zip (seq s (length (new :: l))) (new :: l))
    with ((s, new) :: zip (seq (S s) (length l)) l).
  rewrite foldM_cons. simpl in Hs.
  pose proof (cost_row_spec current_new current_old m M s new HM
                ltac:(lia)) as Hrow.
  destruct (first_raise (row_calls _ _ new)) as [e|].
  { by rewrite Hrow. }
  destruct Hrow as (M1 & -> & HM1). simpl. apply IH; [done | lia].
Qed.

Lemma build_cost_matrix_spec current_new current_old :
  match first_raise (cost_calls current_new current_old) with
  | Some e => build_cost_matrix current_new current_old = Raise e
  | None =>
      ∃ M, build_cost_matrix current_new current_old = Ok M ∧
           dims (length current_new)
                (length current_old + length current_new) M
  end.
Proof.
  unfold build_cost_matrix, enumerate.
  apply cost_rows_spec; [|lia].
  split; [by rewrite length_fmap|].
  apply Forall_fmap, Forall_forall. intros new _. simpl.
  by rewrite length_fmap, length_app.
Qed.

End CostMatrix.

(** ** Lists of indices *)

Lemma omap_lookup_seq {A} (l : list A) :
  omap (λ i, l !! i) (seq 0 (length l)) = l.
Proof.
  induction l as [|x l IH] using rev_ind; [done|].
  rewrite length_app. simpl. rewrite Nat.add_1_r, seq_S, omap_app. simpl.
  rewrite lookup_app_r, Nat.sub_diag by lia. simpl.
  f_equal. etrans; [|apply IH].
  apply list_omap_ext, Forall_Forall2_diag, Forall_forall.
  intros i [_ ?]%elem_of_seq. by rewrite lookup_app_l by lia.
Qed.

(** Indices that cover [0 .. length l - 1] once each select a permutation
    of [l]. *)
Lemma lookup_all_Permutation {A B} (l : list A) (idx : list nat)
    (rs : list B) (g : B → A) :
  Forall2 (λ i r, l !! i = Some (g r)) idx rs →
  idx ≡ₚ seq 0 (length l) →
  g <$> rs ≡ₚ l.
Proof.
  intros Hall Hperm.
  assert (g <$> rs = omap (λ i, l !! i) idx) as ->.
  { clear Hperm. induction Hall as [|i r idx rs Hi _ IH]; [done|].
    rewrite fmap_cons. simpl. by rewrite Hi, IH. }
  by rewrite Hperm, omap_lookup_seq.
Qed.

(** ** Components *)

Section Components.
Context {K E X : Type} `{EqDecision K} `{EqDecision E}.
Variable recursion_limit : nat.
Variable munkres_compute : matrix → list (nat * nat).
Variable old_clusters new_clusters : dict K (list E).
Variable similarity_function : list E → list E → list E → list E → X + Z.
Variable claims rejected : dict K (list E).

Abbreviation reversed_old := (reversed_old old_clusters).
Abbreviation reversed_new := (reversed_new new_clusters).
Abbreviation discover := (discover (X:=X) old_clusters new_clusters).
Abbreviation build_cost_matrix :=
  (build_cost_matrix old_clusters new_clusters similarity_function
     claims rejected).
Abbreviation solve_component :=
  (solve_component munkres_compute old_clusters new_clusters
     similarity_function claims rejected).
Abbreviation resolves :=
  (resolves old_clusters new_clusters claims rejected).

Abbreviation new_side := (new_side old_clusters new_clusters).

(** The decomposer: either the cluster was visited and the component is
    empty, or the component starts with the cluster and both sides are
    extended by a traversal. *)
Lemma discover_spec fuel k n ov nv cn co nv' ov' :
  (k, n) ∈ new_clusters →
  discover fuel k n ov nv = Ok (cn, co, nv', ov') →
  (dict_get nv k = Some true ∧ cn = [] ∧ co = [] ∧ nv' = nv ∧ ov' = ov) ∨
  (dict_get nv k = Some false ∧ (∃ rest, cn = k :: rest) ∧
   side_rel (new_side k) [] nv cn nv' ∧
   side_rel (reached reversed_old new_clusters) [] ov co ov').
Proof.
  intros Hkn. unfold discover. intros Hrun.
  apply bind_Ok in Hrun as (seen & Hseen%dict_lookup_Ok & Hrun).
  destruct seen.
  { injection Hrun as <- <- <- <-. by left. }
  right. split; [done|].
  cut (side_rel (new_side k) [k] (dict_set nv k true) cn nv' ∧
       side_rel (reached reversed_old new_clusters) [] ov co ov').
  { intros [Hn Ho]. split_and!; [| |done].
    - destruct Hn as (added & -> & _). by exists added.
    - eapply side_rel_trans; [|done].
      apply (side_rel_mark _ [] nv k); [done | by left]. }
  refine (foldM_invariant
    (λ _ (s : @sides K),
       let '(a, b, va, vb) := s in
       side_rel (new_side k) [k] (dict_set nv k true) a va ∧
       side_rel (reached reversed_old new_clusters) [] ov b vb)
    _ n _ (cn, co, nv', ov') _ _ Hrun).
  - split; apply side_rel_refl.
  - intros _ sig [[[a b] va] vb] [[[a' b'] va'] vb'] [Ha Hb] Hsig Hstep.
    apply bind_Ok in Hstep as (old & Hold%dict_lookup_Ok & Hstep).
    apply bind_Ok in Hstep as (seen & Hseen'%dict_lookup_Ok & Hstep).
    destruct seen; [by injection Hstep as <- <- <- <-|].
    apply bind_Ok in Hstep as ([[[b1 a1] vb1] va1] & Hrec & [= <- <- <- <-]).
    apply (graph_traversal_spec (reached reversed_old new_clusters)) in Hrec
      as [Hb1 Ha1]; [| done | | done].
    + split; [| by eapply side_rel_trans].
      eapply side_rel_trans; [done|].
      eapply side_rel_mono; [|done]. by right.
    + by exists k, n, sig.
Qed.


Lemma side_rel_length (P : K → Prop) v l v' :
  side_rel P [] v l v' → length l ≤ length v.
Proof.
  intros (added & -> & Hnd & _ & _ & Hf & _). simpl.
  rewrite <-(length_fmap fst v).
  apply submseteq_length, NoDup_submseteq; [done|].
  intros k Hk. rewrite Forall_forall in Hf.
  apply (dict_get_is_Some v k). rewrite (Hf k Hk). eauto.
Qed.

(** The solver and the resolver on one component: every new cluster of the
    component is resolved once. *)
Lemma solve_component_spec cn co a u a' u' :
  solver_ok munkres_compute →
  solve_component cn co (a, u) = Ok (a', u') →
  ∃ asg tr,
    Forall2 (resolves cn co) asg tr ∧
    res_new <$> tr ≡ₚ cn ∧
    (cn ≠ [] → ∃ M, build_cost_matrix cn co = Ok M ∧
                    asg = munkres_compute M) ∧
    extends a (all_routes tr) a' ∧
    u' = u ++ leftovers tr ∧
    concat (values a') ++ concat u'
      ≡ₚ (concat (values a) ++ concat u) ++ (all_routes tr).*1.
Proof.
  intros Hsolver. unfold solve_component.
  destruct cn as [|k0 cn0] eqn:Hcn.
  { intros [= <- <-]. exists [], []. split_and!; try done.
    - apply extends_nil.
    - by rewrite app_nil_r.
    - by rewrite app_nil_r. }
  rewrite <-Hcn. intros Hrun.
  apply bind_Ok in Hrun as (M & HM & Hrun).
  pose proof (build_cost_matrix_spec old_clusters new_clusters
                similarity_function claims rejected cn co) as Hspec.
  destruct (first_raise _) as [e|]; [congruence|].
  destruct Hspec as (M' & HM' & [Hrows Hcols]).
  assert (M' = M) as -> by congruence.
  destruct (Hsolver M (length co + length cn)) as (Hfst & _ & _);
    [| done | lia |].
  { intros ->. subst cn. done. }
  apply resolve_pairs_spec in Hrun as (tr & Htr & Hext & Hu & Hperm).
  exists (munkres_compute M), tr. split_and!; try done.
  - apply (lookup_all_Permutation cn (munkres_compute M).*1).
    + apply Forall2_fmap_l. eapply Forall2_impl; [done|].
      by intros p r (? & _).
    + by rewrite Hfst, Hrows.
  - eauto.
Qed.

End Components.

(** ** The main loop *)

Lemma side_rel_app {K} `{EqDecision K} (P : K → Prop) v1 l1 v2 l2 v3 :
  side_rel P [] v1 l1 v2 → side_rel P [] v2 l2 v3 →
  side_rel P [] v1 (l1 ++ l2) v3.
Proof.
  intros H1 (added & -> & H2). eapply side_rel_trans; [done|].
  exists added. by split.
Qed.

Lemma concat_values_lookup {A B} `{EqDecision A} (d : dict A (list B)) :
  NoDup (keys d) →
  keys d ≫= (λ k, dict_get_default d k []) = concat (values d).
Proof.
  unfold keys, values, dict_get_default.
  induction d as [|[k v] d IH]; [done|].
  rewrite !fmap_cons, NoDup_cons. simpl. intros [Hk Hd].
  rewrite decide_True by done. simpl. f_equal.
  rewrite <-IH by done. apply Forall_bind_ext, Forall_forall.
  intros k' Hk'. rewrite decide_False; [done|]. by intros ->.
Qed.

Section Run.
Context {K E X : Type} `{EqDecision K} `{EqDecision E}.
Variable recursion_limit : nat.
Variable munkres_compute : matrix → list (nat * nat).
Variable old_clusters new_clusters : dict K (list E).
Variable similarity_function : list E → list E → list E → list E → X + Z.
Variable claims rejected : dict K (list E).
Hypothesis solver : solver_ok munkres_compute.

Abbreviation reversed_old := (reversed_old old_clusters).
Abbreviation reversed_new := (reversed_new new_clusters).
Abbreviation resolution_ok :=
  (resolution_ok old_clusters new_clusters claims rejected).
Abbreviation main_loop :=
  (main_loop munkres_compute old_clusters new_clusters similarity_function
     claims rejected).
Abbreviation component_step :=
  (component_step munkres_compute old_clusters new_clusters
     similarity_function claims rejected).

Abbreviation loop_new_side := (loop_new_side old_clusters new_clusters).

(** One iteration. *)
Lemma component_step_spec fuel a u ov nv k n a' u' ov' nv' :
  (k, n) ∈ new_clusters →
  keys ov = keys old_clusters →
  component_step fuel (a, u, ov, nv) (k, n) = Ok (a', u', ov', nv') →
  ∃ cn co asg tr,
    discover (X:=X) old_clusters new_clusters fuel k n ov nv
      = Ok (cn, co, nv', ov') ∧
    solve_component munkres_compute old_clusters new_clusters
      similarity_function claims rejected cn co (a, u) = Ok (a', u') ∧
    side_rel (new_side old_clusters new_clusters k) [] nv cn nv' ∧
    side_rel (reached reversed_old new_clusters) [] ov co ov' ∧
    dict_get nv' k = Some true ∧
    Forall2 (resolves old_clusters new_clusters claims rejected cn co)
            asg tr ∧
    (cn ≠ [] → ∃ M, build_cost_matrix old_clusters new_clusters
                      similarity_function claims rejected cn co = Ok M ∧
                    asg = munkres_compute M) ∧
    res_new <$> tr ≡ₚ cn ∧
    Forall resolution_ok tr ∧
    extends a (all_routes tr) a' ∧
    u' = u ++ leftovers tr ∧
    concat (values a') ++ concat u'
      ≡ₚ (concat (values a) ++ concat u) ++ (all_routes tr).*1.
Proof using solver.
  intros Hkn Hkeys. unfold component_step. intros Hrun.
  apply bind_Ok in Hrun as ([[[cn co] nv1] ov1] & Hdisc & Hrun).
  apply bind_Ok in Hrun as ([a1 u1] & Hsolve & [= <- <- <- <-]).
  assert (side_rel (new_side old_clusters new_clusters k) [] nv cn nv1 ∧
          side_rel (reached reversed_old new_clusters) [] ov co ov1 ∧
          dict_get nv1 k = Some true) as (Hn & Ho & Hk).
  { pose proof (discover_spec _ _ _ _ _ _ _ _ _ _ _ Hkn Hdisc)
      as [(Hv & -> & -> & -> & ->) | (Hv & [rest ->] & Hn & Ho)].
    - split_and!; [apply side_rel_refl | apply side_rel_refl | done].
    - split_and!; [done | done |].
      destruct Hn as (added & Heq & _ & _ & _ & _ & Hg). simpl in Heq.
      rewrite Hg, decide_True; [done|]. rewrite <-Heq. by left. }
  pose proof (solve_component_spec _ _ _ _ _ _ _ _ _ _ _ _ solver Hsolve)
    as (asg & tr & Htr & Hperm & HM & Hext & Hu & Hms).
  exists cn, co, asg, tr. split_and!; try done.
  apply Forall_forall. intros r Hr.
  apply list_elem_of_lookup in Hr as [i Hi].
  destruct (Forall2_lookup_r _ _ _ _ _ Htr Hi)
    as (p & _ & (_ & Hcol & Hco & Hget & Hroutes)).
  split_and!.
  - done.
  - by rewrite Hco, Hcol.
  - rewrite Hco. by destruct Ho as (added & -> & _ & ? & _).
  - rewrite Hco. rewrite (side_rel_length _ _ _ _ Ho).
    apply (f_equal length) in Hkeys. unfold keys in Hkeys.
    rewrite !length_fmap in Hkeys. lia.
Qed.


Lemma side_rel_keys (P : K → Prop) l v l' v' :
  side_rel P l v l' v' → keys v' = keys v.
Proof. by intros (? & ? & ? & ? & ? & ?). Qed.

(** The loop over a list of new clusters: what it visits and what it
    appends to the two accumulators. *)
Lemma main_loop_spec fuel cl :
  ∀ a u ov nv a' u' ov' nv',
    (∀ kn, kn ∈ cl → kn ∈ new_clusters) →
    keys ov = keys old_clusters →
    main_loop fuel cl (a, u, ov, nv) = Ok (a', u', ov', nv') →
    ∃ tr seen_new seen_old,
      side_rel (loop_new_side cl) [] nv seen_new nv' ∧
      side_rel (reached reversed_old new_clusters) [] ov seen_old ov' ∧
      (∀ k, k ∈ keys cl → dict_get nv' k = Some true) ∧
      res_new <$> tr ≡ₚ seen_new ∧
      Forall resolution_ok tr ∧
      extends a (all_routes tr) a' ∧
      u' = u ++ leftovers tr ∧
      concat (values a') ++ concat u'
        ≡ₚ (concat (values a) ++ concat u) ++ (all_routes tr).*1.
Proof using solver.
  unfold main_loop.
  induction cl as [|[k n] cl IH]; intros a u ov nv a' u' ov' nv' Hcl Hkeys.
  - intros [= <- <- <- <-]. exists [], [], []. split_and!; try done.
    + apply side_rel_refl.
    + apply side_rel_refl.
    + by intros k ?%elem_of_nil.
    + apply extends_nil.
    + by rewrite app_nil_r.
    + by rewrite app_nil_r.
  - rewrite foldM_cons. intros Hrun.
    apply bind_Ok in Hrun as ([[[a1 u1] ov1] nv1] & Hstep & Hrest).
    apply component_step_spec in Hstep
      as (cn & co & asg & tr1 & _ & _ & Hn1 & Ho1 & Hk1 & _ & _ & Hp1 & Hok1
          & Hext1 & -> & Hms1);
      [| apply Hcl; by left | done].
    apply IH in Hrest
      as (tr2 & sn2 & so2 & Hn2 & Ho2 & Hall2 & Hp2 & Hok2 & Hext2 & ->
          & Hms2);
      [| intros; apply Hcl; by right
       | by rewrite (side_rel_keys _ _ _ _ _ Ho1)].
    exists (tr1 ++ tr2), (cn ++ sn2), (co ++ so2). split_and!.
    + eapply side_rel_app.
      * eapply side_rel_mono; [|done].
        intros k' [->|?]; [left; by left | by right].
      * eapply side_rel_mono; [|done].
        intros k' [?|?]; [left; by right | by right].
    + by eapply side_rel_app.
    + intros k' [->|Hk']%elem_of_cons.
      * by eapply side_rel_visited.
      * by apply Hall2.
    + by rewrite fmap_app, Hp1, Hp2.
    + by apply Forall_app.
    + rewrite all_routes_app. by eapply extends_trans.
    + by rewrite leftovers_app, app_assoc.
    + rewrite Hms2, Hms1, all_routes_app, fmap_app. by rewrite <-!app_assoc.
Qed.


(** ** A whole run *)

Abbreviation cluster_assignment :=
  (cluster_assignment recursion_limit munkres_compute old_clusters new_clusters
     similarity_function claims rejected).

Lemma routes_entities tr :
  Forall resolution_ok tr →
  (all_routes tr).*1
    = (res_new <$> tr) ≫= (λ k, dict_get_default new_clusters k []).
Proof.
  induction 1 as [|r tr (Hget & _) _ IH]; [done|].
  change (r :: tr) with ([r] ++ tr).
  rewrite all_routes_app, !fmap_app, bind_app, IH. f_equal.
  unfold all_routes, dict_get_default. simpl.
  by rewrite !app_nil_r, Hget.
Qed.

Lemma concat_values_fmap_nil {A B C} (d : dict A B) :
  concat (values ((λ kv, (kv.1, @nil C)) <$> d)) = [].
Proof. unfold values. by induction d. Qed.

(** A run that returns: the lists of [assigned] are what the resolutions
    placed and [unassigned] are their leftovers; when the keys of the new
    clusters are pairwise distinct, every new cluster is resolved once. *)
Lemma run_spec a' u' :
  cluster_assignment = Ok (a', u') →
  ∃ tr,
    Forall resolution_ok tr ∧
    keys a' = keys old_clusters ∧
    (∀ g, g ∈ keys old_clusters →
          dict_get a' g = Some (placed g (all_routes tr))) ∧
    u' = leftovers tr ∧
    (NoDup (keys new_clusters) →
     res_new <$> tr ≡ₚ keys new_clusters ∧
     concat (values a') ++ concat u' ≡ₚ concat (values new_clusters)).
Proof using solver.
  unfold cluster_assignment.
  intros Hrun.
  apply bind_Ok in Hrun as ([[[a1 u1] ov1] nv1] & Hloop & [= <- <-]).
  unfold initial_state in Hloop.
  apply main_loop_spec in Hloop
    as (tr & sn & so & Hn & Ho & Hall & Hp & Hok & Hext & Hu & Hms);
    [| done | apply keys_fmap_const].
  exists tr. split_and!.
  - done.
  - destruct Hext as [-> _]. apply keys_fmap_const.
  - intros g Hg. apply dict_get_is_Some in Hg as [l Hl].
    erewrite extends_lookup; [| done |].
    2:{ rewrite dict_get_fmap_const, Hl. done. }
    done.
  - done.
  - intros Hnd.
    assert (sn ≡ₚ keys new_clusters) as Hsn.
    { destruct Hn as (added & -> & Hndadd & _ & Hkeys & Hf & Hg). simpl.
      rewrite keys_fmap_const in Hkeys.
      apply NoDup_Permutation; [done | done |].
      intros k. split.
      - intros Hk. rewrite Forall_forall in Hf. specialize (Hf k Hk).
        rewrite <-(keys_fmap_const new_clusters false).
        apply dict_get_is_Some. eauto.
      - intros Hk. specialize (Hall k Hk). rewrite Hg in Hall.
        destruct (decide (k ∈ added)); [done|].
        rewrite dict_get_fmap_const in Hall.
        by destruct (dict_get new_clusters k). }
    split; [by rewrite Hp|].
    rewrite Hms, concat_values_fmap_nil. simpl.
    rewrite routes_entities by done. rewrite Hp, Hsn.
    by rewrite concat_values_lookup.
Qed.

(** C1. No entity is lost: when the keys of the new clusters are pairwise
    distinct and the call returns, the entities of the lists of [assigned]
    together with those of the lists of [unassigned] are, as a multiset,
    the entities of the new clusters.  The disjointness of the two
    partitions is not needed. *)
Theorem no_entity_loss assigned unassigned :
  NoDup (keys new_clusters) →
  cluster_assignment = Ok (assigned, unassigned) →
  concat (values assigned) ++ concat unassigned
    ≡ₚ concat (values new_clusters).
Proof using solver.
  intros Hnd Hrun.
  destruct (run_spec _ _ Hrun) as (tr & _ & _ & _ & _ & Hms).
  by apply Hms.
Qed.

(** ** Where the placed entities come from *)

Lemma elem_of_all_routes (tr : list (@resolution K E)) (p : E * option K) :
  p ∈ all_routes tr ↔ ∃ r, r ∈ tr ∧ p ∈ res_routes r.
Proof. unfold all_routes. rewrite list_elem_of_bind. naive_solver. Qed.

(** An old cluster of a component holds an entity of a new cluster. *)
Lemma reached_shares g :
  reached reversed_old new_clusters g →
  ∃ va c l e, (g, va) ∈ old_clusters ∧ (c, l) ∈ new_clusters ∧
              e ∈ l ∧ e ∈ va.
Proof.
  intros (c & l & e & Hcl & He & Hg).
  apply reverse_index_sound in Hg as (va & ? & ?).
  by exists va, c, l, e.
Qed.

(** An entity placed in [assigned[g]] is an entity of a new cluster, and
    either [g] is its entry in the old reverse index, or it is neither
    claimed nor rejected by [g] and [g] is an old cluster of a
    component. *)
Lemma placed_cases (tr : list (@resolution K E)) g e :
  Forall resolution_ok tr →
  e ∈ placed g (all_routes tr) →
  (∃ c l, (c, l) ∈ new_clusters ∧ e ∈ l) ∧
  (dict_get reversed_old e = Some g ∨
   ((e ∉ claims_set claims) ∧ (e ∉ dict_get_default rejected g []) ∧
    reached reversed_old new_clusters g)).
Proof.
  intros Hok (r & Hr & He)%elem_of_placed%elem_of_all_routes.
  rewrite Forall_forall in Hok.
  destruct (Hok r Hr) as (Hget & Hroutes & Hreached & _).
  split.
  - exists (res_new r), (res_routes r).*1. split.
    + by apply dict_get_Some_elem.
    + apply list_elem_of_fmap. by exists (e, Some g).
  - rewrite Forall_forall in Hroutes. specialize (Hroutes _ He).
    simpl in Hroutes. inversion Hroutes as [o|g' o|g'|]; subst.
    + by left.
    + by left.
    + right. split_and!; [done | done |].
      rewrite Forall_forall in Hreached. apply Hreached.
      by eapply list_elem_of_lookup_2.
Qed.

(** C2. The keys of [assigned] are the keys of [old_clusters], whatever the
    new clusters; and an old cluster that shares no entity with any new
    cluster is mapped to the empty list. *)
Theorem old_keys_preserved assigned unassigned :
  NoDup (keys old_clusters) →
  cluster_assignment = Ok (assigned, unassigned) →
  keys assigned = keys old_clusters ∧
  ∀ g va,
    dict_get old_clusters g = Some va →
    (∀ c l e, (c, l) ∈ new_clusters → e ∈ l → e ∉ va) →
    dict_get assigned g = Some [].
Proof using solver.
  intros Hnd Hrun.
  destruct (run_spec _ _ Hrun) as (tr & Hok & Hkeys & Hget & _).
  split; [done|]. intros g va Hva Hshare.
  rewrite Hget by (apply dict_get_is_Some; eauto). f_equal.
  destruct (placed g (all_routes tr)) as [|e t] eqn:Hplaced; [done|].
  exfalso.
  assert (e ∈ placed g (all_routes tr)) as He by (rewrite Hplaced; by left).
  assert (∀ va', (g, va') ∈ old_clusters → va' = va) as Hsame.
  { intros va' Hin. apply (dict_get_elem_NoDup _ _ _ Hnd) in Hin.
    congruence. }
  apply placed_cases in He
    as [(c & l & Hcl & Hel) [Hrev | (_ & _ & Hreach)]]; [| | done].
  - apply reverse_index_sound in Hrev as (va' & Hin & Heva).
    rewrite (Hsame _ Hin) in Heva. by eapply Hshare.
  - apply reached_shares in Hreach as (va' & c' & l' & e' & Hin & ? & ? & ?).
    rewrite (Hsame _ Hin) in *. by eapply Hshare.
Qed.

(** An entity of a new cluster is routed by one of the resolutions of a
    run. *)
Lemma entity_resolved (tr : list (@resolution K E)) c l e :
  NoDup (keys new_clusters) →
  res_new <$> tr ≡ₚ keys new_clusters →
  Forall resolution_ok tr →
  (c, l) ∈ new_clusters → e ∈ l →
  ∃ r d, r ∈ tr ∧ res_new r = c ∧ (e, d) ∈ res_routes r ∧
         routed old_clusters claims rejected
                (res_current_old r) (res_column r) e d.
Proof.
  intros Hnd Hperm Hok Hcl He.
  assert (c ∈ res_new <$> tr) as (r & -> & Hr)%list_elem_of_fmap.
  { rewrite Hperm. apply list_elem_of_fmap. by exists (c, l). }
  rewrite Forall_forall in Hok.
  destruct (Hok r Hr) as (Hget & Hroutes & _).
  rewrite (dict_get_elem_NoDup _ _ _ Hnd Hcl) in Hget.
  injection Hget as ->.
  apply list_elem_of_fmap in He as ([e' d] & -> & Hed).
  exists r, d. split_and!; try done.
  rewrite Forall_forall in Hroutes. by apply (Hroutes _ Hed).
Qed.

Lemma elem_of_leftovers (tr : list (@resolution K E)) t e :
  t ∈ leftovers tr → e ∈ t →
  ∃ r, r ∈ tr ∧ (e, None) ∈ res_routes r.
Proof.
  unfold leftovers. intros (r & Ht & Hr)%list_elem_of_bind He.
  exists r. split; [done|]. apply elem_of_unplaced.
  destruct (unplaced (res_routes r)) as [|x t'];
    [by apply elem_of_nil in Ht|].
  by apply list_elem_of_singleton in Ht as ->.
Qed.

(** A claimed entity of a new cluster lands in the list of its entry in
    the old reverse index, and in no list of [unassigned]. *)
Lemma claimed_placed assigned unassigned c l e :
  NoDup (keys new_clusters) →
  cluster_assignment = Ok (assigned, unassigned) →
  (c, l) ∈ new_clusters → e ∈ l → e ∈ claims_set claims →
  ∃ g va la,
    dict_get reversed_old e = Some g ∧
    (g, va) ∈ old_clusters ∧ e ∈ va ∧
    dict_get assigned g = Some la ∧ e ∈ la ∧
    ∀ t, t ∈ unassigned → e ∉ t.
Proof using solver.
  intros Hnd Hrun Hcl He Hclaimed.
  destruct (run_spec _ _ Hrun) as (tr & Hok & Hkeys & Hget & -> & Hall).
  destruct (Hall Hnd) as [Hperm _].
  destruct (entity_resolved tr c l e Hnd Hperm Hok Hcl He)
    as (r & d & Hr & _ & Hed & Hrouted).
  inversion Hrouted as [o _ Ho| | |]; subst; try done.
  pose proof Ho as (va & Hin & Heva)%reverse_index_sound.
  exists o, va, (placed o (all_routes tr)). split_and!; try done.
  - apply Hget. apply list_elem_of_fmap. by exists (o, va).
  - apply elem_of_placed, elem_of_all_routes. eauto.
  - intros t Ht Het.
    destruct (elem_of_leftovers _ _ _ Ht Het) as (r' & Hr' & Hnone).
    rewrite Forall_forall in Hok.
    destruct (Hok r' Hr') as (_ & Hroutes & _).
    rewrite Forall_forall in Hroutes. specialize (Hroutes _ Hnone).
    simpl in Hroutes. by inversion Hroutes.
Qed.

Lemma elem_of_concat (x : E) (ls : list (list E)) :
  x ∈ concat ls ↔ ∃ l, x ∈ l ∧ l ∈ ls.
Proof.
  induction ls as [|l ls IH]; simpl.
  - split; [by intros ?%elem_of_nil | by intros (? & _ & ?%elem_of_nil)].
  - rewrite elem_of_app, IH. split.
    + intros [?|(l' & ? & ?)]; [exists l; split; [done | by left]|].
      exists l'. split; [done | by right].
    + intros (l' & ? & [->|?]%elem_of_cons); [by left | right; eauto].
Qed.

Lemma elem_of_claims_set g cl e :
  dict_get claims g = Some cl → e ∈ cl → e ∈ claims_set claims.
Proof.
  intros Hg He. unfold claims_set, values.
  apply elem_of_concat. exists cl. split; [done|].
  apply list_elem_of_fmap. exists (g, cl). split; [done|].
  by apply dict_get_Some_elem.
Qed.

(** C3, amended.  An entity [e] of a new cluster that the old cluster [g]
    claims lands in [assigned[g]] when [g] is also the old cluster that
    holds [e] (in a disjoint old partition) and the call returns: the
    resolver sends a claimed entity to the cluster that holds it, not to
    the cluster that claims it. *)
Theorem claim_dominance assigned unassigned g cl va c l e :
  NoDup (keys new_clusters) →
  disjoint_clusters old_clusters →
  dict_get claims g = Some cl → e ∈ cl →
  (g, va) ∈ old_clusters → e ∈ va →
  (c, l) ∈ new_clusters → e ∈ l →
  cluster_assignment = Ok (assigned, unassigned) →
  ∃ la, dict_get assigned g = Some la ∧ e ∈ la.
Proof using solver.
  intros Hnd Hdis Hcl Hecl Hva Heva Hc Hel Hrun.
  destruct (claimed_placed _ _ c l e Hnd Hrun Hc Hel)
    as (g' & va' & la & Hrev & _ & _ & Hla & Hela & _).
  { by eapply elem_of_claims_set. }
  rewrite (reverse_index_disjoint _ _ _ _ Hdis Hva Heva) in Hrev.
  injection Hrev as <-. eauto.
Qed.

(** C4. A claimed entity of a new cluster is sent to its entry in the old
    reverse index, an old cluster that holds it, whatever the column of its
    new cluster, dummy columns included; in a run that returns it is in
    the list of that old cluster and in no list of [unassigned]. *)
Theorem claimed_entity_routing c l e :
  (c, l) ∈ new_clusters → e ∈ l → e ∈ claims_set claims →
  (∀ current_old old a t,
     resolve_sig (X:=X) old_clusters claims rejected current_old old (a, t) e
     = (o ← dict_lookup reversed_old e;
        a' ← dict_append a o e;
        Ok (a', t))) ∧
  (∀ assigned unassigned,
     NoDup (keys new_clusters) →
     cluster_assignment = Ok (assigned, unassigned) →
     ∃ g va la,
       dict_get reversed_old e = Some g ∧
       (g, va) ∈ old_clusters ∧ e ∈ va ∧
       dict_get assigned g = Some la ∧ e ∈ la ∧
       ∀ t, t ∈ unassigned → e ∉ t).
Proof using solver.
  intros Hc Hel Hclaimed. split.
  - intros current_old old a t. unfold resolve_sig.
    by rewrite decide_True.
  - intros assigned unassigned Hnd Hrun.
    by eapply claimed_placed.
Qed.

Lemma main_loop_split fuel cl pre kn post s :
  cl = pre ++ kn :: post →
  main_loop fuel cl s
  = (s0 ← main_loop fuel pre s;
     s1 ← component_step fuel s0 kn;
     main_loop fuel post s1).
Proof.
  intros ->. unfold main_loop. rewrite foldM_app.
  by destruct (foldM _ pre s).
Qed.

Lemma main_loop_keys fuel cl a u ov nv a' u' ov' nv' :
  (∀ kn, kn ∈ cl → kn ∈ new_clusters) →
  keys ov = keys old_clusters →
  main_loop fuel cl (a, u, ov, nv) = Ok (a', u', ov', nv') →
  keys ov' = keys old_clusters ∧ keys nv' = keys nv ∧ keys a' = keys a.
Proof using solver.
  intros Hcl Hkeys Hrun.
  apply main_loop_spec in Hrun
    as (tr & sn & so & Hn & Ho & _ & _ & _ & [Ha _] & _); [| done | done].
  split_and!; [| by eapply side_rel_keys | done].
  by rewrite (side_rel_keys _ _ _ _ _ Ho).
Qed.

(** C5, amended.  Let [e] be an unclaimed entity that the old cluster
    [g_orig] holds, in a disjoint old partition; let the solver pair the
    new cluster of [e] with the column of the old cluster [g_target] of its
    component, let [g_target] reject [e], and let [g_target] differ from
    [g_orig].  Then in the result [e] is in [assigned[g_orig]] and not in
    [assigned[g_target]]. *)
Theorem rejection_redirect c l e g_orig g_target va assigned unassigned :
  NoDup (keys new_clusters) →
  disjoint_clusters old_clusters →
  (g_orig, va) ∈ old_clusters → e ∈ va →
  e ∉ claims_set claims →
  dict_get new_clusters c = Some l → e ∈ l →
  solver_pairs recursion_limit munkres_compute old_clusters new_clusters
               similarity_function claims rejected c g_target →
  e ∈ dict_get_default rejected g_target [] →
  g_orig ≠ g_target →
  cluster_assignment = Ok (assigned, unassigned) →
  (∃ la, dict_get assigned g_orig = Some la ∧ e ∈ la) ∧
  (∀ lt, dict_get assigned g_target = Some lt → e ∉ lt).
Proof using solver.
  intros Hnd Hdis Hva Heva Hunclaimed Hl Hel
         (cn & co & M & i & j & Hfound & HM & Hij & Hc & Hj) Hrej Hne Hrun.
  destruct Hfound
    as (pre & k & n & post & a0 & u0 & ov0 & nv0 & nv1 & ov1
        & [Hnew Hpre] & Hdisc).
  assert (dict_get reversed_old e = Some g_orig) as Hrev
    by (by eapply reverse_index_disjoint).
  split.
  - unfold cluster_assignment in Hrun.
    apply bind_Ok in Hrun as ([[[af uf] ovf] nvf] & Hloop & [= <- <-]).
    fold main_loop in Hloop.
    rewrite (main_loop_split _ _ _ _ _ _ Hnew), Hpre in Hloop.
    simpl in Hloop.
    apply bind_Ok in Hloop as ([[[a1 u1] ov1'] nv1'] & Hstep & Hpost).
    assert (∀ kn, kn ∈ pre → kn ∈ new_clusters) as Hpre_in.
    { intros kn ?. rewrite Hnew. apply elem_of_app. by left. }
    assert ((k, n) ∈ new_clusters) as Hkn.
    { rewrite Hnew. apply elem_of_app. right. by left. }
    assert (∀ kn, kn ∈ post → kn ∈ new_clusters) as Hpost_in.
    { intros kn ?. rewrite Hnew. apply elem_of_app. right. by right. }
    apply main_loop_keys in Hpre as (Hov0 & _ & Ha0);
      [| done | apply keys_fmap_const].
    rewrite keys_fmap_const in Ha0.
    apply component_step_spec in Hstep
      as (cn' & co' & asg & tr1 & Hdisc' & _ & _ & Ho1 & _ & Hres & Hasg & _
          & Hok1 & Hext1 & _ & _); [| done | done].
    rewrite Hdisc in Hdisc'. injection Hdisc' as <- <- <- <-.
    destruct Hasg as (M' & HM' & ->).
    { intros ->. by rewrite lookup_nil in Hc. }
    rewrite HM in HM'. injection HM' as <-.
    apply list_elem_of_lookup in Hij as [p Hp].
    destruct (Forall2_lookup_l _ _ _ _ _ Hres Hp)
      as (r & Hr & (Hrnew & Hcol & Hco & Hget & Hroutes)).
    simpl in *. rewrite Hc in Hrnew. injection Hrnew as Hrnew.
    rewrite <-Hrnew, Hl in Hget. injection Hget as ->.
    apply list_elem_of_fmap in Hel as ([e' d] & -> & Hed). simpl in *.
    rewrite Forall_forall in Hroutes. specialize (Hroutes _ Hed).
    simpl in Hroutes.
    assert (j < length old_clusters) as Hjlt.
    { rewrite Forall_forall in Hok1.
      destruct (Hok1 r) as (_ & _ & _ & Hlen);
        [by eapply list_elem_of_lookup_2|].
      rewrite Hco in Hlen. apply lookup_lt_Some in Hj. lia. }
    clear Hnew.
    inversion Hroutes as [o ? ?|g o _ _ Hg Hrj Ho|g _ _ Hg Hrj|]; subst;
      try done.
    + rewrite Hrev in Ho. injection Ho as <-.
      assert (e' ∈ placed g_orig (all_routes tr1)) as Hplaced.
      { apply elem_of_placed, elem_of_all_routes. exists r.
        split; [by eapply list_elem_of_lookup_2 | done]. }
      assert (is_Some (dict_get a0 g_orig)) as [l0 Hl0].
      { apply dict_get_is_Some. rewrite Ha0.
        apply list_elem_of_fmap. by exists (g_orig, va). }
      pose proof (extends_lookup _ _ _ _ _ Hext1 Hl0) as Hl1.
      apply main_loop_spec in Hpost
        as (tr2 & _ & _ & _ & _ & _ & _ & _ & Hext2 & _);
        [| done | by rewrite (side_rel_keys _ _ _ _ _ Ho1)].
      pose proof (extends_lookup _ _ _ _ _ Hext2 Hl1) as Hl2.
      eexists. split; [done|].
      rewrite !elem_of_app. left. by right.
    + rewrite Hj in Hg. injection Hg as <-. done.
  - intros lt Hlt Helt.
    destruct (run_spec _ _ Hrun) as (tr & Hok & Hkeys & Hget & _).
    rewrite Hget in Hlt.
    2:{ rewrite <-Hkeys. apply dict_get_is_Some. eauto. }
    injection Hlt as <-.
    apply placed_cases in Helt as [_ [Hrev' | (_ & Hrj & _)]];
      [| done | done].
    rewrite Hrev in Hrev'. by injection Hrev'.
Qed.

End Run.

(** ** When the recursion limit is not reached *)

Lemma within_depth_bind {X A B} (m : res X A) (f : A → res X B) :
  within_depth m → (∀ a, m = Ok a → within_depth (f a)) →
  within_depth (a ← m; f a).
Proof.
  unfold within_depth. destruct m as [a|e]; simpl; [eauto|].
  intros He _ [= ->]. done.
Qed.

Lemma within_depth_Ok {X A} (a : A) : within_depth (X:=X) (Ok a).
Proof. done. Qed.

Lemma within_depth_foldM {X A B} (I : A → Prop) (f : A → B → res X A) l :
  (∀ s b, I s → b ∈ l →
     within_depth (f s b) ∧ ∀ s', f s b = Ok s' → I s') →
  ∀ a, I a → within_depth (foldM f l a).
Proof.
  induction l as [|b l IH]; intros Hstep a Ha; simpl; [done|].
  destruct (Hstep a b Ha ltac:(by left)) as [Hb Hnext].
  apply within_depth_bind; [done|]. intros a' Ha'.
  apply IH; [|by apply Hnext].
  intros s b' Hs Hb'. apply Hstep; [done | by right].
Qed.

Lemma within_depth_dict_lookup {X A B} `{EqDecision A} (d : dict A B) k :
  within_depth (dict_lookup (X:=X) d k).
Proof. unfold within_depth, dict_lookup. by destruct (dict_get d k). Qed.

Lemma within_depth_list_index {X A} (l : list A) i :
  within_depth (list_index (X:=X) l i).
Proof. unfold within_depth, list_index. by destruct (l !! i). Qed.

Lemma within_depth_dict_append {X A B} `{EqDecision A}
    (d : dict A (list B)) k x :
  within_depth (dict_append (X:=X) d k x).
Proof.
  unfold dict_append. apply within_depth_bind;
    [apply within_depth_dict_lookup | done].
Qed.

Lemma filter_length_le {A} (P Q : A → Prop)
    `{∀ x, Decision (P x)} `{∀ x, Decision (Q x)} (l : list A) :
  (∀ x, x ∈ l → P x → Q x) →
  length (filter P l) ≤ length (filter Q l).
Proof.
  induction l as [|x l IH]; intros HPQ; [done|].
  rewrite !filter_cons.
  specialize (IH ltac:(intros y ?; apply HPQ; by right)).
  destruct (decide (P x)) as [HP|]; destruct (decide (Q x)) as [|HQ];
    simpl; try lia.
  destruct HQ. apply HPQ; [by left | done].
Qed.

Lemma filter_length_lt {A} (P Q : A → Prop)
    `{∀ x, Decision (P x)} `{∀ x, Decision (Q x)} (l : list A) c :
  (∀ x, x ∈ l → P x → Q x) → c ∈ l → Q c → ¬ P c →
  length (filter P l) < length (filter Q l).
Proof.
  induction l as [|x l IH]; intros HPQ Hc HQc HPc;
    [by apply elem_of_nil in Hc|].
  rewrite !filter_cons.
  assert (∀ y, y ∈ l → P y → Q y) as HPQ'
    by (intros y ?; apply HPQ; by right).
  pose proof (filter_length_le P Q l HPQ') as Hle.
  apply elem_of_cons in Hc as [<-|Hc].
  - rewrite decide_False, decide_True by done. simpl. lia.
  - specialize (IH HPQ' Hc HQc HPc).
    destruct (decide (P x)) as [HP|]; destruct (decide (Q x)) as [|HQ];
      simpl; try lia.
    destruct HQ. apply HPQ; [by left | done].
Qed.

Section Depth.
Context {K E X : Type} `{EqDecision K} `{EqDecision E}.

Lemma pending_le_length (v : dict K bool) : pending v ≤ length v.
Proof.
  unfold pending, keys. rewrite <-(length_fmap fst v).
  apply length_filter.
Qed.

(** A traversal does not make more clusters pending. *)
Lemma side_rel_pending (P : K → Prop) l v l' v' :
  side_rel P l v l' v' → pending v' ≤ pending v.
Proof.
  intros (added & _ & _ & _ & Hkeys & _ & Hg). unfold pending.
  rewrite Hkeys. apply filter_length_le. intros k _. rewrite Hg.
  by destruct (decide (k ∈ added)).
Qed.

(** Marking a pending cluster leaves fewer pending clusters. *)
Lemma pending_mark (v : dict K bool) c :
  dict_get v c = Some false → pending (dict_set v c true) < pending v.
Proof.
  intros Hc. unfold pending.
  rewrite keys_dict_set by eauto.
  apply (filter_length_lt _ _ _ c).
  - intros k _. rewrite dict_get_set. by destruct (decide (c = k)).
  - apply dict_get_is_Some. eauto.
  - done.
  - by rewrite dict_get_set_eq.
Qed.

(** With as much fuel as there are pending clusters the traversal does
    not run out of it. *)
Lemma graph_traversal_within_depth fuel :
  ∀ ct co (rt ro : dict E K) (tc oc : dict K (list E)) tv ov c,
    dict_get tv c = Some false →
    pending tv + pending ov ≤ fuel →
    within_depth (graph_traversal (X:=X) fuel ct co rt ro tc oc tv ov c).
Proof.
  induction fuel as [|fuel IH]; intros ct co rt ro tc oc tv ov c Hc Hfuel.
  { pose proof (pending_mark tv c Hc). lia. }
  simpl. apply within_depth_bind; [apply within_depth_dict_lookup|].
  intros sigs _.
  apply (within_depth_foldM
    (λ s : @sides K, let '(_, _, va, vb) := s in
                     pending va + pending vb ≤ fuel)).
  - intros [[[a b] va] vb] sig Hinv _. split.
    + apply within_depth_bind; [apply within_depth_dict_lookup|].
      intros other _.
      apply within_depth_bind; [apply within_depth_dict_lookup|].
      intros seen Hseen%dict_lookup_Ok. destruct seen; [done|].
      apply within_depth_bind; [|done].
      apply IH; [done | lia].
    + intros [[[a' b'] va'] vb'] Hstep.
      apply bind_Ok in Hstep as (other & _ & Hstep).
      apply bind_Ok in Hstep as (seen & Hseen%dict_lookup_Ok & Hstep).
      destruct seen; [by injection Hstep as <- <- <- <-|].
      apply bind_Ok in Hstep as ([[[b1 a1] vb1] va1] & Hrec & [= <- <- <- <-]).
      apply (graph_traversal_spec (λ _, True)) in Hrec as [Hb1 Ha1];
        [| done | done | done].
      apply side_rel_pending in Hb1, Ha1. lia.
  - pose proof (pending_mark tv c Hc). lia.
Qed.
End Depth.

Lemma first_raise_Forall {X A} (Q : exn X → Prop) (l : list (res X A)) e :
  Forall (λ r, ∀ e, r = Raise e → Q e) l → first_raise l = Some e → Q e.
Proof.
  induction 1 as [|[a|e'] l Hr _ IH]; simpl; [done | done |].
  intros [= ->]. by apply Hr.
Qed.

Section RunDepth.
Context {K E X : Type} `{EqDecision K} `{EqDecision E}.
Variable recursion_limit : nat.
Variable munkres_compute : matrix → list (nat * nat).
Variable old_clusters new_clusters : dict K (list E).
Variable similarity_function : list E → list E → list E → list E → X + Z.
Variable claims rejected : dict K (list E).

Lemma within_depth_call_similarity nc oc cl rj :
  within_depth (call_similarity similarity_function nc oc cl rj).
Proof.
  unfold within_depth, call_similarity.
  by destruct (similarity_function nc oc cl rj).
Qed.

Lemma old_cost_within_depth new old :
  within_depth (old_cost old_clusters new_clusters similarity_function
                  claims rejected new old).
Proof.
  unfold old_cost.
  apply within_depth_bind; [apply within_depth_dict_lookup|].
  intros nc _.
  apply within_depth_bind; [apply within_depth_dict_lookup|].
  intros oc _. apply within_depth_call_similarity.
Qed.

Lemma dummy_cost_within_depth new :
  within_depth (dummy_cost new_clusters similarity_function new).
Proof.
  unfold dummy_cost.
  apply within_depth_bind; [apply within_depth_dict_lookup|].
  intros nc _. apply within_depth_call_similarity.
Qed.

Lemma build_cost_matrix_within_depth cn co :
  within_depth (build_cost_matrix old_clusters new_clusters
                  similarity_function claims rejected cn co).
Proof.
  pose proof (build_cost_matrix_spec old_clusters new_clusters
                similarity_function claims rejected cn co) as Hspec.
  destruct (first_raise _) as [e|] eqn:Hfirst.
  - rewrite Hspec. intros [= ->].
    apply (first_raise_Forall (λ e, e ≠ RecursionError)) in Hfirst; [done|].
    apply Forall_forall. intros r (new & Hr & _)%list_elem_of_bind e ->.
    apply elem_of_app in Hr as [(old & Hr & _)%list_elem_of_fmap
                               |(j & Hr & _)%list_elem_of_fmap].
    + intros ->. by eapply old_cost_within_depth.
    + intros ->. by eapply dummy_cost_within_depth.
  - by destruct Hspec as (M & -> & _).
Qed.

Lemma resolve_sig_within_depth co old s sig :
  within_depth (resolve_sig (X:=X) old_clusters claims rejected co old s sig).
Proof.
  destruct s as [a t]. unfold resolve_sig.
  repeat first
    [ done
    | case_decide
    | apply within_depth_bind;
      [first [apply within_depth_dict_lookup | apply within_depth_list_index
             | apply within_depth_dict_append]|]; intros ? _ ].
Qed.

Lemma resolve_pair_within_depth cn co s p :
  within_depth (resolve_pair (X:=X) old_clusters new_clusters claims rejected
                  cn co s p).
Proof.
  destruct s as [a u], p as [new old]. unfold resolve_pair.
  apply within_depth_bind; [apply within_depth_list_index|]. intros k _.
  apply within_depth_bind; [apply within_depth_dict_lookup|]. intros sigs _.
  apply within_depth_bind.
  - apply (within_depth_foldM (λ _, True)); [|done].
    intros s sig _ _. split; [apply resolve_sig_within_depth | done].
  - intros [a' t] _. by destruct t.
Qed.

Lemma solve_component_within_depth cn co s :
  within_depth (solve_component munkres_compute old_clusters new_clusters
                  similarity_function claims rejected cn co s).
Proof.
  unfold solve_component. destruct cn as [|k0 cn0]; [done|].
  apply within_depth_bind; [apply build_cost_matrix_within_depth|].
  intros M _.
  apply (within_depth_foldM (λ _, True)); [|done].
  intros s' p _ _. split; [apply resolve_pair_within_depth | done].
Qed.

Lemma discover_within_depth fuel k n ov nv :
  (k, n) ∈ new_clusters →
  pending nv + pending ov ≤ fuel →
  within_depth (discover (X:=X) old_clusters new_clusters fuel k n ov nv).
Proof.
  intros Hkn Hfuel. unfold discover.
  apply within_depth_bind; [apply within_depth_dict_lookup|].
  intros seen Hseen%dict_lookup_Ok. destruct seen; [done|].
  pose proof (pending_mark nv k Hseen) as Hmark.
  apply (within_depth_foldM
    (λ s : @sides K, let '(_, _, va, vb) := s in
                     pending va + pending vb ≤ fuel)); [|lia].
  intros [[[a b] va] vb] sig Hinv _. split.
  - apply within_depth_bind; [apply within_depth_dict_lookup|].
    intros old _.
    apply within_depth_bind; [apply within_depth_dict_lookup|].
    intros seen Hseen'%dict_lookup_Ok. destruct seen; [done|].
    apply within_depth_bind; [|done].
    apply graph_traversal_within_depth; [done | lia].
  - intros [[[a' b'] va'] vb'] Hstep.
    apply bind_Ok in Hstep as (old & _ & Hstep).
    apply bind_Ok in Hstep as (seen & Hseen'%dict_lookup_Ok & Hstep).
    destruct seen; [by injection Hstep as <- <- <- <-|].
    apply bind_Ok in Hstep as ([[[b1 a1] vb1] va1] & Hrec & [= <- <- <- <-]).
    apply (graph_traversal_spec (λ _, True)) in Hrec as [Hb1 Ha1];
      [| done | done | done].
    apply side_rel_pending in Hb1, Ha1. lia.
Qed.

(** The main loop keeps the keys of the two visit maps. *)
Lemma component_step_keys fuel a u ov nv k n a' u' ov' nv' :
  (k, n) ∈ new_clusters →
  component_step munkres_compute old_clusters new_clusters
    similarity_function claims rejected fuel (a, u, ov, nv) (k, n)
    = Ok (a', u', ov', nv') →
  keys ov' = keys ov ∧ keys nv' = keys nv.
Proof.
  intros Hkn. unfold component_step. intros Hrun.
  apply bind_Ok in Hrun as ([[[cn co] nv1] ov1] & Hdisc & Hrun).
  apply bind_Ok in Hrun as ([a1 u1] & _ & [= <- <- <- <-]).
  destruct (discover_spec _ _ _ _ _ _ _ _ _ _ _ Hkn Hdisc)
    as [(_ & _ & _ & -> & ->) | (_ & _ & Hn & Ho)]; [done|].
  split; by eapply side_rel_keys.
Qed.

(** A recursion limit that is at least the number of clusters is never
    reached. *)
Lemma cluster_assignment_within_depth :
  cluster_count old_clusters new_clusters ≤ recursion_limit →
  within_depth (cluster_assignment recursion_limit munkres_compute
                  old_clusters new_clusters similarity_function claims
                  rejected).
Proof.
  intros Hlimit. unfold cluster_assignment.
  apply within_depth_bind; [|done].
  unfold main_loop.
  cut (∀ cl, (∀ kn, kn ∈ cl → kn ∈ new_clusters) →
         within_depth (foldM (component_step munkres_compute old_clusters
                                new_clusters similarity_function claims
                                rejected recursion_limit)
                             cl (initial_state old_clusters new_clusters))).
  { intros Hcut. by apply Hcut. }
  intros cl Hcl.
  apply (within_depth_foldM
    (λ s : @loop_state K E,
       let '(_, _, ov, nv) := s in
       length ov = length old_clusters ∧ length nv = length new_clusters)).
  - intros [[[a u] ov] nv] [k n] [Hov Hnv] Hkn. split.
    + unfold component_step.
      apply within_depth_bind.
      * apply discover_within_depth; [by apply Hcl|].
        pose proof (pending_le_length ov). pose proof (pending_le_length nv).
        unfold cluster_count in Hlimit. lia.
      * intros [[[cn co] nv1] ov1] _.
        apply within_depth_bind; [apply solve_component_within_depth|].
        by intros [a1 u1] _.
    + intros [[[a' u'] ov'] nv'] Hstep.
      apply component_step_keys in Hstep as [Hko Hkn']; [|by apply Hcl].
      apply (f_equal length) in Hko, Hkn'. unfold keys in *.
      rewrite !length_fmap in Hko, Hkn'. lia.
  - unfold initial_state. by rewrite !length_fmap.
Qed.
End RunDepth.

(** ** Exceptions of the cost function *)

Section CostExceptions.
Context {K E X : Type} `{EqDecision K} `{EqDecision E}.
Variable recursion_limit : nat.
Variable munkres_compute : matrix → list (nat * nat).
Variable old_clusters new_clusters : dict K (list E).
Variable similarity_function : list E → list E → list E → list E → X + Z.
Variable claims rejected : dict K (list E).

End CostExceptions.

(** ** The keys of [claims] and [rejected] *)

Lemma foldM_ext_elem {X A B} (f g : A → B → res X A) l :
  (∀ s b, b ∈ l → f s b = g s b) → ∀ a, foldM f l a = foldM g l a.
Proof.
  induction l as [|b l IH]; intros Hfg a; simpl; [done|].
  rewrite (Hfg a b) by (by left).
  destruct (g a b) as [a'|e]; simpl; [|done].
  apply IH. intros s b' ?. apply Hfg. by right.
Qed.

Lemma elem_of_enumerate {A} (l : list A) j x :
  (j, x) ∈ enumerate l → x ∈ l.
Proof. unfold enumerate. apply elem_of_zip_r. Qed.

Section Overrides.
Context {K E X : Type} `{EqDecision K} `{EqDecision E}.
Variable recursion_limit : nat.
Variable munkres_compute : matrix → list (nat * nat).
Variable old_clusters new_clusters : dict K (list E).
Variable similarity_function : list E → list E → list E → list E → X + Z.
Variable claims rejected claims' rejected' : dict K (list E).

Hypothesis same_claimed :
  ∀ e, e ∈ claims_set claims ↔ e ∈ claims_set claims'.
Hypothesis same_claims :
  ∀ g, g ∈ keys old_clusters → dict_get claims g = dict_get claims' g.
Hypothesis same_rejected :
  ∀ g, g ∈ keys old_clusters → dict_get rejected g = dict_get rejected' g.

Lemma resolve_sig_ext co old s sig :
  Forall (λ g, g ∈ keys old_clusters) co →
  resolve_sig (X:=X) old_clusters claims rejected co old s sig
  = resolve_sig old_clusters claims' rejected' co old s sig.
Proof using same_claimed same_rejected.
  intros Hco. destruct s as [a t]. unfold resolve_sig.
  destruct (decide (sig ∈ claims_set claims)) as [Hc|Hc],
           (decide (sig ∈ claims_set claims')) as [Hc'|Hc'];
    [done | by apply same_claimed in Hc | by apply same_claimed in Hc' |].
  destruct (decide (old < length old_clusters)); [|done].
  unfold list_index. destruct (co !! old) as [g|] eqn:Hg; [|done]. simpl.
  unfold dict_get_default. rewrite same_rejected; [done|].
  rewrite Forall_forall in Hco. apply Hco. by eapply list_elem_of_lookup_2.
Qed.

Lemma build_cost_matrix_ext cn co :
  Forall (λ g, g ∈ keys old_clusters) co →
  build_cost_matrix (X:=X) old_clusters new_clusters similarity_function
                    claims rejected cn co
  = build_cost_matrix old_clusters new_clusters similarity_function
                      claims' rejected' cn co.
Proof using same_claims same_rejected.
  intros Hco. unfold build_cost_matrix.
  apply foldM_ext_elem. intros M [i new] _. unfold cost_row.
  f_equal. apply foldM_ext_elem.
  intros M' [j old] Hold%elem_of_enumerate.
  rewrite Forall_forall in Hco. unfold dict_get_default.
  by rewrite same_claims, same_rejected by by apply Hco.
Qed.

Lemma solve_component_ext cn co s :
  Forall (λ g, g ∈ keys old_clusters) co →
  solve_component (X:=X) munkres_compute old_clusters new_clusters
                  similarity_function claims rejected cn co s
  = solve_component munkres_compute old_clusters new_clusters
                    similarity_function claims' rejected' cn co s.
Proof using same_claimed same_claims same_rejected.
  intros Hco. unfold solve_component. destruct cn as [|k0 cn0]; [done|].
  rewrite build_cost_matrix_ext by done.
  destruct (build_cost_matrix _ _ _ claims' rejected' _ _) as [M|e];
    simpl; [|done].
  apply foldM_ext_elem. intros [a u] [new old] _. unfold resolve_pair.
  destruct (list_index _ new) as [k|]; simpl; [|done].
  destruct (dict_lookup new_clusters k) as [sigs|]; simpl; [|done].
  f_equal. apply foldM_ext_elem. intros s' sig _.
  by apply resolve_sig_ext.
Qed.

Lemma component_step_ext fuel s k n :
  (k, n) ∈ new_clusters →
  component_step (X:=X) munkres_compute old_clusters new_clusters
                 similarity_function claims rejected fuel s (k, n)
  = component_step munkres_compute old_clusters new_clusters
                   similarity_function claims' rejected' fuel s (k, n).
Proof using same_claimed same_claims same_rejected.
  intros Hkn. destruct s as [[[a u] ov] nv]. unfold component_step.
  destruct (discover _ _ fuel k n ov nv) as [[[[cn co] nv1] ov1]|e] eqn:Hd;
    simpl; [|done].
  rewrite solve_component_ext; [done|].
  destruct (discover_spec _ _ _ _ _ _ _ _ _ _ _ Hkn Hd)
    as [(_ & _ & -> & _) | (_ & _ & _ & Ho)]; [done|].
  destruct Ho as (added & -> & _ & Hreached & _). simpl.
  eapply Forall_impl; [done|]. intros g (c & l & sig & _ & _ & Hg).
  apply reverse_index_sound in Hg as (va & Hin & _).
  apply list_elem_of_fmap. by exists (g, va).
Qed.

(** C8, amended.  The call reads [claims] and [rejected] only at keys of
    [old_clusters], and [claims] also through the set of all claimed
    entities: two calls whose [claims] and [rejected] agree there have the
    same outcome.  A key of [claims] or [rejected] that is not a key of
    [old_clusters] raises nothing. *)
Theorem overrides_read_at_old_keys :
  cluster_assignment (X:=X) recursion_limit munkres_compute
                     old_clusters new_clusters
                     similarity_function claims rejected
  = cluster_assignment recursion_limit munkres_compute old_clusters new_clusters
                       similarity_function claims' rejected'.
Proof using same_claimed same_claims same_rejected.
  unfold cluster_assignment, main_loop.
  f_equal. apply foldM_ext_elem. intros s [k n] Hkn.
  by apply component_step_ext.
Qed.
End Overrides.

(** ** New clusters without entities of old clusters *)

Section FreshClusters.
Context {K E X : Type} `{EqDecision K} `{EqDecision E}.
Variable recursion_limit : nat.
Variable munkres_compute : matrix → list (nat * nat).
Variable old_clusters new_clusters : dict K (list E).
Variable similarity_function : list E → list E → list E → list E → X + Z.
Variable claims rejected : dict K (list E).
Hypothesis solver : solver_ok munkres_compute.

(** A new cluster that shares no entity with an old cluster is not visited
    when the loop reaches it. *)
Lemma fresh_cluster_pending pre k n post a u ov nv :
  NoDup (keys new_clusters) →
  (∀ e g va, e ∈ n → (g, va) ∈ old_clusters → e ∉ va) →
  loop_reaches recursion_limit munkres_compute old_clusters new_clusters
               similarity_function claims rejected pre k n post
               (a, u, ov, nv) →
  dict_get nv k = Some false.
Proof using solver.
  intros Hnd Hfresh [Hnew Hpre].
  assert ((k, n) ∈ new_clusters) as Hkn.
  { rewrite Hnew. apply elem_of_app. right. by left. }
  apply main_loop_spec in Hpre
    as (_ & sn & _ & Hn & _); [| done | | apply keys_fmap_const].
  2:{ intros kn ?. rewrite Hnew. apply elem_of_app. by left. }
  destruct Hn as (added & -> & _ & Hside & _ & _ & Hg). simpl in *.
  rewrite Hg, dict_get_fmap_const.
  rewrite (dict_get_elem_NoDup _ _ _ Hnd Hkn). simpl.
  destruct (decide (k ∈ added)) as [Hk|]; [exfalso | done].
  rewrite Forall_forall in Hside.
  destruct (Hside k Hk) as [Hpre | (c & l & sig & Hcl & Hsig & Hrev)].
  - rewrite Hnew in Hnd. unfold keys in Hnd, Hpre.
    rewrite fmap_app in Hnd. apply NoDup_app in Hnd as (_ & Hdisj & _).
    apply (Hdisj k Hpre). rewrite fmap_cons. by left.
  - apply reverse_index_sound in Hrev as (n' & Hin & Hsig').
    apply (dict_get_elem_NoDup _ _ _ Hnd) in Hin. 
    rewrite (dict_get_elem_NoDup _ _ _ Hnd Hkn) in Hin.
    injection Hin as <-. by eapply Hfresh.
Qed.

(** C7, amended.  A new cluster none of whose entities is in an old
    cluster is processed without error only when it is empty.  With an
    entity, the call does not return, whatever the recursion limit: the
    lookup of the entity in the old reverse index raises [KeyError] when
    the loop reaches the cluster, and what the call raises is not the
    recursion error when the limit is at least the number of clusters.
    Without entities, the cluster is a component of its own with no old
    cluster, its matrix is the single cost of the artificial column, and
    the iteration changes neither [assigned] nor [unassigned]. *)
Theorem fresh_cluster k n :
  NoDup (keys new_clusters) →
  (k, n) ∈ new_clusters →
  (∀ e g va, e ∈ n → (g, va) ∈ old_clusters → e ∉ va) →
  (n ≠ [] →
   (∃ err, cluster_assignment recursion_limit munkres_compute old_clusters
             new_clusters similarity_function claims rejected = Raise err ∧
           (cluster_count old_clusters new_clusters ≤ recursion_limit →
            err ≠ RecursionError)) ∧
   (∀ pre post s,
      loop_reaches recursion_limit munkres_compute old_clusters new_clusters
                   similarity_function claims rejected pre k n post s →
      cluster_assignment recursion_limit munkres_compute
        old_clusters new_clusters
        similarity_function claims rejected = Raise KeyError)) ∧
  (n = [] →
   ∀ fuel a u ov nv c,
     dict_get nv k = Some false →
     similarity_function [] [] [] [] = inr c →
     discover (X:=X) old_clusters new_clusters fuel k n ov nv
       = Ok ([k], [], dict_set nv k true, ov) ∧
     build_cost_matrix old_clusters new_clusters similarity_function
                       claims rejected [k] [] = Ok [[c]] ∧
     component_step munkres_compute old_clusters new_clusters
                    similarity_function claims rejected fuel
                    (a, u, ov, nv) (k, n)
       = Ok (a, u, ov, dict_set nv k true)).
Proof using solver.
  intros Hnd Hkn Hfresh.
  pose proof (dict_get_elem_NoDup _ _ _ Hnd Hkn) as Hget.
  split.
  - intros Hne.
    assert (∀ pre post s,
      loop_reaches recursion_limit munkres_compute old_clusters new_clusters
                   similarity_function claims rejected pre k n post s →
      cluster_assignment recursion_limit munkres_compute
        old_clusters new_clusters
        similarity_function claims rejected = Raise KeyError) as Hreach.
    { intros pre post [[[a u] ov] nv] Hloop.
      pose proof (fresh_cluster_pending _ _ _ _ _ _ _ _ Hnd Hfresh Hloop)
        as Hpending.
      destruct Hloop as [Hnew Hpre].
      unfold cluster_assignment.
      rewrite (main_loop_split _ _ _ _ _ _ _ _ _ _ _ _ Hnew), Hpre. simpl.
      unfold discover, dict_lookup. rewrite Hpending. simpl.
      destruct n as [|e n']; [done|]. simpl.
      rewrite (reverse_index_None old_clusters e); [done|].
      intros g va ?. apply (Hfresh e g va); [by left | done]. }
    split; [|done].
    apply list_elem_of_split in Hkn as (pre & post & Hnew).
    destruct (main_loop munkres_compute old_clusters new_clusters
                similarity_function claims rejected recursion_limit pre
                (initial_state old_clusters new_clusters))
      as [s|err] eqn:Hpre.
    + exists KeyError. split; [|done]. by apply (Hreach pre post s).
    + exists err.
      assert (cluster_assignment recursion_limit munkres_compute
                old_clusters new_clusters similarity_function claims
                rejected = Raise err) as Hrun.
      { unfold cluster_assignment.
        by rewrite (main_loop_split _ _ _ _ _ _ _ _ _ _ _ _ Hnew), Hpre. }
      split; [done|]. intros Hlimit ->.
      by apply (cluster_assignment_within_depth recursion_limit
                  munkres_compute old_clusters new_clusters
                  similarity_function claims rejected Hlimit).
  - intros -> fuel a u ov nv c Hpending Hcost.
    assert (discover (X:=X) old_clusters new_clusters fuel k [] ov nv
            = Ok ([k], [], dict_set nv k true, ov)) as Hdisc.
    { unfold discover, dict_lookup. by rewrite Hpending. }
    assert (build_cost_matrix old_clusters new_clusters similarity_function
              claims rejected [k] [] = Ok [[c]]) as HM.
    { unfold build_cost_matrix, cost_row, enumerate, dict_lookup,
        call_similarity. simpl. rewrite Hget. simpl. by rewrite Hcost. }
    split_and!; [done | done |].
    unfold component_step. rewrite Hdisc. simpl.
    unfold solve_component. rewrite HM. simpl.
    destruct (solver [[c]] 1) as (Hrows & _ & _); [done | | done |].
    { by repeat constructor. }
    simpl in Hrows. apply Permutation_singleton_r in Hrows.
    destruct (munkres_compute [[c]]) as [|[i j] [|? ?]]; try done.
    injection Hrows as ->. simpl.
    unfold dict_lookup. rewrite Hget. done.
Qed.
End FreshClusters.

(** ** The reference solver *)

Lemma column_choices_sound rows :
  ∀ used cols c,
    (cols, c) ∈ column_choices rows used →
    Forall2 (λ j row, j < length row) cols rows ∧
    NoDup cols ∧ ∀ j, j ∈ cols → j ∉ used.
Proof.
  induction rows as [|row rows IH]; intros used cols c; simpl.
  - intros [= -> ->]%list_elem_of_singleton. split_and!.
    + constructor.
    + constructor.
    + by intros j ?%elem_of_nil.
  - intros (j & Hin & [Hj [_ Hlt]%elem_of_seq]%list_elem_of_filter)
      %list_elem_of_bind.
    apply list_elem_of_bind in Hin as ([cols' c'] & Hin & Hrec).
    apply list_elem_of_singleton in Hin as [= -> ->].
    apply IH in Hrec as (Hall & Hnd & Hused). split_and!.
    + constructor; [simpl in Hlt; lia | done].
    + apply NoDup_cons. split; [|done].
      intros Hj'. apply (Hused j Hj'). by left.
    + intros j' [->|Hj']%elem_of_cons; [done|].
      intros ?. apply (Hused j' Hj'). by right.
Qed.

Lemma column_choices_cost rows :
  ∀ used cols c,
    (cols, c) ∈ column_choices rows used → c = choice_cost rows cols.
Proof.
  induction rows as [|row rows IH]; intros used cols c; simpl.
  - by intros [= -> ->]%list_elem_of_singleton.
  - intros (j & Hin & _)%list_elem_of_bind.
    apply list_elem_of_bind in Hin as ([cols' c'] & Hin & Hrec).
    apply list_elem_of_singleton in Hin as [= -> ->].
    simpl. by rewrite (IH _ _ _ Hrec).
Qed.

Lemma column_choices_complete rows cols :
  Forall2 (λ j row, j < length row) cols rows →
  ∀ used,
    NoDup cols → (∀ j, j ∈ cols → j ∉ used) →
    (cols, choice_cost rows cols) ∈ column_choices rows used.
Proof.
  induction 1 as [|j row cols rows Hj _ IH]; intros used Hnd Hused; simpl.
  - by left.
  - apply NoDup_cons in Hnd as [Hjcols Hnd].
    apply list_elem_of_bind. exists j. split.
    + apply list_elem_of_bind. exists (cols, choice_cost rows cols).
      split; [by left|]. apply IH; [done|].
      intros j' Hj' [->|Hin]%elem_of_cons; [done|].
      apply (Hused j'); [by right | done].
    + apply list_elem_of_filter. split.
      * apply Hused. by left.
      * apply elem_of_seq. lia.
Qed.

Lemma first_min_le l :
  ∀ best y, y ∈ best :: l → ((first_min best l).2 ≤ y.2)%Z.
Proof.
  induction l as [|x l IH]; intros best y; simpl.
  - intros ->%list_elem_of_singleton. lia.
  - intros Hy.
    destruct (decide (x.2 < best.2)%Z) as [Hlt|Hge].
    + apply elem_of_cons in Hy as [->|[->|Hy]%elem_of_cons].
      * pose proof (IH x x ltac:(by left)). lia.
      * apply IH. by left.
      * apply IH. by right.
    + apply elem_of_cons in Hy as [->|[->|Hy]%elem_of_cons].
      * apply IH. by left.
      * pose proof (IH best best ltac:(by left)). lia.
      * apply IH. by right.
Qed.

Lemma fresh_column used w :
  length used < w → ∃ j, j ∈ seq 0 w ∧ j ∉ used.
Proof.
  intros Hlt.
  destruct (decide (Forall (λ j, j ∈ used) (seq 0 w))) as [Hall|Hex].
  - assert (length (seq 0 w) ≤ length used) as Hle.
    { apply submseteq_length, NoDup_submseteq; [apply NoDup_seq|].
      by apply Forall_forall. }
    rewrite length_seq in Hle. lia.
  - apply not_Forall_Exists in Hex; [|apply _].
    apply Exists_exists in Hex as (j & ? & ?). by exists j.
Qed.

Lemma column_choices_nonempty w rows :
  ∀ used,
    Forall (λ row, length row = w) rows →
    length rows + length used ≤ w →
    column_choices rows used ≠ [].
Proof.
  induction rows as [|row rows IH]; intros used Hrows Hlen; simpl; [done|].
  apply Forall_cons in Hrows as [Hrow Hrows]. simpl in Hlen.
  destruct (fresh_column used w ltac:(lia)) as (j & Hj & Hfresh).
  specialize (IH (j :: used) Hrows ltac:(simpl; lia)).
  destruct (column_choices rows (j :: used)) as [|[cols c] l] eqn:Hcc;
    [done|].
  intros Hnil.
  assert ((j :: cols, (default 0 (row !! j) + c)%Z)
            ∈ @nil (list nat * Z)) as Hin; [|by apply elem_of_nil in Hin].
  rewrite <-Hnil. apply list_elem_of_bind. exists j. split.
  - apply list_elem_of_bind. exists (cols, c). split; [by left|].
    rewrite Hcc. by left.
  - apply list_elem_of_filter. split; [done|]. by rewrite Hrow.
Qed.

Lemma first_min_elem l : ∀ best, first_min best l ∈ best :: l.
Proof.
  induction l as [|x l IH]; intros best; simpl; [by left|].
  specialize (IH (if decide (x.2 < best.2)%Z then x else best)).
  destruct (decide (x.2 < best.2)%Z);
    apply elem_of_cons in IH as [->|?];
    rewrite !elem_of_cons; auto.
Qed.

Lemma best_columns_choice w M :
  Forall (λ row, length row = w) M → length M ≤ w →
  ∃ c, (best_columns M, c) ∈ column_choices M [] ∧
       ∀ cols c', (cols, c') ∈ column_choices M [] → (c ≤ c')%Z.
Proof.
  intros Hrows Hlen. unfold best_columns.
  pose proof (column_choices_nonempty w M [] Hrows ltac:(simpl; lia)) as Hcc.
  destruct (column_choices M []) as [|x l] eqn:Heq; [done|].
  exists (first_min x l).2. split.
  - rewrite <-surjective_pairing. apply first_min_elem.
  - intros cols c' Hin. by apply (first_min_le l x (cols, c')).
Qed.

(** The exhaustive search meets what is asked of the solver. *)
Lemma exhaustive_assignment_ok : solver_ok exhaustive_assignment.
Proof.
  intros M w Hne Hrows Hlen. unfold exhaustive_assignment.
  destruct (best_columns_choice w M Hrows Hlen) as (c & Hin & _).
  apply column_choices_sound in Hin as (Hall & Hnd & _).
  pose proof (Forall2_length _ _ _ Hall) as Hlencols.
  split_and!.
  - by rewrite fst_zip by (rewrite length_seq; lia).
  - by rewrite snd_zip by (rewrite length_seq; lia).
  - rewrite snd_zip by (rewrite length_seq; lia).
    apply Forall_forall. intros j Hj. apply Forall_forall. intros row Hrow.
    apply list_elem_of_lookup in Hj as [i Hi].
    destruct (Forall2_lookup_l _ _ _ _ _ Hall Hi) as (row' & Hrow' & Hlt).
    rewrite Forall_forall in Hrows.
    rewrite (Hrows row Hrow).
    rewrite <-(Hrows row'); [done|]. by eapply list_elem_of_lookup_2.
Qed.

(** The exhaustive search is optimal: no choice of pairwise distinct
    columns, one per row, costs less than the one it returns. *)
Lemma exhaustive_assignment_optimal w M cols :
  Forall (λ row, length row = w) M → length M ≤ w →
  Forall2 (λ j row, j < length row) cols M → NoDup cols →
  (choice_cost M (best_columns M) ≤ choice_cost M cols)%Z.
Proof.
  intros Hrows Hlen Hcols Hnd.
  destruct (best_columns_choice w M Hrows Hlen) as (c & Hin & Hmin).
  rewrite <-(column_choices_cost _ _ _ _ Hin).
  apply (Hmin cols). apply column_choices_complete; [done | done |].
  intros j _. apply not_elem_of_nil.
Qed.

(** ** The test suite *)

Example test_empty_matching :
  Tests.run [] [] Tests.simple_cost [] [] = Ok ([], []).
Proof. reflexivity. Qed.

Example test_matching_without_entities :
  Tests.run [(1, []); (2, [2; 3; 4])]%Z [(1, [2; 3; 4])]%Z
            Tests.simple_cost [] []
  = Ok ([(1, []); (2, [2; 3; 4])]%Z, []).
Proof. vm_compute. reflexivity. Qed.

Example test_intersection_matching :
  Tests.run [(1, [1]); (2, [2; 3])]%Z [(1, [1; 2; 3])]%Z
            Tests.intersection_cost [] []
  = Ok ([(1, []); (2, [1; 2; 3])]%Z, []).
Proof. vm_compute. reflexivity. Qed.

Example test_reversed_intersection_matching :
  Tests.run [(1, [1]); (2, [2; 3])]%Z [(1, [1; 2; 3])]%Z
            Tests.weird_cost [] []
  = Ok ([(1, [1; 2; 3]); (2, [])]%Z, []).
Proof. vm_compute. reflexivity. Qed.

Example test_claimed_paper :
  Tests.run Tests.paper_old Tests.paper_new Tests.intersection_cost
            [(1, [2])]%Z []
  = Ok ([(1, [1; 2]); (2, [3])]%Z, []).
Proof. vm_compute. reflexivity. Qed.

Example test_rejected_paper :
  Tests.run Tests.paper_old Tests.paper_new Tests.intersection_cost
            [] [(2, [2])]%Z
  = Ok ([(1, [1; 2]); (2, [3])]%Z, []).
Proof. vm_compute. reflexivity. Qed.

Example test_disconnected_graph :
  Tests.run Tests.disconnected_old Tests.disconnected_new
            Tests.simple_cost [] []
  = Ok ([(1, [9; 11]); (2, [10]); (3, [12; 14]); (4, [13])]%Z, []).
Proof. vm_compute. reflexivity. Qed.

Example test_additional_old_clusters :
  Tests.run [(1, [1; 2; 3])]%Z [(1, [1]); (2, [2]); (3, [3])]%Z
            Tests.simple_cost [] []
  = Ok ([(1, [1])]%Z, [[2]; [3]]%Z).
Proof. vm_compute. reflexivity. Qed.

(** ** The recursion limit *)

(** The chain of three old and three new clusters nests five calls of
    [graph_traversal]: the call returns under a recursion limit of 5 and
    raises the recursion error under a limit of 4. *)
Example chain_within_limit :
  cluster_assignment 5 exhaustive_assignment Tests.chain_old Tests.chain_new
                     Tests.simple_cost [] []
  = Ok ([(1, [1]); (2, [2; 3]); (3, [4; 5])]%Z, []).
Proof. vm_compute. reflexivity. Qed.

Example chain_beyond_limit :
  cluster_assignment 4 exhaustive_assignment Tests.chain_old Tests.chain_new
                     Tests.simple_cost [] []
  = Raise RecursionError.
Proof. vm_compute. reflexivity. Qed.

(** ** Instances of the theorems *)

Ltac by_computation := apply (bool_decide_unpack _); vm_compute; exact I.

Lemma no_entity_loss_witness :
  solver_ok exhaustive_assignment ∧
  NoDup (keys Tests.disconnected_new) ∧
  Tests.run Tests.disconnected_old Tests.disconnected_new
            Tests.simple_cost [] []
    = Ok ([(1, [9; 11]); (2, [10]); (3, [12; 14]); (4, [13])]%Z, []) ∧
  concat (values [(1, [9; 11]); (2, [10]); (3, [12; 14]); (4, [13])]%Z)
    ++ concat []
    ≡ₚ concat (values Tests.disconnected_new).
Proof.
  assert (NoDup (keys Tests.disconnected_new)) as Hnd by by_computation.
  assert (Tests.run Tests.disconnected_old Tests.disconnected_new
            Tests.simple_cost [] []
          = Ok ([(1, [9; 11]); (2, [10]); (3, [12; 14]); (4, [13])]%Z, []))
    as Hrun by (vm_compute; reflexivity).
  split_and!; [apply exhaustive_assignment_ok | done | done |].
  exact (no_entity_loss Tests.recursion_limit exhaustive_assignment
           Tests.disconnected_old
           Tests.disconnected_new Tests.simple_cost [] []
           exhaustive_assignment_ok _ _ Hnd Hrun).
Defined.

(** A partition whose entities are pairwise distinct is disjoint. *)
Lemma NoDup_concat_disjoint {K E} (clusters : dict K (list E)) :
  NoDup (concat (values clusters)) → disjoint_clusters clusters.
Proof.
  unfold values.
  induction clusters as [|c cl IH]; intros Hnd i j c1 c2 e Hi Hj H1 H2.
  { by rewrite lookup_nil in Hi. }
  rewrite fmap_cons in Hnd. simpl in Hnd.
  apply NoDup_app in Hnd as (_ & Hdisj & Hnd).
  assert (∀ m c', cl !! m = Some c' → e ∈ c'.2 → e ∈ concat cl.*2) as Hin.
  { intros m c' Hm He.
    apply list_elem_of_In, in_concat. exists c'.2. split.
    - apply list_elem_of_In, list_elem_of_fmap. exists c'.
      split; [done|]. by eapply list_elem_of_lookup_2.
    - by apply list_elem_of_In. }
  destruct i as [|i], j as [|j]; simpl in *.
  - done.
  - injection Hi as <-. exfalso. eapply Hdisj; eauto.
  - injection Hj as <-. exfalso. eapply Hdisj; eauto.
  - f_equal. by eapply IH.
Qed.

Lemma old_keys_preserved_witness :
  solver_ok exhaustive_assignment ∧
  NoDup (keys [(1, []); (2, [2; 3; 4])]%Z) ∧
  Tests.run [(1, []); (2, [2; 3; 4])]%Z [(1, [2; 3; 4])]%Z
            Tests.simple_cost [] []
    = Ok ([(1, []); (2, [2; 3; 4])]%Z, []) ∧
  keys [(1, []); (2, [2; 3; 4])]%Z = keys [(1, []); (2, [2; 3; 4])]%Z ∧
  ∀ g va,
    dict_get [(1, []); (2, [2; 3; 4])]%Z g = Some va →
    (∀ c l e, (c, l) ∈ [(1, [2; 3; 4])]%Z → e ∈ l → e ∉ va) →
    dict_get [(1, []); (2, [2; 3; 4])]%Z g = Some [].
Proof.
  assert (NoDup (keys [(1, @nil Z); (2, [2; 3; 4])]%Z)) as Hnd
    by by_computation.
  assert (Tests.run [(1, []); (2, [2; 3; 4])]%Z [(1, [2; 3; 4])]%Z
            Tests.simple_cost [] []
          = Ok ([(1, []); (2, [2; 3; 4])]%Z, []))
    as Hrun by (vm_compute; reflexivity).
  refine (conj exhaustive_assignment_ok (conj Hnd (conj Hrun _))).
  exact (old_keys_preserved Tests.recursion_limit exhaustive_assignment
           _ _ Tests.simple_cost [] []
           exhaustive_assignment_ok _ _ Hnd Hrun).
Defined.

(** The counterexample to claim dominance as worded: the old cluster 2
    claims the entity 5 of the old cluster 1, and 5 lands in
    [assigned[1]]. *)
Lemma claim_dominance_counterexample :
  ¬ claim_dominance_as_stated Tests.recursion_limit exhaustive_assignment
      [(1, [5]); (2, [])]%Z [(1, [5])]%Z Tests.simple_cost
      [(2, [5])]%Z [].
Proof.
  intros Hclaim.
  destruct (Hclaim 2%Z [5%Z] 5%Z 1%Z [5%Z])
    as (assigned & unassigned & la & Hrun & Hla & Hin).
  - reflexivity.
  - by left.
  - by left.
  - by left.
  - vm_compute in Hrun. injection Hrun as <- <-.
    vm_compute in Hla. injection Hla as <-.
    by apply elem_of_nil in Hin.
Qed.

Lemma claim_dominance_witness :
  ∃ la, dict_get [(1, [1; 2]); (2, [3])]%Z 1%Z = Some la ∧ 2%Z ∈ la.
Proof.
  refine (claim_dominance Tests.recursion_limit exhaustive_assignment
            Tests.paper_old
            Tests.paper_new Tests.intersection_cost [(1, [2])]%Z []
            exhaustive_assignment_ok
            [(1, [1; 2]); (2, [3])]%Z [] 1%Z [2%Z] [1; 2]%Z 2%Z [2; 3]%Z 2%Z
            _ _ _ _ _ _ _ _ _).
  - by_computation.
  - apply NoDup_concat_disjoint. by_computation.
  - reflexivity.
  - by_computation.
  - by_computation.
  - by_computation.
  - by_computation.
  - by_computation.
  - vm_compute. reflexivity.
Defined.

Lemma claimed_entity_routing_witness :
  ∃ g va la,
    dict_get (reversed_old Tests.paper_old) 2%Z = Some g ∧
    (g, va) ∈ Tests.paper_old ∧ 2%Z ∈ va ∧
    dict_get [(1, [1; 2]); (2, [3])]%Z g = Some la ∧ 2%Z ∈ la ∧
    ∀ t, t ∈ @nil (list Z) → 2%Z ∉ t.
Proof.
  refine (proj2 (claimed_entity_routing
            Tests.recursion_limit exhaustive_assignment
            Tests.paper_old
            Tests.paper_new Tests.intersection_cost [(1, [2])]%Z []
            exhaustive_assignment_ok 2%Z [2; 3]%Z 2%Z _ _ _)
          [(1, [1; 2]); (2, [3])]%Z [] _ _).
  - by_computation.
  - by_computation.
  - by_computation.
  - by_computation.
  - vm_compute. reflexivity.
Defined.

(** In [test_rejected_paper] the solver pairs the new cluster 2 with the
    old cluster 2. *)
Lemma rejected_paper_pairs :
  solver_pairs Tests.recursion_limit exhaustive_assignment
               Tests.paper_old Tests.paper_new
               Tests.intersection_cost [] [(2, [2])]%Z 2%Z 2%Z.
Proof.
  exists [1; 2]%Z, [1; 2]%Z, [[-1; 0; 0; 0]; [-1; -1; 0; 0]]%Z, 1, 1.
  split_and!.
  - exists [], 1%Z, [1%Z], [(2, [2; 3])]%Z.
    do 6 eexists.
    split; [split; [reflexivity | vm_compute; reflexivity]
          | vm_compute; reflexivity].
  - vm_compute. reflexivity.
  - by_computation.
  - reflexivity.
  - reflexivity.
Qed.

Lemma rejection_redirect_witness :
  (∃ la, dict_get [(1, [1; 2]); (2, [3])]%Z 1%Z = Some la ∧ 2%Z ∈ la) ∧
  (∀ lt, dict_get [(1, [1; 2]); (2, [3])]%Z 2%Z = Some lt → 2%Z ∉ lt).
Proof.
  refine (rejection_redirect Tests.recursion_limit exhaustive_assignment
            Tests.paper_old
            Tests.paper_new Tests.intersection_cost [] [(2, [2])]%Z
            exhaustive_assignment_ok
            2%Z [2; 3]%Z 2%Z 1%Z 2%Z [1; 2]%Z
            [(1, [1; 2]); (2, [3])]%Z [] _ _ _ _ _ _ _
            rejected_paper_pairs _ _ _).
  - by_computation.
  - apply NoDup_concat_disjoint. by_computation.
  - by_computation.
  - by_computation.
  - by_computation.
  - reflexivity.
  - by_computation.
  - by_computation.
  - done.
  - vm_compute. reflexivity.
Defined.

(** The counterexample to the rejection redirect as worded: the old
    cluster 1 holds the entity 5 and rejects it, the solver pairs the new
    cluster of 5 with the old cluster 1, and 5 stays in [assigned[1]]. *)
Lemma rejection_redirect_counterexample :
  ¬ rejection_redirect_as_stated Tests.recursion_limit exhaustive_assignment
      [(1, [5])]%Z [(1, [5])]%Z Tests.intersection_cost [] [(1, [5])]%Z.
Proof.
  intros Hclaim.
  destruct (Hclaim 1%Z [5%Z] 5%Z 1%Z 1%Z [5%Z] [(1, [5])]%Z [])
    as [_ Hnot].
  - by left.
  - by left.
  - by_computation.
  - reflexivity.
  - by left.
  - exists [1%Z], [1%Z], [[-1; 0]]%Z, 0, 0. split_and!.
    + exists [], 1%Z, [5%Z], [].
      do 6 eexists.
      split; [split; [reflexivity | vm_compute; reflexivity]
            | vm_compute; reflexivity].
    + vm_compute. reflexivity.
    + by_computation.
    + reflexivity.
    + reflexivity.
  - by_computation.
  - vm_compute. reflexivity.
  - apply (Hnot [5%Z]); [reflexivity | by left].
Qed.

(** The resolver takes a column for artificial when it is not below the
    number of all old clusters. *)
Lemma leftover_threshold {K E X} `{EqDecision K} `{EqDecision E}
    (old_clusters claims rejected : dict K (list E))
    current_old old assigned to_new_cluster sig :
  sig ∉ claims_set claims →
  length old_clusters ≤ old →
  resolve_sig (X:=X) old_clusters claims rejected current_old old
              (assigned, to_new_cluster) sig
  = Ok (assigned, to_new_cluster ++ [sig]).
Proof.
  intros Hcl Hge. unfold resolve_sig.
  rewrite decide_False by done. by rewrite decide_False by lia.
Qed.

(** An artificial column of a component that is below the number of all
    old clusters is taken for an old cluster of the component, and an
    unclaimed entity of the new cluster raises [IndexError]. *)
Lemma artificial_column_below_threshold {K E X} `{EqDecision K}
    `{EqDecision E} (old_clusters claims rejected : dict K (list E))
    current_old old assigned to_new_cluster sig :
  sig ∉ claims_set claims →
  length current_old ≤ old →
  old < length old_clusters →
  resolve_sig (X:=X) old_clusters claims rejected current_old old
              (assigned, to_new_cluster) sig
  = Raise IndexError.
Proof.
  intros Hcl Hge Hlt. unfold resolve_sig, list_index.
  rewrite decide_False by done. rewrite decide_True by done.
  by rewrite lookup_ge_None_2 by lia.
Qed.

(** C6: the failing input.  Two old clusters and two new clusters make two
    components of one old and one new cluster each.  With the cost
    [len(old_cluster)] the matrix of the first is [[1, 0]] and the solver
    pairs the new cluster with column 1, the artificial column of the
    component; line 177 compares the column with [len(old_clusters)], which
    is 2, takes it for an old cluster, and [current_old[1]] raises
    [IndexError]. *)
Theorem dummy_column_taken_for_old_cluster :
  discovers Tests.recursion_limit exhaustive_assignment [(1, [1]); (2, [2])]%Z
            [(1, [1]); (2, [2])]%Z Tests.size_cost [] [] [1%Z] [1%Z] ∧
  build_cost_matrix [(1, [1]); (2, [2])]%Z [(1, [1]); (2, [2])]%Z
                    Tests.size_cost [] [] [1%Z] [1%Z] = Ok [[1; 0]]%Z ∧
  exhaustive_assignment [[1; 0]]%Z = [(0, 1)] ∧
  Tests.run [(1, [1]); (2, [2])]%Z [(1, [1]); (2, [2])]%Z
            Tests.size_cost [] [] = Raise IndexError.
Proof.
  split_and!.
  - exists [], 1%Z, [1%Z], [(2, [2])]%Z.
    do 6 eexists.
    split; [split; [reflexivity | vm_compute; reflexivity]
          | vm_compute; reflexivity].
  - vm_compute. reflexivity.
  - vm_compute. reflexivity.
  - vm_compute. reflexivity.
Qed.

(** The counterexample to the handling of new clusters without old
    entities as worded: with no old cluster and the new cluster [[5]] the
    call raises [KeyError]. *)
Lemma fresh_cluster_counterexample :
  ¬ fresh_cluster_as_stated Tests.recursion_limit exhaustive_assignment
      [] [(1, [5])]%Z Tests.simple_cost [] [].
Proof.
  intros Hclaim.
  destruct (Hclaim 1%Z [5%Z]) as (assigned & unassigned & Hrun & _).
  - by left.
  - by intros e g va _ ?%elem_of_nil.
  - vm_compute in Hrun. discriminate Hrun.
Qed.

Lemma fresh_cluster_witness :
  Tests.run [] [(1, [5])]%Z Tests.simple_cost [] [] = Raise KeyError.
Proof.
  refine (proj2 (proj1 (fresh_cluster
                          Tests.recursion_limit exhaustive_assignment
                          [] [(1, [5])]%Z
                          Tests.simple_cost [] [] exhaustive_assignment_ok
                          1%Z [5%Z] _ _ _) _)
                [] [] (initial_state [] [(1, [5])]%Z) _).
  - by_computation.
  - by left.
  - by intros e g va _ ?%elem_of_nil.
  - done.
  - split; reflexivity.
Defined.

(** The counterexample to the failure on foreign keys as worded: a claim
    under the key 7, with no old cluster at all, and the call returns. *)
Lemma foreign_keys_counterexample :
  ¬ foreign_keys_rejected_as_stated Tests.recursion_limit exhaustive_assignment
      [] [] Tests.simple_cost [(7, [1])]%Z [].
Proof.
  intros Hclaim. destruct Hclaim as [err Hrun].
  - exists 7%Z. split; [left; by left | by apply not_elem_of_nil].
  - vm_compute in Hrun. discriminate Hrun.
Qed.

Lemma overrides_read_at_old_keys_witness :
  Tests.run Tests.paper_old Tests.paper_new Tests.intersection_cost
            [(1, [2]); (7, [2])]%Z [(9, [1])]%Z
  = Tests.run Tests.paper_old Tests.paper_new Tests.intersection_cost
              [(1, [2])]%Z [].
Proof.
  refine (overrides_read_at_old_keys Tests.recursion_limit exhaustive_assignment
            Tests.paper_old
            Tests.paper_new Tests.intersection_cost
            [(1, [2]); (7, [2])]%Z [(9, [1])]%Z [(1, [2])]%Z [] _ _ _).
  - intros e. change (e ∈ [2; 2]%Z ↔ e ∈ [2]%Z).
    rewrite !elem_of_cons, !elem_of_nil. tauto.
  - intros g [->|[->|[]%elem_of_nil]%elem_of_cons]%elem_of_cons;
      reflexivity.
  - intros g [->|[->|[]%elem_of_nil]%elem_of_cons]%elem_of_cons;
      reflexivity.
Defined.


(** * The store: what a call leaves untouched *)

Module HeapFacts.
Import Heap.

Section Frame.
Context {K E X : Type} `{EqDecision K} `{EqDecision E}.
Variable n0 : nat.

Abbreviation heap := (list (obj K E)).
Abbreviation M := (hm K E X).
Implicit Types (h : heap) (I : heap → Prop).

Lemma store_extends_refl h : extends n0 h h.
Proof.
  split_and!; try done.
  intros l ls Hl. exists []. by rewrite app_nil_r.
Qed.

Lemma store_extends_trans h1 h2 h3 :
  extends n0 h1 h2 → extends n0 h2 h3 → extends n0 h1 h3.
Proof.
  intros (Hlen1 & Hlow1 & Hdict1 & Hlists1) (Hlen2 & Hlow2 & Hdict2 & Hlists2).
  split_and!.
  - lia.
  - intros l Hl. by rewrite Hlow2, Hlow1.
  - intros l d Hd. auto.
  - intros l ls Hl.
    destruct (Hlists1 l ls Hl) as (ls1 & Hl1 & Hnew1).
    destruct (Hlists2 l _ Hl1) as (ls2 & Hl2 & Hnew2).
    exists (ls1 ++ ls2). rewrite app_assoc. split; [done|].
    by apply Forall_app.
Qed.

Lemma store_extends_alloc h o : n0 ≤ length h → extends n0 h (h ++ [o]).
Proof.
  intros Hn0.
  assert (∀ l x, h !! l = Some x → (h ++ [o]) !! l = Some x) as Hkeep.
  { intros l x Hl. rewrite lookup_app_l; [done|]. by eapply lookup_lt_Some. }
  split_and!.
  - rewrite length_app. lia.
  - intros l Hl. by rewrite lookup_app_l by lia.
  - intros l d Hd. auto.
  - intros l ls Hl. exists []. rewrite app_nil_r. auto.
Qed.

Lemma store_extends_app h new : n0 ≤ length h → extends n0 h (h ++ new).
Proof.
  intros Hn0. split_and!.
  - rewrite length_app. lia.
  - intros l Hl. by rewrite lookup_app_l by lia.
  - intros l d Hd. rewrite lookup_app_l; [done|]. by eapply lookup_lt_Some.
  - intros l ls Hl. exists []. rewrite app_nil_r.
    split; [|done]. rewrite lookup_app_l; [done|]. by eapply lookup_lt_Some.
Qed.

Lemma store_extends_update h l o o' :
  n0 ≤ l → h !! l = Some o → safe_update n0 o o' →
  extends n0 h (<[l := o']> h).
Proof.
  intros Hn0 Hl Hsafe. split_and!.
  - by rewrite length_insert.
  - intros l' Hl'. rewrite list_lookup_insert_ne by lia. done.
  - intros l' d Hd. destruct (decide (l = l')) as [<-|].
    + rewrite Hl in Hd. injection Hd as ->. done.
    + by rewrite list_lookup_insert_ne.
  - intros l' ls Hls. destruct (decide (l = l')) as [<-|].
    + rewrite Hl in Hls. injection Hls as ->.
      destruct Hsafe as (new & -> & Hnew). exists new.
      rewrite list_lookup_insert_eq by (by eapply lookup_lt_Some). done.
    + rewrite list_lookup_insert_ne by done. exists [].
      by rewrite app_nil_r.
Qed.

(** ** Rules *)

Lemma framed_ret {A} I (a : A) (φ : A → Prop) :
  φ a → framed (X:=X) n0 I (mret a) φ.
Proof.
  intros Ha h _ _. split; [apply store_extends_refl|]. by intros a' [= <-].
Qed.

Lemma framed_lift {A} I (r : res X A) (φ : A → Prop) :
  (∀ a, r = Ok a → φ a) → framed n0 I (lift r) φ.
Proof. intros Hr h _ _. split; [apply store_extends_refl | done]. Qed.

Lemma framed_get {A} I (as_type : obj K E → option A) l :
  framed (X:=X) n0 I (get as_type l) (λ _, True).
Proof. intros h _ _. split; [apply store_extends_refl | done]. Qed.

Lemma framed_alloc I o : framed (X:=X) n0 I (alloc o) (λ l, n0 ≤ l).
Proof.
  intros h Hn0 _. split; [by apply store_extends_alloc|].
  simpl. intros a [= <-]. done.
Qed.

Lemma framed_modify I f l :
  n0 ≤ l → (∀ o o', f o = Some o' → safe_update n0 o o') →
  framed (X:=X) n0 I (modify f l) (λ _, True).
Proof.
  intros Hl Hf h _ _. split; [|done]. unfold modify.
  destruct (h !! l) as [o|] eqn:Ho; simpl; [|apply store_extends_refl].
  destruct (f o) as [o'|] eqn:Ho'; simpl; [|apply store_extends_refl].
  eapply store_extends_update; eauto.
Qed.

Lemma framed_weaken {A} I (m : M A) (φ ψ : A → Prop) :
  framed n0 I m φ → (∀ a, φ a → ψ a) → framed n0 I m ψ.
Proof.
  intros Hm Hφ h Hn0 HI. destruct (Hm h Hn0 HI) as [Hext Hres].
  split; [done | auto].
Qed.

Lemma framed_bind {A B} I (m : M A) (f : A → M B) (φ : A → Prop)
    (ψ : B → Prop) :
  stable n0 I →
  framed n0 I m φ → (∀ a, φ a → framed n0 I (f a) ψ) →
  framed n0 I (a ← m; f a) ψ.
Proof.
  intros Hstable Hm Hf h Hn0 HI.
  destruct (Hm h Hn0 HI) as [Hext Hres].
  unfold mbind, hm_bind. destruct (m h) as [h' [a|e]]; simpl in *.
  - destruct (Hf a (Hres a eq_refl) h') as [Hext' Hres'].
    + destruct Hext as [? _]. lia.
    + by eapply Hstable.
    + split; [by eapply store_extends_trans | done].
  - done.
Qed.

Lemma framed_for_each {B} I (l : list B) (body : B → M unit) :
  stable n0 I →
  (∀ b, b ∈ l → framed n0 I (body b) (λ _, True)) →
  framed n0 I (for_each l body) (λ _, True).
Proof.
  intros Hstable. induction l as [|b l IH]; intros Hbody; simpl.
  - by apply framed_ret.
  - eapply framed_bind; [done | apply Hbody; by left |].
    intros _ _. apply IH. intros b' ?. apply Hbody. by right.
Qed.

Lemma framed_collect {A B} I (l : list B) (body : B → M A) (φ : A → Prop) :
  stable n0 I →
  (∀ b, b ∈ l → framed n0 I (body b) φ) →
  framed n0 I (collect l body) (Forall φ).
Proof.
  intros Hstable. induction l as [|b l IH]; intros Hbody; simpl.
  - by apply framed_ret.
  - eapply framed_bind; [done | apply Hbody; by left |].
    intros a Ha. eapply framed_bind; [done | |].
    + apply IH. intros b' ?. apply Hbody. by right.
    + intros r Hr. apply framed_ret. by constructor.
Qed.

Lemma framed_fold_each {A B} I (l : list B) (body : A → B → M A)
    (φ : A → Prop) :
  stable n0 I →
  (∀ s b, φ s → b ∈ l → framed n0 I (body s b) φ) →
  ∀ a, φ a → framed n0 I (fold_each l body a) φ.
Proof.
  intros Hstable. induction l as [|b l IH]; intros Hbody a Ha; simpl.
  - by apply framed_ret.
  - eapply framed_bind; [done | apply Hbody; [done | by left] |].
    intros a' Ha'. apply IH; [|done].
    intros s b' ? ?. apply Hbody; [done | by right].
Qed.


(** ** Operations *)

Section Operations.
Variable I : heap → Prop.
Hypothesis I_stable : stable n0 I.

Lemma framed_lift_eq {A} (r : res X A) :
  framed n0 I (lift r) (λ a, r = Ok a).
Proof. by apply framed_lift. Qed.

Lemma framed_list_append l x :
  n0 ≤ l → framed (X:=X) n0 I (list_append l x) (λ _, True).
Proof. intros. apply framed_modify; [done|]. by intros [] o'. Qed.

Lemma framed_keys_append l k :
  n0 ≤ l → framed (X:=X) n0 I (keys_append l k) (λ _, True).
Proof. intros. apply framed_modify; [done|]. by intros [] o'. Qed.

Lemma framed_flags_set l k b :
  n0 ≤ l → framed (X:=X) n0 I (flags_set l k b) (λ _, True).
Proof. intros. apply framed_modify; [done|]. by intros [] o'. Qed.

Lemma framed_lists_append l x :
  n0 ≤ l → n0 ≤ x → framed (X:=X) n0 I (lists_append l x) (λ _, True).
Proof.
  intros Hl Hx. apply framed_modify; [done|].
  intros [] o'; try done. intros [= <-]. exists [x].
  split; [done | by constructor].
Qed.

Lemma framed_row_set l j c :
  n0 ≤ l → framed (X:=X) n0 I (row_set l j c) (λ _, True).
Proof using I_stable.
  intros Hl. unfold row_set.
  eapply framed_bind; [done | apply framed_get |]. intros r _.
  destruct (decide (j < length r)).
  - apply framed_modify; [done|]. by intros [] o'.
  - by apply framed_lift.
Qed.

Lemma framed_subscript d k :
  framed (X:=X) n0 I (subscript d k) (λ _, True).
Proof using I_stable.
  unfold subscript.
  eapply framed_bind; [done | apply framed_get |]. intros entries _.
  by apply framed_lift.
Qed.

Lemma framed_get_or_new d k :
  framed (X:=X) n0 I (get_or_new d k) (λ _, True).
Proof using I_stable.
  unfold get_or_new.
  eapply framed_bind; [done | apply framed_alloc |]. intros empty _.
  eapply framed_bind; [done | apply framed_get |]. intros entries _.
  by apply framed_ret.
Qed.

Lemma framed_reverse_index clusters :
  framed (X:=X) n0 I (Heap.reverse_index clusters) (λ _, True).
Proof using I_stable.
  unfold Heap.reverse_index.
  eapply framed_bind; [done | apply framed_get |]. intros entries _.
  apply framed_fold_each; [done | | done]. intros d kl _ _.
  eapply framed_bind; [done | apply framed_get |]. intros va _.
  by apply framed_ret.
Qed.

Lemma framed_claims_set claims :
  framed (X:=X) n0 I (Heap.claims_set claims) (λ _, True).
Proof using I_stable.
  unfold Heap.claims_set.
  eapply framed_bind; [done | apply framed_get |]. intros entries _.
  eapply framed_bind; [done | |].
  - apply framed_collect with (φ := λ _, True); [done|].
    intros kl _. apply framed_get.
  - intros lists _. by apply framed_ret.
Qed.

Variable recursion_limit : nat.
Variable munkres_compute : matrix → list (nat * nat).
Variable similarity_function : loc → loc → loc → loc → M (X + Z).
(** The cost function changes no object of the store; it may create
    objects. *)
Hypothesis cost_keeps :
  ∀ nc oc cl rj h, ∃ new, (similarity_function nc oc cl rj h).1 = h ++ new.

Lemma framed_call_similarity nc oc cl rj :
  framed n0 I (call_similarity similarity_function nc oc cl rj) (λ _, True).
Proof using I_stable cost_keeps.
  unfold call_similarity.
  eapply framed_bind; [done | |].
  - instantiate (1 := λ _, True). intros h Hn0 _.
    destruct (cost_keeps nc oc cl rj h) as [new ->].
    split; [by apply store_extends_app | done].
  - intros [x|c] _; [by apply framed_lift | by apply framed_ret].
Qed.

(** The traversal writes to the two lists and the two visit maps it is
    given. *)
Lemma framed_graph_traversal fuel :
  ∀ ct co (rt ro : dict E K) tc oc tv ov c,
    n0 ≤ ct → n0 ≤ co → n0 ≤ tv → n0 ≤ ov →
    framed (X:=X) n0 I
      (Heap.graph_traversal fuel ct co rt ro tc oc tv ov c) (λ _, True).
Proof using I_stable.
  induction fuel as [|fuel IH]; intros ct co rt ro tc oc tv ov c ? ? ? ?;
    simpl; [by apply framed_lift|].
  eapply framed_bind; [done | by apply framed_keys_append |]. intros _ _.
  eapply framed_bind; [done | by apply framed_flags_set |]. intros _ _.
  eapply framed_bind; [done | apply framed_subscript |]. intros cluster _.
  eapply framed_bind; [done | apply framed_get |]. intros sigs _.
  apply framed_for_each; [done|]. intros sig _.
  eapply framed_bind; [done | apply framed_lift_eq |]. intros other _.
  eapply framed_bind; [done | apply framed_get |]. intros visited _.
  eapply framed_bind; [done | apply framed_lift_eq |]. intros seen _.
  destruct seen; [by apply framed_ret | by apply IH].
Qed.

Lemma framed_discover old_clusters new_clusters
    (reversed_new reversed_old : dict E K) old_visited new_visited
    fuel current_new current_old k n :
  n0 ≤ old_visited → n0 ≤ new_visited →
  n0 ≤ current_new → n0 ≤ current_old →
  framed (X:=X) n0 I
    (Heap.discover old_clusters new_clusters reversed_new reversed_old
       old_visited new_visited fuel current_new current_old k n)
    (λ _, True).
Proof using I_stable.
  intros ? ? ? ?. unfold Heap.discover.
  eapply framed_bind; [done | apply framed_get |]. intros visited _.
  eapply framed_bind; [done | apply framed_lift_eq |]. intros seen _.
  destruct seen; [by apply framed_ret|].
  eapply framed_bind; [done | by apply framed_keys_append |]. intros _ _.
  eapply framed_bind; [done | by apply framed_flags_set |]. intros _ _.
  eapply framed_bind; [done | apply framed_get |]. intros sigs _.
  apply framed_for_each; [done|]. intros sig _.
  eapply framed_bind; [done | apply framed_lift_eq |]. intros old _.
  eapply framed_bind; [done | apply framed_get |]. intros visited' _.
  eapply framed_bind; [done | apply framed_lift_eq |]. intros seen _.
  destruct seen; [by apply framed_ret | by apply framed_graph_traversal].
Qed.

(** The matrix is made of new rows and only they are written. *)
Lemma framed_build_cost_matrix old_clusters new_clusters claims rejected
    current_new current_old :
  framed (X:=X) n0 I
    (Heap.build_cost_matrix similarity_function old_clusters new_clusters
       claims rejected current_new current_old)
    (Forall (λ l, n0 ≤ l)).
Proof using I_stable cost_keeps.
  unfold Heap.build_cost_matrix.
  eapply framed_bind; [done | |].
  { apply framed_collect with (φ := λ l, n0 ≤ l); [done|].
    intros _ _. apply framed_alloc. }
  intros rows Hrows.
  eapply framed_bind; [done | | intros _ _; by apply framed_ret].
  apply framed_for_each; [done|]. intros [i new] _. simpl.
  eapply framed_bind; [done | apply framed_lift_eq |].
  intros row Hrow%list_index_Ok.
  assert (n0 ≤ row) as Hge.
  { rewrite Forall_forall in Hrows. apply Hrows.
    by eapply list_elem_of_lookup_2. }
  eapply framed_bind; [done | |].
  - apply framed_for_each; [done|]. intros [j old] _. simpl.
    eapply framed_bind; [done | apply framed_subscript |]. intros nc _.
    eapply framed_bind; [done | apply framed_subscript |]. intros oc _.
    eapply framed_bind; [done | apply framed_get_or_new |]. intros cl _.
    eapply framed_bind; [done | apply framed_get_or_new |]. intros rj _.
    eapply framed_bind; [done | apply framed_call_similarity |]. intros c _.
    by apply framed_row_set.
  - intros _ _. apply framed_for_each; [done|]. intros j _.
    eapply framed_bind; [done | apply framed_subscript |]. intros nc _.
    eapply framed_bind; [done | apply framed_alloc |]. intros oc _.
    eapply framed_bind; [done | apply framed_alloc |]. intros cl _.
    eapply framed_bind; [done | apply framed_alloc |]. intros rj _.
    eapply framed_bind; [done | apply framed_call_similarity |]. intros c _.
    by apply framed_row_set.
Qed.


(** ** The resolver and the loop *)

Variable old_clusters new_clusters claims rejected : loc.
Variable assigned unassigned : loc.
Variable lists : dict K loc.
Hypothesis lists_new : Forall (λ kl : K * loc, n0 ≤ kl.2) lists.
Hypothesis unassigned_new : n0 ≤ unassigned.
Hypothesis I_assigned : ∀ h, I h → h !! assigned = Some (ODict lists).

Lemma framed_subscript_assigned o :
  framed (X:=X) n0 I (subscript assigned o) (λ l, n0 ≤ l).
Proof using lists_new I_assigned.
  intros h _ HI. unfold subscript, get, lift, mbind, hm_bind. simpl.
  rewrite (I_assigned h HI). simpl.
  split; [apply store_extends_refl|].
  intros l Hl%dict_lookup_Ok%dict_get_Some_elem.
  rewrite Forall_forall in lists_new. by apply (lists_new (o, l)).
Qed.

Lemma framed_resolve_sig the_claims_set (reversed_old : dict E K)
    current_old old to_new_cluster sig :
  n0 ≤ to_new_cluster →
  framed (X:=X) n0 I
    (Heap.resolve_sig old_clusters rejected assigned the_claims_set
       reversed_old current_old old to_new_cluster sig)
    (λ _, True).
Proof using I_stable lists_new I_assigned.
  intros Hto. unfold Heap.resolve_sig.
  destruct (decide (sig ∈ the_claims_set)).
  { eapply framed_bind; [done | apply framed_lift_eq |]. intros o _.
    eapply framed_bind; [done | apply framed_subscript_assigned |].
    intros target Htarget. by apply framed_list_append. }
  eapply framed_bind; [done | apply framed_get |]. intros olds _.
  destruct (decide (old < length olds)); [|by apply framed_list_append].
  eapply framed_bind; [done | apply framed_lift_eq |]. intros g _.
  eapply framed_bind; [done | by apply framed_get_or_new |].
  intros rejections _.
  eapply framed_bind; [done | apply framed_get |]. intros rj _.
  destruct (decide (sig ∈ rj)).
  - eapply framed_bind; [done | apply framed_lift_eq |]. intros o _.
    eapply framed_bind; [done | apply framed_subscript_assigned |].
    intros target Htarget. by apply framed_list_append.
  - eapply framed_bind; [done | apply framed_subscript_assigned |].
    intros target Htarget. by apply framed_list_append.
Qed.

Lemma framed_resolve_pair the_claims_set (reversed_old : dict E K)
    current_new current_old p :
  framed (X:=X) n0 I
    (Heap.resolve_pair old_clusters new_clusters rejected assigned
       unassigned the_claims_set reversed_old current_new current_old p)
    (λ _, True).
Proof using I_stable lists_new unassigned_new I_assigned.
  unfold Heap.resolve_pair.
  eapply framed_bind; [done | apply framed_alloc |]. intros lt Hlt.
  eapply framed_bind; [done | apply framed_lift_eq |]. intros k _.
  eapply framed_bind; [done | by apply framed_subscript |]. intros cluster _.
  eapply framed_bind; [done | apply framed_get |]. intros sigs _.
  eapply framed_bind; [done | |].
  { apply framed_for_each; [done|]. intros sig _.
    by apply framed_resolve_sig. }
  intros _ _.
  eapply framed_bind; [done | apply framed_get |]. intros leftover _.
  destruct leftover; [by apply framed_ret | by apply framed_lists_append].
Qed.

Lemma framed_component_step the_claims_set (reversed_new reversed_old : dict E K)
    old_visited new_visited fuel s kn :
  n0 ≤ old_visited → n0 ≤ new_visited → n0 ≤ s.1 → n0 ≤ s.2 →
  framed (X:=X) n0 I
    (Heap.component_step munkres_compute similarity_function
       old_clusters new_clusters claims rejected assigned unassigned
       the_claims_set reversed_new reversed_old old_visited new_visited
       fuel s kn)
    (λ s', n0 ≤ s'.1 ∧ n0 ≤ s'.2).
Proof using I_stable lists_new unassigned_new I_assigned cost_keeps.
  intros ? ? ? ?. unfold Heap.component_step.
  eapply framed_bind; [done | by apply framed_discover |]. intros _ _.
  eapply framed_bind; [done | apply framed_get |]. intros current_new _.
  eapply framed_bind; [done | apply framed_get |]. intros current_old _.
  eapply framed_bind; [done | |].
  { instantiate (1 := λ _, True).
    destruct current_new as [|k0 cn0]; [by apply framed_ret|].
    eapply framed_bind; [done | by apply framed_build_cost_matrix |].
    intros rows _.
    eapply framed_bind; [done | |].
    - apply framed_collect with (φ := λ _, True); [done|].
      intros row _. apply framed_get.
    - intros cost_matrix _. apply framed_for_each; [done|].
      intros p _. apply framed_resolve_pair. }
  intros _ _.
  eapply framed_bind; [done | apply framed_alloc |]. intros cn Hcn.
  eapply framed_bind; [done | apply framed_alloc |]. intros co Hco.
  by apply framed_ret.
Qed.

Lemma framed_cluster_assignment_body :
  framed (X:=X) n0 I
    (Heap.cluster_assignment_body recursion_limit munkres_compute
       similarity_function
       old_clusters new_clusters claims rejected assigned unassigned)
    (λ r, r = (assigned, unassigned)).
Proof using I_stable lists_new unassigned_new I_assigned cost_keeps.
  unfold Heap.cluster_assignment_body.
  eapply framed_bind; [done | apply framed_get |]. intros olds _.
  eapply framed_bind; [done | by apply framed_claims_set |]. intros cs _.
  eapply framed_bind; [done | by apply framed_reverse_index |].
  intros rn _.
  eapply framed_bind; [done | by apply framed_reverse_index |].
  intros ro _.
  eapply framed_bind; [done | apply framed_alloc |]. intros ov Hov.
  eapply framed_bind; [done | apply framed_get |]. intros news _.
  eapply framed_bind; [done | apply framed_alloc |]. intros nv Hnv.
  eapply framed_bind; [done | apply framed_alloc |]. intros cn Hcn.
  eapply framed_bind; [done | apply framed_alloc |]. intros co Hco.
  eapply framed_bind; [done | |].
  { apply framed_fold_each with (φ := λ s, n0 ≤ s.1 ∧ n0 ≤ s.2);
      [done | | done].
    intros s kn [? ?] _. by apply framed_component_step. }
  intros _ _. by apply framed_ret.
Qed.

End Operations.
End Frame.

(** ** The call *)

Section Call.
Context {K E X : Type} `{EqDecision K} `{EqDecision E}.
Variable recursion_limit : nat.
Variable munkres_compute : matrix → list (nat * nat).
Variable similarity_function : loc → loc → loc → loc → hm K E X (X + Z).

Lemma run_bind {A B} (m : hm K E X A) (f : A → hm K E X B) h :
  (a ← m; f a) h
  = match m h with
    | (h', Ok a) => f a h'
    | (h', Raise e) => (h', Raise e)
    end.
Proof. done. Qed.

Lemma get_agree {A} (as_type : obj K E → option A) l
    (h h' : list (obj K E)) a :
  (∀ l, l < length h → h' !! l = h !! l) →
  (get (X:=X) as_type l h).2 = Ok a →
  get (X:=X) as_type l h' = (h', Ok a).
Proof.
  intros Hagree. unfold get. simpl.
  destruct (h !! l) as [o|] eqn:Ho; simpl; [|done].
  rewrite Hagree, Ho by (by eapply lookup_lt_Some). simpl.
  destruct (as_type o); [|done]. by intros [= ->].
Qed.

(** A dictionary of lists that can be read from a store reads the same
    from a store that keeps the objects of the first. *)
Lemma load_dict_agree d (h h' : list (obj K E)) v :
  (∀ l, l < length h → h' !! l = h !! l) →
  (load_dict (X:=X) d h).2 = Ok v →
  (load_dict (X:=X) d h').2 = Ok v.
Proof.
  intros Hagree. unfold load_dict. rewrite !run_bind.
  destruct (get as_dict d h) as [h1 [entries|e]] eqn:Hget; [|done].
  assert (h1 = h) as -> by (by injection Hget).
  rewrite (get_agree as_dict d h h' entries Hagree) by (by rewrite Hget).
  clear Hget. revert v.
  induction entries as [|[k l] entries IH]; intros v; simpl; [done|].
  rewrite !run_bind.
  destruct (get as_list l h) as [h1 [x|e]] eqn:Hget; [|done].
  assert (h1 = h) as -> by (by injection Hget).
  rewrite (get_agree as_list l h h' x Hagree) by (by rewrite Hget).
  simpl. rewrite !run_bind.
  destruct (collect entries _ h) as [h1 [r|e]] eqn:Hrest; [|done].
  simpl. intros [= <-].
  specialize (IH r).
  destruct (collect entries _ h') as [h2 [r'|e']]; simpl in *;
    [|by specialize (IH eq_refl)].
  specialize (IH eq_refl). by injection IH as ->.
Qed.

Lemma reads_bind {A B} (m : hm K E X A) (f : A → hm K E X B) :
  (∀ h, (m h).1 = h) → (∀ a h, (f a h).1 = h) →
  ∀ h, ((a ← m; f a) h).1 = h.
Proof.
  intros Hm Hf h. rewrite run_bind. specialize (Hm h).
  destruct (m h) as [h' [a|e]]; simpl in *; subst; [apply Hf | done].
Qed.

(** A cost function of the contents of its lists changes no object and
    creates none. *)
Lemma of_contents_keeps (f : list E → list E → list E → list E → X + Z)
    nc oc cl rj (h : list (obj K E)) :
  ∃ new, (of_contents f nc oc cl rj h).1 = h ++ new.
Proof.
  exists []. rewrite app_nil_r. revert h. unfold of_contents.
  repeat (apply reads_bind; [done | intros ?]). done.
Qed.

Lemma cluster_assignment_unfold
    (old_clusters new_clusters claims rejected : loc) (h : list (obj K E)) :
  cluster_assignment recursion_limit munkres_compute similarity_function
    old_clusters new_clusters claims rejected h
  = match h !! old_clusters ≫= as_dict with
    | None => (h, Raise TypeError)
    | Some olds =>
        match collect olds (λ kl, l ← alloc (OList []); mret (kl.1, l)) h
        with
        | (h1, Raise e) => (h1, Raise e)
        | (h1, Ok lists) =>
            cluster_assignment_body recursion_limit munkres_compute
              similarity_function
              old_clusters new_clusters claims rejected
              (length h1) (length (h1 ++ [ODict lists]))
              ((h1 ++ [ODict lists]) ++ [OLists []])
        end
    end.
Proof.
  unfold cluster_assignment, get. rewrite run_bind.
  destruct (h !! old_clusters ≫= as_dict) as [olds|]; [|done].
  rewrite run_bind.
  by destruct (collect olds _ h) as [h1 [lists|e]].
Qed.

(** C10, amended.  A call with a cost function that changes no object that
    exists when it is called (it may create objects) changes no object that
    exists before the call: each keeps its contents, so the four
    dictionaries given to the call and their lists read after the call as
    before, also when the call raises.  The dictionary [assigned], its
    lists, the list [unassigned] and its lists are objects created by the
    call. *)
Theorem inputs_not_mutated (old_clusters new_clusters claims rejected : loc)
    (h : list (obj K E)) :
  (∀ nc oc cl rj h',
     ∃ new, (similarity_function nc oc cl rj h').1 = h' ++ new) →
  let run := cluster_assignment recursion_limit munkres_compute
               similarity_function
               old_clusters new_clusters claims rejected h in
  (∀ l, l < length h → run.1 !! l = h !! l) ∧
  (∀ d v, (load_dict (X:=X) d h).2 = Ok v →
          (load_dict (X:=X) d run.1).2 = Ok v) ∧
  (∀ assigned unassigned,
     run.2 = Ok (assigned, unassigned) →
     length h ≤ assigned ∧ length h ≤ unassigned ∧
     ∃ lists new_lists,
       run.1 !! assigned = Some (ODict lists) ∧
       Forall (λ kl : K * loc, length h ≤ kl.2) lists ∧
       run.1 !! unassigned = Some (OLists new_lists) ∧
       Forall (λ l, length h ≤ l) new_lists).
Proof.
  intros cost_keeps run.
  cut (extends (length h) h run.1 ∧
       ∀ assigned unassigned,
         run.2 = Ok (assigned, unassigned) →
         length h ≤ assigned ∧ length h ≤ unassigned ∧
         ∃ lists new_lists,
           run.1 !! assigned = Some (ODict lists) ∧
           Forall (λ kl : K * loc, length h ≤ kl.2) lists ∧
           run.1 !! unassigned = Some (OLists new_lists) ∧
           Forall (λ l, length h ≤ l) new_lists).
  { intros [(_ & Hlow & _) Hres]. split_and!; [done | | done].
    intros d v. by apply load_dict_agree. }
  subst run. rewrite cluster_assignment_unfold.
  destruct (h !! old_clusters ≫= as_dict) as [olds|];
    [|split; [apply store_extends_refl | done]].
  assert (framed (X:=X) (length h) (λ _ : list (obj K E), True)
            (collect olds (λ kl, l ← alloc (OList []); mret (kl.1, l)))
            (Forall (λ kl : K * loc, length h ≤ kl.2))) as Hcollect.
  { apply framed_collect; [done|].
    intros kl _. eapply framed_bind; [done | apply framed_alloc |].
    intros l Hl. by apply framed_ret. }
  destruct (Hcollect h) as [Hext1 Hlists]; [done | done |].
  clear Hcollect.
  destruct (collect olds _ h) as [h1 [lists|e]]; simpl in *; [|done].
  specialize (Hlists lists eq_refl).
  set (assigned := length h1).
  set (unassigned := length (h1 ++ [ODict lists])).
  set (h3 := (h1 ++ [ODict lists]) ++ [OLists []]).
  assert (length h ≤ length h1) as Hlen1 by (by destruct Hext1).
  assert (h3 !! assigned = Some (ODict lists)) as Hassigned.
  { unfold h3, assigned. rewrite lookup_app_l by (rewrite length_app; simpl; lia).
    by rewrite lookup_app_r, Nat.sub_diag by lia. }
  assert (h3 !! unassigned = Some (OLists [])) as Hunassigned.
  { unfold h3, unassigned. by rewrite lookup_app_r, Nat.sub_diag by lia. }
  assert (extends (length h) h h3) as Hext3.
  { eapply store_extends_trans; [done|].
    eapply store_extends_trans; apply store_extends_alloc; [lia|].
    rewrite length_app. lia. }
  assert (framed (X:=X) (length h)
            (λ h' : list (obj K E), h' !! assigned = Some (ODict lists))
            (cluster_assignment_body recursion_limit munkres_compute
               similarity_function old_clusters new_clusters claims rejected
               assigned unassigned)
            (λ r, r = (assigned, unassigned))) as Hbody.
  { apply framed_cluster_assignment_body with (lists := lists).
    - intros h' h'' (_ & _ & Hdict & _) Hh'. by apply Hdict.
    - done.
    - done.
    - unfold unassigned. rewrite length_app. lia.
    - done. }
  destruct (Hbody h3) as [Hext4 Hres]; [| done |].
  { destruct Hext3 as [? _]. lia. }
  clear Hbody.
  destruct (cluster_assignment_body _ _ _ _ _ _ _ _ _ h3) as [h4 r].
  simpl in *. split; [by eapply store_extends_trans|].
  intros a u Hr. specialize (Hres _ Hr). injection Hres as -> ->.
  destruct Hext4 as (_ & _ & Hdict & Hlists4).
  destruct (Hlists4 _ _ Hunassigned) as (new_lists & Hu & Hnew).
  split_and!.
  - unfold assigned. lia.
  - unfold unassigned. rewrite length_app. lia.
  - exists lists, new_lists. split_and!; auto.
Qed.
End Call.
End HeapFacts.

(** ** The store on the test suite *)

Example store_test_rejected_paper :
  StoreTests.run Tests.paper_old Tests.paper_new Tests.intersection_cost
                 [] [(2, [2])]%Z
  = Ok ([(1, [1; 2]); (2, [3])]%Z, [],
        [Tests.paper_old; Tests.paper_new; []; [(2, [2])]%Z]).
Proof. vm_compute. reflexivity. Qed.

Example store_test_additional_old_clusters :
  StoreTests.run [(1, [1; 2; 3])]%Z [(1, [1]); (2, [2]); (3, [3])]%Z
                 Tests.simple_cost [] []
  = Ok ([(1, [1])]%Z, [[2]; [3]]%Z,
        [[(1, [1; 2; 3])]%Z; [(1, [1]); (2, [2]); (3, [3])]%Z; []; []]).
Proof. vm_compute. reflexivity. Qed.

Example store_test_disconnected_graph :
  StoreTests.run Tests.disconnected_old Tests.disconnected_new
                 Tests.simple_cost [] []
  = Ok ([(1, [9; 11]); (2, [10]); (3, [12; 14]); (4, [13])]%Z, [],
        [Tests.disconnected_old; Tests.disconnected_new; []; []]).
Proof. vm_compute. reflexivity. Qed.

Lemma inputs_not_mutated_witness :
  let run := Heap.cluster_assignment Tests.recursion_limit
               exhaustive_assignment
               (Heap.of_contents Tests.intersection_cost)
               2 5 6 8 StoreTests.paper_store in
  run.2 = Ok (11, 12) ∧
  (Heap.load_dict (X:=string) 2 run.1).2 = Ok Tests.paper_old ∧
  (Heap.load_dict (X:=string) 5 run.1).2 = Ok Tests.paper_new ∧
  (Heap.load_dict (X:=string) 6 run.1).2 = Ok [] ∧
  (Heap.load_dict (X:=string) 8 run.1).2 = Ok [(2, [2])]%Z ∧
  length StoreTests.paper_store ≤ 11 ∧
  length StoreTests.paper_store ≤ 12.
Proof.
  intros run.
  destruct (HeapFacts.inputs_not_mutated Tests.recursion_limit
              exhaustive_assignment
              (Heap.of_contents Tests.intersection_cost)
              2 5 6 8 StoreTests.paper_store
              (HeapFacts.of_contents_keeps Tests.intersection_cost))
    as (_ & Hload & Hresult).
  fold run in Hload, Hresult.
  assert (run.2 = Ok (11, 12)) as Hrun by (vm_compute; reflexivity).
  destruct (Hresult 11 12 Hrun) as (Ha & Hu & _).
  split_and!; try done; apply Hload; vm_compute; reflexivity.
Defined.

(** The counterexample to the absence of mutation as worded: the call
    passes its lists themselves to the cost function, and with one that
    appends to the new cluster it is given, the new clusters of the caller
    are [{1: [1, 0, 0, 0, 0], 2: [2, 3, 0, 0, 0, 0]}] after the call. *)
Lemma inputs_not_mutated_counterexample :
  ¬ Heap.inputs_unchanged_as_stated (X:=string) Tests.recursion_limit
      exhaustive_assignment StoreTests.writing_cost 2 5 6 8
      StoreTests.paper_store.
Proof.
  intros Hclaim.
  specialize (Hclaim 5 Tests.paper_new ltac:(vm_compute; reflexivity)).
  vm_compute in Hclaim. discriminate Hclaim.
Qed.

(** A cost function that writes to none of the lists it is given can
    still change an input: with one that sets [claims[99]], the dictionary
    [claims] of the caller, which was empty, has the key 99 after the
    call. *)
Example store_cost_writes_elsewhere :
  let run := Heap.cluster_assignment Tests.recursion_limit
               exhaustive_assignment StoreTests.claiming_cost
               2 5 6 8 StoreTests.paper_store in
  (Heap.load_dict (X:=string) 6 StoreTests.paper_store).2 = Ok [] ∧
  (Heap.load_dict (X:=string) 6 run.1).2 = Ok [(99, [])]%Z.
Proof. split; vm_compute; reflexivity. Qed.

(** * Further properties of the matching *)

Section Closure.
Context {K E X : Type} `{EqDecision K} `{EqDecision E}.

Lemma scanned_mono (cl : dict K (list E)) (r : dict E K) v v' k :
  flags_kept v v' → scanned cl r v k → scanned cl r v' k.
Proof.
  intros Hmono (sigs & Hsigs & Hall). exists sigs. split; [done|].
  intros sig Hsig. destruct (Hall sig Hsig) as (o & Ho & Hv). eauto.
Qed.

Lemma side_rel_flags_kept (P : K → Prop) l v l' v' :
  side_rel P l v l' v' → flags_kept v v'.
Proof.
  intros Hrel k.
  by apply side_rel_visited with (P := P) (l := l) (l' := l').
Qed.

Lemma side_rel_true_cases (P : K → Prop) l v l' v' k :
  side_rel P l v l' v' → dict_get v' k = Some true →
  dict_get v k = Some true ∨ turned v v' k.
Proof.
  intros (added & _ & _ & _ & _ & Hf & Hg) Hk.
  pose proof Hk as Hk'. rewrite Hg in Hk.
  destruct (decide (k ∈ added)) as [Hin|]; [|by left].
  right. rewrite Forall_forall in Hf. split; [by apply Hf | done].
Qed.

(** A traversal that returns has marked the cluster it started from, and
    has scanned every cluster it marked: all the neighbours of a newly
    marked cluster are marked. *)
Lemma graph_traversal_closed fuel :
  ∀ ct co (rt ro : dict E K) (tc oc : dict K (list E)) tv ov c
    ct' co' tv' ov',
    graph_traversal (X:=X) fuel ct co rt ro tc oc tv ov c
      = Ok (ct', co', tv', ov') →
    dict_get tv c = Some false →
    dict_get tv' c = Some true ∧
    (∀ k, turned tv tv' k → scanned tc ro ov' k) ∧
    (∀ k, turned ov ov' k → scanned oc rt tv' k).
Proof.
  induction fuel as [|fuel IH];
    intros ct co rt ro tc oc tv ov c ct' co' tv' ov' Hrun Hc;
    simpl in Hrun; [done|].
  apply bind_Ok in Hrun as (sigs & Hsigs%dict_lookup_Ok & Hloop).
  cut (side_rel (λ _, True) (ct ++ [c]) (dict_set tv c true) ct' tv' ∧
       side_rel (λ _, True) co ov co' ov' ∧
       (∀ sig, sig ∈ sigs →
          ∃ o, dict_get ro sig = Some o ∧ dict_get ov' o = Some true) ∧
       (∀ k, k ≠ c → turned tv tv' k → scanned tc ro ov' k) ∧
       (∀ k, turned ov ov' k → scanned oc rt tv' k)).
  { intros (Ht & Ho & Hdone & Hthis & Hother). split_and!.
    - eapply side_rel_visited; [done|]. apply dict_get_set_eq.
    - intros k Hk. destruct (decide (k = c)) as [->|Hne]; [|by apply Hthis].
      by exists sigs.
    - done. }
  refine (foldM_invariant
    (λ done (s : @sides K),
       let '(a, b, va, vb) := s in
       side_rel (λ _, True) (ct ++ [c]) (dict_set tv c true) a va ∧
       side_rel (λ _, True) co ov b vb ∧
       (∀ sig, sig ∈ done →
          ∃ o, dict_get ro sig = Some o ∧ dict_get vb o = Some true) ∧
       (∀ k, k ≠ c → turned tv va k → scanned tc ro vb k) ∧
       (∀ k, turned ov vb k → scanned oc rt va k))
    _ sigs _ (ct', co', tv', ov') _ _ Hloop).
  - split_and!; try apply side_rel_refl.
    + by intros sig ?%elem_of_nil.
    + intros k Hne [Hk Hk']. rewrite dict_get_set_ne in Hk' by done.
      congruence.
    + intros k [Hk Hk']. congruence.
  - intros done sig [[[a b] va] vb] [[[a' b'] va'] vb']
      (Ha & Hb & Hdone & Hthis & Hother) Hsig Hstep.
    apply bind_Ok in Hstep as (other & Hother'%dict_lookup_Ok & Hstep).
    apply bind_Ok in Hstep as (seen & Hseen%dict_lookup_Ok & Hstep).
    destruct seen.
    { injection Hstep as <- <- <- <-. split_and!; try done.
      intros sig' [?|Heq%list_elem_of_singleton]%elem_of_app;
        [eauto | subst; eauto]. }
    apply bind_Ok in Hstep as ([[[b1 a1] vb1] va1] & Hrec & [= <- <- <- <-]).
    pose proof Hrec as Hspec.
    apply (graph_traversal_spec (λ _, True)) in Hspec as [Hb1 Ha1];
      [| done | done | done].
    apply IH in Hrec as (Hstart & Hrec_this & Hrec_other); [|done].
    apply (side_rel_mono _ (λ _, True)) in Ha1; [|done].
    pose proof (side_rel_flags_kept _ _ _ _ _ Ha1) as Hka.
    pose proof (side_rel_flags_kept _ _ _ _ _ Hb1) as Hkb.
    split_and!.
    + by eapply side_rel_trans.
    + by eapply side_rel_trans.
    + intros sig' [Hin|Heq%list_elem_of_singleton]%elem_of_app.
      * destruct (Hdone sig' Hin) as (o & ? & ?). eauto.
      * subst. eauto.
    + intros k Hne [Hk Hk'].
      destruct (side_rel_true_cases _ _ _ _ _ k Ha1 Hk') as [Hold|Hnew].
      * eapply scanned_mono; [done|]. by apply Hthis.
      * by apply Hrec_other.
    + intros k [Hk Hk'].
      destruct (side_rel_true_cases _ _ _ _ _ k Hb1 Hk') as [Hold|Hnew].
      * eapply scanned_mono; [done|]. by apply Hother.
      * by apply Hrec_this.
Qed.
End Closure.

Section LoopFlags.
Context {K E X : Type} `{EqDecision K} `{EqDecision E}.
Variable recursion_limit : nat.
Variable munkres_compute : matrix → list (nat * nat).
Variable old_clusters new_clusters : dict K (list E).
Variable similarity_function : list E → list E → list E → list E → X + Z.
Variable claims rejected : dict K (list E).

Abbreviation reversed_old := (reversed_old old_clusters).
Abbreviation reversed_new := (reversed_new new_clusters).
Abbreviation main_loop :=
  (main_loop munkres_compute old_clusters new_clusters similarity_function
     claims rejected).
Abbreviation component_step :=
  (component_step munkres_compute old_clusters new_clusters
     similarity_function claims rejected).
Abbreviation cluster_assignment :=
  (cluster_assignment recursion_limit munkres_compute old_clusters new_clusters
     similarity_function claims rejected).

(** The decomposition of an unvisited new cluster is a traversal that
    starts from it. *)
Lemma discover_traversal fuel k n ov nv :
  dict_get new_clusters k = Some n →
  dict_get nv k = Some false →
  discover (X:=X) old_clusters new_clusters fuel k n ov nv
  = graph_traversal (S fuel) [] [] reversed_new reversed_old
      new_clusters old_clusters nv ov k.
Proof.
  intros Hn%(dict_lookup_Ok (X:=X)) Hk%(dict_lookup_Ok (X:=X)).
  unfold discover. simpl. by rewrite Hn, Hk.
Qed.

Lemma discover_flags fuel k n ov nv cn co nv' ov' :
  NoDup (keys new_clusters) → (k, n) ∈ new_clusters →
  discover (X:=X) old_clusters new_clusters fuel k n ov nv
    = Ok (cn, co, nv', ov') →
  closed_flags old_clusters new_clusters nv ov →
  closed_flags old_clusters new_clusters nv' ov' ∧
  dict_get nv' k = Some true ∧
  flags_kept nv nv' ∧ flags_kept ov ov'.
Proof.
  intros Hnd Hkn Hdisc [Hcn Hco].
  destruct (discover_spec _ _ _ _ _ _ _ _ _ _ _ Hkn Hdisc)
    as [(Hv & _ & _ & -> & ->) | (Hv & _ & Hn & Ho)].
  { split_and!; [by split | done | by intros ? | by intros ?]. }
  rewrite discover_traversal in Hdisc;
    [| by apply dict_get_elem_NoDup | done].
  apply graph_traversal_closed in Hdisc as (Hk & Hthis & Hother); [|done].
  pose proof (side_rel_flags_kept _ _ _ _ _ Hn) as Hkn'.
  pose proof (side_rel_flags_kept _ _ _ _ _ Ho) as Hko.
  split_and!; try done.
  split.
  - intros c Hc.
    destruct (side_rel_true_cases _ _ _ _ _ c Hn Hc) as [Hold|Hnew].
    + eapply scanned_mono; [done|]. by apply Hcn.
    + by apply Hthis.
  - intros g Hg.
    destruct (side_rel_true_cases _ _ _ _ _ g Ho Hg) as [Hold|Hnew].
    + eapply scanned_mono; [done|]. by apply Hco.
    + by apply Hother.
Qed.

Lemma main_loop_flags fuel cl :
  ∀ a u ov nv a' u' ov' nv',
    NoDup (keys new_clusters) →
    (∀ kn, kn ∈ cl → kn ∈ new_clusters) →
    main_loop fuel cl (a, u, ov, nv) = Ok (a', u', ov', nv') →
    closed_flags old_clusters new_clusters nv ov →
    closed_flags old_clusters new_clusters nv' ov' ∧
    (∀ k, k ∈ keys cl → dict_get nv' k = Some true) ∧
    flags_kept nv nv' ∧ flags_kept ov ov'.
Proof.
  unfold main_loop.
  induction cl as [|[k n] cl IH]; intros a u ov nv a' u' ov' nv' Hnd Hcl.
  - intros [= <- <- <- <-] Hclosed.
    split_and!; [done | by intros k ?%elem_of_nil | by intros ? | by intros ?].
  - rewrite foldM_cons. intros Hrun Hclosed.
    apply bind_Ok in Hrun as ([[[a1 u1] ov1] nv1] & Hstep & Hrest).
    unfold component_step in Hstep.
    apply bind_Ok in Hstep as ([[[cn co] nv2] ov2] & Hdisc & Hstep).
    apply bind_Ok in Hstep as ([a2 u2] & _ & [= <- <- <- <-]).
    apply discover_flags in Hdisc as (Hclosed1 & Hk & Hkn & Hko);
      [| done | apply Hcl; by left | done].
    apply IH in Hrest as (Hclosed2 & Hall & Hkn2 & Hko2);
      [| done | intros; apply Hcl; by right | done].
    split_and!; try done.
    + intros k' [->|Hk']%elem_of_cons; [by apply Hkn2 | by apply Hall].
    + intros k' ?. by apply Hkn2, Hkn.
    + intros k' ?. by apply Hko2, Hko.
Qed.

Lemma initial_closed_flags :
  closed_flags old_clusters new_clusters
    ((λ kv, (kv.1, false)) <$> new_clusters)
    ((λ kv, (kv.1, false)) <$> old_clusters).
Proof.
  split; intros k; rewrite dict_get_fmap_const;
    by destruct (dict_get _ k).
Qed.

(** At the end of a call that returns every new cluster is visited and
    the visited clusters are closed. *)
Lemma run_closed assigned unassigned :
  NoDup (keys new_clusters) →
  cluster_assignment = Ok (assigned, unassigned) →
  ∃ nv ov,
    closed_flags old_clusters new_clusters nv ov ∧
    ∀ k, k ∈ keys new_clusters → dict_get nv k = Some true.
Proof.
  intros Hnd Hrun.
  unfold cluster_assignment in Hrun.
  apply bind_Ok in Hrun as ([[[a1 u1] ov1] nv1] & Hloop & _).
  apply main_loop_flags in Hloop as (Hclosed & Hall & _);
    [| done | done | apply initial_closed_flags].
  eauto.
Qed.

(** X3. A call that returns has looked up every entity of every new
    cluster in the old reverse index: every entity of a new cluster is held
    by an old cluster.  So a call with a new cluster that holds an entity
    of no old cluster raises. *)
Theorem new_entities_must_be_known assigned unassigned k n e :
  NoDup (keys new_clusters) →
  cluster_assignment = Ok (assigned, unassigned) →
  (k, n) ∈ new_clusters → e ∈ n →
  ∃ g va, dict_get reversed_old e = Some g ∧ (g, va) ∈ old_clusters ∧ e ∈ va.
Proof.
  intros Hnd Hrun Hkn He.
  destruct (run_closed _ _ Hnd Hrun) as (nv & ov & [Hcn _] & Hall).
  destruct (Hcn k) as (sigs & Hsigs & Hscan).
  { apply Hall. apply list_elem_of_fmap. by exists (k, n). }
  rewrite (dict_get_elem_NoDup _ _ _ Hnd Hkn) in Hsigs.
  injection Hsigs as <-.
  destruct (Hscan e He) as (g & Hg & _).
  pose proof Hg as (va & ? & ?)%reverse_index_sound. eauto.
Qed.

(** X4. A call that returns has looked up, in the new reverse index, every
    entity of every old cluster that is the entry of an entity of a new
    cluster in the old reverse index: all the entities of such an old
    cluster are held by new clusters, or the call raises. *)
Theorem shared_old_clusters_must_be_covered assigned unassigned k n e g va e' :
  NoDup (keys new_clusters) →
  cluster_assignment = Ok (assigned, unassigned) →
  (k, n) ∈ new_clusters → e ∈ n →
  dict_get reversed_old e = Some g →
  dict_get old_clusters g = Some va → e' ∈ va →
  ∃ k' n', dict_get reversed_new e' = Some k' ∧
           (k', n') ∈ new_clusters ∧ e' ∈ n'.
Proof.
  intros Hnd Hrun Hkn He Hg Hva He'.
  destruct (run_closed _ _ Hnd Hrun) as (nv & ov & [Hcn Hco] & Hall).
  destruct (Hcn k) as (sigs & Hsigs & Hscan).
  { apply Hall. apply list_elem_of_fmap. by exists (k, n). }
  rewrite (dict_get_elem_NoDup _ _ _ Hnd Hkn) in Hsigs.
  injection Hsigs as <-.
  destruct (Hscan e He) as (g' & Hg' & Hvisited).
  assert (g' = g) as -> by congruence.
  destruct (Hco g Hvisited) as (sigs' & Hsigs' & Hscan').
  assert (sigs' = va) as -> by congruence.
  destruct (Hscan' e' He') as (k' & Hk' & _).
  pose proof Hk' as (n' & ? & ?)%reverse_index_sound. eauto.
Qed.
End LoopFlags.

(** ** Components are connected *)

Section Sides.
Context {K E X : Type} `{EqDecision K} `{EqDecision E}.

(** The traversal with a property of each side: the clusters appended to
    a side have the property of the side when the cluster the traversal
    starts from has it and the reverse indices lead from a cluster with
    the property of its side to clusters with the property of the other
    side. *)
Lemma graph_traversal_sides (P Q : K → Prop) fuel :
  ∀ ct co (rt ro : dict E K) (tc oc : dict K (list E)) tv ov c
    ct' co' tv' ov',
    graph_traversal (X:=X) fuel ct co rt ro tc oc tv ov c
      = Ok (ct', co', tv', ov') →
    dict_get tv c = Some false → P c →
    (∀ k sigs sig o, P k → dict_get tc k = Some sigs → sig ∈ sigs →
                     dict_get ro sig = Some o → Q o) →
    (∀ o sigs sig k, Q o → dict_get oc o = Some sigs → sig ∈ sigs →
                     dict_get rt sig = Some k → P k) →
    side_rel P ct tv ct' tv' ∧ side_rel Q co ov co' ov'.
Proof.
  revert P Q. induction fuel as [|fuel IH];
    intros P Q ct co rt ro tc oc tv ov c ct' co' tv' ov' Hrun Hc HPc HPQ HQP;
    simpl in Hrun; [done|].
  apply bind_Ok in Hrun as (sigs & Hsigs%dict_lookup_Ok & Hloop).
  refine (foldM_invariant
    (λ _ (s : @sides K),
       let '(a, b, va, vb) := s in
       side_rel P ct tv a va ∧ side_rel Q co ov b vb)
    _ sigs _ (ct', co', tv', ov') _ _ Hloop).
  - split; [by apply side_rel_mark | apply side_rel_refl].
  - intros _ sig [[[a b] va] vb] [[[a' b'] va'] vb'] [Ha Hb] Hsig Hstep.
    apply bind_Ok in Hstep as (other & Hother%dict_lookup_Ok & Hstep).
    apply bind_Ok in Hstep as (seen & Hseen%dict_lookup_Ok & Hstep).
    destruct seen; [by injection Hstep as <- <- <- <-|].
    apply bind_Ok in Hstep as ([[[b1 a1] vb1] va1] & Hrec & [= <- <- <- <-]).
    apply (IH Q P) in Hrec as [Hb1 Ha1]; [| done | by eapply HPQ | done | done].
    split; by eapply side_rel_trans.
Qed.
End Sides.

Section Connected.
Context {K E X : Type} `{EqDecision K} `{EqDecision E}.
Variable recursion_limit : nat.
Variable munkres_compute : matrix → list (nat * nat).
Variable old_clusters new_clusters : dict K (list E).
Variable similarity_function : list E → list E → list E → list E → X + Z.
Variable claims rejected : dict K (list E).

Abbreviation reversed_old := (reversed_old old_clusters).
Abbreviation reversed_new := (reversed_new new_clusters).
Abbreviation connected := (connected old_clusters new_clusters).
Abbreviation discovers :=
  (discovers recursion_limit munkres_compute
     old_clusters new_clusters similarity_function
     claims rejected).

Lemma connected_step_old x c sigs sig g :
  connected x (inl c) → dict_get new_clusters c = Some sigs → sig ∈ sigs →
  dict_get reversed_old sig = Some g → connected x (inr g).
Proof.
  intros Hx Hc%dict_get_Some_elem Hsig (va & ? & ?)%reverse_index_sound.
  eapply rtc_r; [done|]. left. simpl. by exists sigs, va, sig.
Qed.

Lemma connected_step_new x g sigs sig c :
  connected x (inr g) → dict_get old_clusters g = Some sigs → sig ∈ sigs →
  dict_get reversed_new sig = Some c → connected x (inl c).
Proof.
  intros Hx Hg%dict_get_Some_elem Hsig (l & ? & ?)%reverse_index_sound.
  eapply rtc_r; [done|]. right. simpl. by exists l, sigs, sig.
Qed.

Lemma discover_connected fuel k n ov nv cn co nv' ov' :
  NoDup (keys new_clusters) → (k, n) ∈ new_clusters →
  discover (X:=X) old_clusters new_clusters fuel k n ov nv
    = Ok (cn, co, nv', ov') →
  Forall (λ c, connected (inl k) (inl c)) cn ∧
  Forall (λ g, connected (inl k) (inr g)) co.
Proof.
  intros Hnd Hkn Hdisc.
  destruct (discover_spec _ _ _ _ _ _ _ _ _ _ _ Hkn Hdisc)
    as [(_ & -> & -> & _) | (Hv & _)]; [done|].
  rewrite discover_traversal in Hdisc;
    [| by apply dict_get_elem_NoDup | done].
  apply (graph_traversal_sides (λ c, connected (inl k) (inl c))
                               (λ g, connected (inl k) (inr g))) in Hdisc
    as [(an & -> & _ & Hn & _) (ao & -> & _ & Ho & _)]; try done.
  - intros c sigs sig o. apply connected_step_old.
  - intros o sigs sig c. apply connected_step_new.
Qed.

(** The clusters of a component are connected to the new cluster whose
    iteration discovers it. *)
Lemma component_rooted current_new current_old :
  NoDup (keys new_clusters) →
  discovers current_new current_old →
  ∃ k, Forall (λ c, connected (inl k) (inl c)) current_new ∧
       Forall (λ g, connected (inl k) (inr g)) current_old.
Proof.
  intros Hnd (pre & k & n & post & a0 & u0 & ov0 & nv0 & nv1 & ov1
              & [Hnew _] & Hdisc).
  assert ((k, n) ∈ new_clusters) as Hkn.
  { rewrite Hnew. apply elem_of_app. right. by left. }
  exists k. by eapply discover_connected.
Qed.

(** X5. Any two clusters of a component that the loop discovers, new or
    old, are connected by a chain of clusters in which each cluster shares
    an entity with the next. *)
Theorem component_connected current_new current_old x y :
  NoDup (keys new_clusters) →
  discovers current_new current_old →
  x ∈ (inl <$> current_new) ++ (inr <$> current_old) →
  y ∈ (inl <$> current_new) ++ (inr <$> current_old) →
  connected x y.
Proof.
  intros Hnd Hdisc Hx Hy.
  destruct (component_rooted _ _ Hnd Hdisc) as (k & Hn & Ho).
  rewrite Forall_forall in Hn, Ho.
  assert (∀ z, z ∈ (inl <$> current_new) ++ (inr <$> current_old) →
               connected (inl k) z) as Hroot.
  { intros z [(c & -> & ?)%list_elem_of_fmap
             |(g & -> & ?)%list_elem_of_fmap]%elem_of_app; auto. }
  transitivity (inl k : K + K); [symmetry|]; by apply Hroot.
Qed.
End Connected.

(** ** The decomposition of a run *)

Section RunComponents.
Context {K E X : Type} `{EqDecision K} `{EqDecision E}.
Variable recursion_limit : nat.
Variable munkres_compute : matrix → list (nat * nat).
Variable old_clusters new_clusters : dict K (list E).
Variable similarity_function : list E → list E → list E → list E → X + Z.
Variable claims rejected : dict K (list E).

Abbreviation reversed_old := (reversed_old old_clusters).
Abbreviation reversed_new := (reversed_new new_clusters).
Abbreviation main_loop :=
  (main_loop munkres_compute old_clusters new_clusters similarity_function
     claims rejected).
Abbreviation component_step :=
  (component_step munkres_compute old_clusters new_clusters
     similarity_function claims rejected).
Abbreviation cluster_assignment :=
  (cluster_assignment recursion_limit munkres_compute old_clusters new_clusters
     similarity_function claims rejected).
Abbreviation component_ok :=
  (component_ok recursion_limit munkres_compute old_clusters new_clusters
     similarity_function claims rejected).
Abbreviation resolves :=
  (resolves old_clusters new_clusters claims rejected).
Abbreviation fuel := recursion_limit.

Lemma run_trace_app (c1 c2 : list (component K E)) :
  run_trace (c1 ++ c2) = run_trace c1 ++ run_trace c2.
Proof. unfold run_trace. apply bind_app. Qed.

(** The iterations of the main loop after the new clusters [pre]. *)
Lemma main_loop_components post :
  ∀ pre a u ov nv a' u' ov' nv',
    new_clusters = pre ++ post →
    main_loop fuel pre (initial_state old_clusters new_clusters)
      = Ok (a, u, ov, nv) →
    main_loop fuel post (a, u, ov, nv) = Ok (a', u', ov', nv') →
    ∃ comps,
      Forall component_ok comps ∧
      extends a (all_routes (run_trace comps)) a' ∧
      u' = u ++ leftovers (run_trace comps) ∧
      side_rel (λ _, True) [] nv (comps ≫= comp_new) nv' ∧
      side_rel (λ _, True) [] ov (comps ≫= comp_old) ov'.
Proof.
  induction post as [|[k n] post IH];
    intros pre a u ov nv a' u' ov' nv' Hnew Hpre.
  - intros [= <- <- <- <-]. exists []. split_and!.
    + constructor.
    + apply extends_nil.
    + by rewrite app_nil_r.
    + apply side_rel_refl.
    + apply side_rel_refl.
  - unfold main_loop. rewrite foldM_cons. intros Hrun.
    apply bind_Ok in Hrun as ([[[a1 u1] ov1] nv1] & Hstep & Hrest).
    assert ((k, n) ∈ new_clusters) as Hkn.
    { rewrite Hnew. apply elem_of_app. right. by left. }
    assert (main_loop fuel (pre ++ [(k, n)])
              (initial_state old_clusters new_clusters)
            = Ok (a1, u1, ov1, nv1)) as Hpre1.
    { unfold main_loop in *. rewrite foldM_app, Hpre.
      apply bind_Ok. eexists. split; [done|].
      by rewrite foldM_cons, Hstep. }
    apply (IH (pre ++ [(k, n)])) in Hrest
      as (comps & Hok & Hext & -> & Hn & Ho);
      [| by rewrite <-app_assoc | done].
    unfold component_step in Hstep.
    apply bind_Ok in Hstep as ([[[cn co] nv2] ov2] & Hdisc & Hstep).
    apply bind_Ok in Hstep as ([a2 u2] & Hsolve & [= <- <- <- <-]).
    assert (side_rel (λ _, True) [] nv cn nv2 ∧
            side_rel (λ _, True) [] ov co ov2) as [Hn1 Ho1].
    { destruct (discover_spec _ _ _ _ _ _ _ _ _ _ _ Hkn Hdisc)
        as [(_ & -> & -> & -> & ->) | (_ & _ & Hn1 & Ho1)].
      - split; apply side_rel_refl.
      - split; by eapply side_rel_mono. }
    assert (∃ tr asg,
      Forall2 (resolves cn co) asg tr ∧
      (cn = [] → asg = []) ∧
      (cn ≠ [] →
       ∃ M, build_cost_matrix old_clusters new_clusters similarity_function
              claims rejected cn co = Ok M ∧ asg = munkres_compute M) ∧
      extends a (all_routes tr) a2 ∧ u2 = u ++ leftovers tr)
      as (tr & asg & Hres & Hnil & HM & Hext1 & ->).
    { unfold solve_component in Hsolve. destruct cn as [|k0 cn0] eqn:Hcn.
      - injection Hsolve as <- <-. exists [], []. split_and!; try done.
        + apply extends_nil.
        + by rewrite app_nil_r.
      - rewrite <-Hcn in *.
        apply bind_Ok in Hsolve as (M & HM & Hsolve).
        apply resolve_pairs_spec in Hsolve as (tr & Htr & Hext1 & -> & _).
        exists tr, (munkres_compute M). split_and!; try done.
        + intros ->. by subst.
        + eauto. }
    exists (Component cn co tr :: comps). split_and!.
    + constructor; [|done]. split; [|by exists asg].
      exists pre, k, n, post, a, u, ov, nv, nv2, ov2. by split.
    + change (Component cn co tr :: comps)
        with ([Component cn co tr] ++ comps).
      rewrite run_trace_app, all_routes_app.
      eapply extends_trans; [|done].
      unfold run_trace. simpl. by rewrite app_nil_r.
    + change (Component cn co tr :: comps)
        with ([Component cn co tr] ++ comps).
      rewrite run_trace_app, leftovers_app, app_assoc.
      unfold run_trace at 1. simpl. by rewrite app_nil_r.
    + simpl. by eapply side_rel_app.
    + simpl. by eapply side_rel_app.
Qed.

(** A run that returns, as the list of its components. *)
Lemma run_components assigned unassigned :
  cluster_assignment = Ok (assigned, unassigned) →
  ∃ comps,
    Forall component_ok comps ∧
    keys assigned = keys old_clusters ∧
    (∀ g, g ∈ keys old_clusters →
       dict_get assigned g = Some (placed g (all_routes (run_trace comps)))) ∧
    unassigned = leftovers (run_trace comps) ∧
    NoDup (comps ≫= comp_new) ∧
    NoDup (comps ≫= comp_old).
Proof.
  unfold cluster_assignment. intros Hrun.
  apply bind_Ok in Hrun as ([[[a1 u1] ov1] nv1] & Hloop & [= <- <-]).
  apply (main_loop_components new_clusters []) in Hloop
    as (comps & Hok & Hext & Hu & Hn & Ho); [| done | done].
  exists comps. split_and!; try done.
  - destruct Hext as [-> _]. apply keys_fmap_const.
  - intros g Hg. apply dict_get_is_Some in Hg as [l Hl].
    erewrite extends_lookup; [| done |].
    2:{ rewrite dict_get_fmap_const, Hl. done. }
    done.
  - by destruct Hn as (added & -> & ? & _).
  - by destruct Ho as (added & -> & ? & _).
Qed.
End RunComponents.

(** ** What a run returns in [unassigned] *)

Section Unassigned.
Context {K E X : Type} `{EqDecision K} `{EqDecision E}.
Variable recursion_limit : nat.
Variable munkres_compute : matrix → list (nat * nat).
Variable old_clusters new_clusters : dict K (list E).
Variable similarity_function : list E → list E → list E → list E → X + Z.
Variable claims rejected : dict K (list E).

Abbreviation cluster_assignment :=
  (cluster_assignment recursion_limit munkres_compute old_clusters new_clusters
     similarity_function claims rejected).
Abbreviation routed := (routed old_clusters claims rejected).
Abbreviation component_ok :=
  (component_ok recursion_limit munkres_compute old_clusters new_clusters
     similarity_function claims rejected).

(** The entities of a new cluster that are left over are all its
    unclaimed entities, and its column is not below the number of old
    clusters. *)
Lemma unplaced_routed co col (ds : list (E * option K)) :
  Forall (λ q, routed co col q.1 q.2) ds →
  unplaced ds ≠ [] →
  ¬ col < length old_clusters ∧
  unplaced ds = filter (λ e, e ∉ claims_set claims) ds.*1.
Proof.
  intros Hds Hne.
  assert (¬ col < length old_clusters) as Hcol.
  { destruct (unplaced ds) as [|e t] eqn:Hun; [done|].
    assert (e ∈ unplaced ds) as He%elem_of_unplaced by (rewrite Hun; by left).
    rewrite Forall_forall in Hds. specialize (Hds _ He). simpl in Hds.
    by inversion Hds. }
  split; [done|]. clear Hne.
  induction Hds as [|[e d] ds Hd _ IH]; [done|].
  unfold unplaced in *. rewrite fmap_cons, !filter_cons.
  cbn [fst snd] in *.
  inversion Hd as [o Hcl ?| | |Hcl ?]; subst; try done.
  - rewrite decide_False by done.
    rewrite decide_False by (by intros ?). done.
  - rewrite !decide_True by done. rewrite fmap_cons. cbn [fst].
    by f_equal.
Qed.

Lemma component_resolution (comps : list (component K E)) r :
  Forall component_ok comps → r ∈ run_trace comps →
  ∃ c p, c ∈ comps ∧ r ∈ comp_trace c ∧
         resolves old_clusters new_clusters claims rejected
                  (comp_new c) (comp_old c) p r.
Proof.
  intros Hok (c & Hr & Hc)%list_elem_of_bind.
  rewrite Forall_forall in Hok.
  destruct (Hok c Hc) as (_ & asg & Hres & _).
  apply list_elem_of_lookup in Hr as [i Hi].
  destruct (Forall2_lookup_r _ _ _ _ _ Hres Hi) as (p & _ & Hp).
  exists c, p. split_and!; [done | by eapply list_elem_of_lookup_2 | done].
Qed.

(** X10. Every list of [unassigned] is not empty and is made of the
    unclaimed entities of one new cluster, all of them, in the order of the
    new cluster. *)
Theorem unassigned_clusters assigned unassigned t :
  cluster_assignment = Ok (assigned, unassigned) →
  t ∈ unassigned →
  t ≠ [] ∧
  ∃ k n, (k, n) ∈ new_clusters ∧
         t = filter (λ e, e ∉ claims_set claims) n.
Proof.
  intros Hrun Ht.
  destruct (run_components _ _ _ _ _ _ _ _ _ Hrun)
    as (comps & Hok & _ & _ & -> & _).
  unfold leftovers in Ht. apply list_elem_of_bind in Ht as (r & Ht & Hr).
  destruct (component_resolution _ _ Hok Hr)
    as (c & p & _ & _ & (_ & _ & _ & Hget & Hroutes)).
  destruct (unplaced (res_routes r)) as [|e t'] eqn:Hun;
    [by apply elem_of_nil in Ht|].
  apply list_elem_of_singleton in Ht as ->. split; [done|].
  exists (res_new r), (res_routes r).*1. split; [by apply dict_get_Some_elem|].
  rewrite <-Hun. eapply unplaced_routed; [done|]. by rewrite Hun.
Qed.
End Unassigned.

(** ** Entities stay in their component *)

Section Placement.
Context {K E X : Type} `{EqDecision K} `{EqDecision E}.
Variable recursion_limit : nat.
Variable munkres_compute : matrix → list (nat * nat).
Variable old_clusters new_clusters : dict K (list E).
Variable similarity_function : list E → list E → list E → list E → X + Z.
Variable claims rejected : dict K (list E).

Abbreviation cluster_assignment :=
  (cluster_assignment recursion_limit munkres_compute old_clusters new_clusters
     similarity_function claims rejected).
Abbreviation connected := (connected old_clusters new_clusters).

(** X8. An entity of [assigned[g]] is an entity of a new cluster that is
    connected with the old cluster [g] by a chain of shared entities:
    entities do not leave their connected component. *)
Theorem entities_stay_in_component assigned unassigned g la e :
  NoDup (keys new_clusters) →
  cluster_assignment = Ok (assigned, unassigned) →
  dict_get assigned g = Some la → e ∈ la →
  ∃ c l, (c, l) ∈ new_clusters ∧ e ∈ l ∧ connected (inl c) (inr g).
Proof.
  intros Hnd Hrun Hla He.
  destruct (run_components _ _ _ _ _ _ _ _ _ Hrun)
    as (comps & Hok & Hkeys & Hget & _).
  rewrite Hget in Hla.
  2:{ rewrite <-Hkeys. apply dict_get_is_Some. eauto. }
  injection Hla as <-.
  apply elem_of_placed, elem_of_all_routes in He as (r & Hr & He).
  destruct (component_resolution _ _ _ _ _ _ _ _ _ Hok Hr)
    as (c & p & Hc & _ & (Hnew & Hcol & Hco & Hsigs & Hroutes)).
  assert (e ∈ (res_routes r).*1) as Hel.
  { apply list_elem_of_fmap. by exists (e, Some g). }
  exists (res_new r), (res_routes r).*1.
  split_and!; [by apply dict_get_Some_elem | done |].
  rewrite Forall_forall in Hroutes. specialize (Hroutes _ He).
  simpl in Hroutes.
  assert (∀ o, dict_get (reversed_old old_clusters) e = Some o →
               connected (inl (res_new r)) (inr o)) as Hheld.
  { intros o Ho. by eapply connected_step_old. }
  inversion Hroutes as [o|g' o|g'|]; subst; [by apply Hheld.. |].
  rewrite Forall_forall in Hok. destruct (Hok c Hc) as [Hdisc _].
  destruct (component_rooted (X:=X) _ _ _ _ _ _ _ _ _ Hnd Hdisc)
    as (k & Hn & Ho).
  rewrite Forall_forall in Hn, Ho.
  transitivity (inl k : K + K); [symmetry; apply Hn | apply Ho];
    by eapply list_elem_of_lookup_2.
Qed.
End Placement.

(** ** A call without claims and rejections *)

Lemma NoDup_bind_sub {A B} (f g : A → list B) (l : list A) :
  NoDup (l ≫= g) →
  (∀ a, a ∈ l → f a ⊆ g a) →
  (∀ a, a ∈ l → NoDup (g a) → NoDup (f a)) →
  NoDup (l ≫= f).
Proof.
  induction l as [|a l IH]; intros Hnd Hsub Hf; [constructor|].
  rewrite bind_cons in *. apply NoDup_app in Hnd as (Ha & Hdisj & Hl).
  apply NoDup_app. split_and!.
  - apply Hf; [by left | done].
  - intros x Hx (b & Hxb & Hb)%list_elem_of_bind.
    apply (Hdisj x); [by apply (Hsub a); [left|] |].
    apply list_elem_of_bind. exists b. split; [|done].
    apply (Hsub b); [by right | done].
  - apply IH; [done | |]; intros; [apply Hsub | apply Hf]; try done;
      by right.
Qed.

Lemma omap_bind {A B C} (f : B → option C) (g : A → list B) (l : list A) :
  omap f (l ≫= g) = l ≫= (λ a, omap f (g a)).
Proof.
  induction l as [|a l IH]; [done|].
  by rewrite !bind_cons, omap_app, IH.
Qed.

Section WholeClusters.
Context {K E X : Type} `{EqDecision K} `{EqDecision E}.
Variable recursion_limit : nat.
Variable munkres_compute : matrix → list (nat * nat).
Variable old_clusters new_clusters : dict K (list E).
Variable similarity_function : list E → list E → list E → list E → X + Z.
Variable claims rejected : dict K (list E).
Hypothesis solver : solver_ok munkres_compute.

Abbreviation cluster_assignment :=
  (cluster_assignment recursion_limit munkres_compute old_clusters new_clusters
     similarity_function claims rejected).
Abbreviation routed := (routed old_clusters claims rejected).
Abbreviation resolves := (resolves old_clusters new_clusters claims rejected).
Abbreviation component_ok :=
  (component_ok recursion_limit munkres_compute old_clusters new_clusters
     similarity_function claims rejected).
Abbreviation res_target := (res_target old_clusters).

Implicit Types (tr : list (@resolution K E)) (ds : list (E * option K)).

Lemma placed_uniform g d ds :
  Forall (λ q, q.2 = d) ds →
  placed g ds = if decide (d = Some g) then ds.*1 else [].
Proof.
  unfold placed. induction 1 as [|[e d'] ds Hd _ IH].
  - by destruct (decide _).
  - simpl in Hd. subst d'. rewrite filter_cons. cbn [snd].
    destruct (decide (d = Some g)); [|done].
    by rewrite !fmap_cons, IH.
Qed.

Lemma placed_no_target g tr :
  Forall (λ r, Forall (λ q, q.2 = res_target r) (res_routes r)) tr →
  g ∉ omap res_target tr →
  placed g (all_routes tr) = [].
Proof.
  induction 1 as [|r tr Hr _ IH]; intros Hg; [done|].
  change (r :: tr) with ([r] ++ tr) in *.
  rewrite all_routes_app, placed_app. rewrite omap_app, elem_of_app in Hg.
  rewrite IH by tauto. rewrite app_nil_r.
  unfold all_routes. simpl. rewrite app_nil_r.
  rewrite (placed_uniform _ _ _ Hr).
  destruct (decide (res_target r = Some g)) as [Heq|]; [|done].
  destruct Hg. left. simpl. rewrite Heq. by left.
Qed.

(** With pairwise distinct targets, an old cluster receives the entities
    of at most one new cluster. *)
Lemma placed_one g tr :
  Forall (λ r, Forall (λ q, q.2 = res_target r) (res_routes r)) tr →
  NoDup (omap res_target tr) →
  placed g (all_routes tr) = [] ∨
  ∃ r, r ∈ tr ∧ placed g (all_routes tr) = (res_routes r).*1.
Proof.
  induction 1 as [|r tr Hr Htr IH]; intros Hnd; [by left|].
  change (r :: tr) with ([r] ++ tr) in *.
  rewrite all_routes_app, placed_app. rewrite omap_app in Hnd.
  apply NoDup_app in Hnd as (_ & Hdisj & Hnd).
  unfold all_routes at 1 3. simpl. rewrite !app_nil_r.
  rewrite (placed_uniform _ _ _ Hr).
  destruct (decide (res_target r = Some g)) as [Heq|].
  - right. exists r. split; [by left|].
    rewrite placed_no_target; [by rewrite app_nil_r | done |].
    apply Hdisj. simpl. rewrite Heq. by left.
  - destruct (IH Hnd) as [->|(r' & Hr' & ->)]; [by left|].
    right. exists r'. split; [by right | done].
Qed.

(** The targets of the resolutions of one assignment are pairwise
    distinct old clusters of the component. *)
Lemma resolves_targets cn co asg tr :
  Forall2 (resolves cn co) asg tr →
  omap res_target tr ⊆ co ∧
  (NoDup asg.*2 → NoDup co → NoDup (omap res_target tr)).
Proof.
  induction 1 as [|p r asg tr (_ & Hcol & Hco & _) Hall [IHsub IHnd]].
  { split; [by intros ? ?%elem_of_nil | constructor]. }
  assert (∀ g, res_target r = Some g → co !! p.2 = Some g) as Htarget.
  { intros g. unfold res_target. rewrite Hco, Hcol.
    by destruct (decide _). }
  split.
  - intros g. simpl. destruct (res_target r) as [g'|] eqn:Hr; [|by apply IHsub].
    intros [->|?]%elem_of_cons; [|by apply IHsub].
    eapply list_elem_of_lookup_2. by apply Htarget.
  - rewrite fmap_cons, NoDup_cons. intros [Hp Hnd] Hndco. simpl.
    destruct (res_target r) as [g|] eqn:Hr; [|by apply IHnd].
    apply NoDup_cons. split; [|by apply IHnd].
    intros (r' & Hr' & Hg)%list_elem_of_omap.
    apply list_elem_of_lookup in Hr' as [i Hi].
    destruct (Forall2_lookup_r _ _ _ _ _ Hall Hi)
      as (p' & Hp' & (_ & Hcol' & Hco' & _)).
    apply Hp. apply list_elem_of_fmap. exists p'.
    split; [|by eapply list_elem_of_lookup_2].
    eapply (NoDup_lookup co); [done | by apply Htarget |].
    revert Hg. unfold res_target. rewrite Hco', Hcol'.
    by destruct (decide _).
Qed.

Lemma component_targets (c : component K E) :
  component_ok c →
  omap res_target (comp_trace c) ⊆ comp_old c ∧
  (NoDup (comp_old c) → NoDup (omap res_target (comp_trace c))).
Proof using solver.
  intros (_ & asg & Hres & Hnil & HM).
  destruct (resolves_targets _ _ _ _ Hres) as [Hsub Hnd].
  split; [done|]. intros Hco. apply Hnd; [|done].
  destruct (decide (comp_new c = [])) as [Hcn|Hcn].
  { rewrite (Hnil Hcn). constructor. }
  destruct (HM Hcn) as (M & HM' & ->).
  pose proof (build_cost_matrix_spec old_clusters new_clusters
                similarity_function claims rejected
                (comp_new c) (comp_old c)) as Hspec.
  destruct (first_raise _) as [e|]; [congruence|].
  destruct Hspec as (M' & HM'' & [Hrows Hcols]).
  assert (M' = M) as -> by congruence.
  destruct (solver M (length (comp_old c) + length (comp_new c)))
    as (_ & Hnd' & _); [| done | lia | done].
  intros ->. apply Hcn. by destruct (comp_new c).
Qed.

Lemma run_targets (comps : list (component K E)) :
  Forall component_ok comps →
  NoDup (comps ≫= comp_old) →
  NoDup (omap res_target (run_trace comps)).
Proof using solver.
  intros Hok Hnd. unfold run_trace. rewrite omap_bind.
  rewrite Forall_forall in Hok.
  eapply NoDup_bind_sub; [done | |].
  - intros c Hc. by apply component_targets, Hok.
  - intros c Hc. by apply component_targets, Hok.
Qed.

Hypothesis no_claims : claims_set claims = [].
Hypothesis no_rejections : ∀ g, dict_get_default rejected g [] = [].

Lemma routes_to_target co col ds r :
  res_current_old r = co → res_column r = col →
  Forall (λ q, routed co col q.1 q.2) ds →
  Forall (λ q, q.2 = res_target r) ds.
Proof using no_claims no_rejections.
  intros Hco Hcol Hds. eapply Forall_impl; [done|].
  intros [e d] Hd. simpl in *.
  unfold res_target. rewrite Hco, Hcol.
  inversion Hd as [o Hcl|g o _ _ _ Hrj|g _ Hlt Hg|_ Hge]; subst.
  - rewrite no_claims in Hcl. by apply elem_of_nil in Hcl.
  - rewrite no_rejections in Hrj. by apply elem_of_nil in Hrj.
  - by rewrite decide_True.
  - by rewrite decide_False.
Qed.

(** X9. When no entity is claimed and no old cluster rejects an entity,
    clusters are neither split nor merged: every list of [assigned] is
    empty or is one new cluster, and every list of [unassigned] is one new
    cluster, not empty. *)
Theorem clusters_move_whole assigned unassigned :
  cluster_assignment = Ok (assigned, unassigned) →
  (∀ g la, dict_get assigned g = Some la →
     la = [] ∨ ∃ c, dict_get new_clusters c = Some la) ∧
  (∀ t, t ∈ unassigned →
     t ≠ [] ∧ ∃ c, dict_get new_clusters c = Some t).
Proof using solver no_claims no_rejections.
  intros Hrun.
  destruct (run_components _ _ _ _ _ _ _ _ _ Hrun)
    as (comps & Hok & Hkeys & Hget & -> & _ & Hndold).
  assert (Forall (λ r, dict_get new_clusters (res_new r)
                         = Some (res_routes r).*1 ∧
                       Forall (λ q, q.2 = res_target r) (res_routes r))
                 (run_trace comps)) as Hall.
  { apply Forall_forall. intros r Hr.
    destruct (component_resolution _ _ _ _ _ _ _ _ _ Hok Hr)
      as (c & p & _ & _ & (_ & Hcol & Hco & Hsigs & Hroutes)).
    split; [done|]. by eapply routes_to_target. }
  split.
  - intros g la Hla. rewrite Hget in Hla.
    2:{ rewrite <-Hkeys. apply dict_get_is_Some. eauto. }
    injection Hla as <-.
    destruct (placed_one g (run_trace comps)) as [->|(r & Hr & ->)].
    + eapply Forall_impl; [done|]. by intros r [_ ?].
    + by apply run_targets.
    + by left.
    + right. exists (res_new r).
      rewrite Forall_forall in Hall. by destruct (Hall r Hr).
  - intros t (r & Ht & Hr)%list_elem_of_bind.
    rewrite Forall_forall in Hall. destruct (Hall r Hr) as [Hsigs Hroutes].
    destruct (unplaced (res_routes r)) as [|e t'] eqn:Hun;
      [by apply elem_of_nil in Ht|].
    apply list_elem_of_singleton in Ht as ->. split; [done|].
    exists (res_new r). rewrite Hsigs. f_equal. rewrite <-Hun.
    destruct (component_resolution _ _ _ _ _ _ _ _ _ Hok Hr)
      as (c & p & _ & _ & (_ & _ & _ & _ & Hrouted)).
    destruct (unplaced_routed old_clusters claims rejected _ _ _ Hrouted)
      as [_ ->]; [by rewrite Hun|].
    rewrite no_claims. clear.
    induction ((res_routes r).*1) as [|x l IH]; [done|].
    rewrite filter_cons, decide_True by apply not_elem_of_nil.
    by f_equal.
Qed.
End WholeClusters.

(** ** Components are complete *)

Section Complete.
Context {K E X : Type} `{EqDecision K} `{EqDecision E}.
Variable recursion_limit : nat.
Variable munkres_compute : matrix → list (nat * nat).
Variable old_clusters new_clusters : dict K (list E).
Variable similarity_function : list E → list E → list E → list E → X + Z.
Variable claims rejected : dict K (list E).

Abbreviation reversed_old := (reversed_old old_clusters).
Abbreviation reversed_new := (reversed_new new_clusters).
Abbreviation discovers :=
  (discovers recursion_limit munkres_compute
     old_clusters new_clusters similarity_function
     claims rejected).
Abbreviation shares := (shares old_clusters new_clusters).

Lemma side_rel_added (P : K → Prop) v l v' k :
  side_rel P [] v l v' →
  (k ∈ l → turned v v' k) ∧ (dict_get v' k = Some true → k ∉ l →
                              dict_get v k = Some true).
Proof.
  intros (added & -> & _ & _ & _ & Hf & Hg). simpl. split.
  - intros Hk. rewrite Forall_forall in Hf. split; [by apply Hf|].
    by rewrite Hg, decide_True.
  - intros Hk Hnot. by rewrite Hg, decide_False in Hk.
Qed.

(** Under closed flags, in partitions, two clusters that share an entity
    are both visited or both not. *)
Lemma closed_flags_shares nv ov c g :
  NoDup (keys new_clusters) → NoDup (keys old_clusters) →
  disjoint_clusters new_clusters → disjoint_clusters old_clusters →
  closed_flags old_clusters new_clusters nv ov →
  shares c g →
  dict_get nv c = Some true ↔ dict_get ov g = Some true.
Proof.
  intros Hndn Hndo Hdn Hdo [Hn Ho] (l & va & e & Hcl & Hgva & Hel & Heva).
  pose proof (dict_get_elem_NoDup _ _ _ Hndn Hcl) as Hl.
  pose proof (dict_get_elem_NoDup _ _ _ Hndo Hgva) as Hva.
  assert (dict_get reversed_new e = Some c) as Hrn
    by (by eapply reverse_index_disjoint).
  assert (dict_get reversed_old e = Some g) as Hro
    by (by eapply reverse_index_disjoint).
  split.
  - intros (sigs & Hsigs & Hscan)%Hn.
    assert (sigs = l) as -> by congruence.
    destruct (Hscan e Hel) as (o & Heq & Hv). congruence.
  - intros (sigs & Hsigs & Hscan)%Ho.
    assert (sigs = va) as -> by congruence.
    destruct (Hscan e Heva) as (o & Heq & Hv). congruence.
Qed.

(** X6. In partitions, a component that the loop discovers contains, with
    a cluster, the clusters that share an entity with it: a new cluster
    and an old cluster that share an entity are both in the component or
    both outside. *)
Theorem component_complete current_new current_old c g :
  NoDup (keys new_clusters) → NoDup (keys old_clusters) →
  disjoint_clusters new_clusters → disjoint_clusters old_clusters →
  discovers current_new current_old →
  shares c g →
  c ∈ current_new ↔ g ∈ current_old.
Proof.
  intros Hndn Hndo Hdn Hdo
    (pre & k & n & post & a0 & u0 & ov0 & nv0 & nv1 & ov1
     & [Hnew Hpre] & Hdisc) Hshares.
  assert ((k, n) ∈ new_clusters) as Hkn.
  { rewrite Hnew. apply elem_of_app. right. by left. }
  apply main_loop_flags in Hpre as (Hclosed0 & _);
    [| done | | apply initial_closed_flags].
  2:{ intros kn ?. rewrite Hnew. apply elem_of_app. by left. }
  pose proof Hdisc as Hflags.
  apply discover_flags in Hflags as (Hclosed1 & _); [| done | done | done].
  pose proof (closed_flags_shares _ _ c g Hndn Hndo Hdn Hdo Hclosed0 Hshares)
    as H0.
  pose proof (closed_flags_shares _ _ c g Hndn Hndo Hdn Hdo Hclosed1 Hshares)
    as H1.
  destruct (discover_spec _ _ _ _ _ _ _ _ _ _ _ Hkn Hdisc)
    as [(_ & -> & -> & _) | (_ & _ & Hn & Ho)].
  { split; by intros ?%elem_of_nil. }
  destruct (side_rel_added _ _ _ _ c Hn) as [Hcin Hcout].
  destruct (side_rel_added _ _ _ _ g Ho) as [Hgin Hgout].
  split.
  - intros [Hf Ht]%Hcin. apply H1 in Ht.
    destruct (decide (g ∈ current_old)) as [|Hnot]; [done|].
    apply Hgout, H0 in Ht; [congruence | done].
  - intros [Hf Ht]%Hgin. apply H1 in Ht.
    destruct (decide (c ∈ current_new)) as [|Hnot]; [done|].
    apply Hcout, H0 in Ht; [congruence | done].
Qed.
End Complete.

(** ** The depth of the recursion *)

Lemma foldM_within_ext {X A B} (f g : A → B → res X A) l :
  (∀ s b, within_depth (f s b) → g s b = f s b) →
  ∀ a, within_depth (foldM f l a) → foldM g l a = foldM f l a.
Proof.
  intros Hfg. induction l as [|b l IH]; intros a Hw; [done|].
  simpl in *. destruct (f a b) as [a'|e] eqn:Hf.
  - rewrite Hfg, Hf by (by rewrite Hf). simpl. by apply IH.
  - rewrite Hfg, Hf; [done|]. by rewrite Hf.
Qed.

Lemma within_depth_bind_inv {X A B} (m : res X A) (f : A → res X B) :
  within_depth (a ← m; f a) → within_depth m.
Proof. unfold within_depth. by intros Hw ->. Qed.

Section Fuel.
Context {K E X : Type} `{EqDecision K} `{EqDecision E}.

(** A traversal that does not reach the recursion limit does the same
    under a larger limit. *)
Lemma graph_traversal_fuel fuel :
  ∀ fuel' ct co (rt ro : dict E K) (tc oc : dict K (list E)) tv ov c,
    fuel ≤ fuel' →
    within_depth (graph_traversal (X:=X) fuel ct co rt ro tc oc tv ov c) →
    graph_traversal (X:=X) fuel' ct co rt ro tc oc tv ov c
    = graph_traversal fuel ct co rt ro tc oc tv ov c.
Proof.
  induction fuel as [|fuel IH];
    intros fuel' ct co rt ro tc oc tv ov c Hle Hw; [done|].
  destruct fuel' as [|fuel']; [lia|]. simpl in *.
  destruct (dict_lookup tc c) as [sigs|]; simpl in *; [|done].
  apply foldM_within_ext; [|done].
  intros [[[a b] va] vb] sig Hstep.
  destruct (dict_lookup ro sig) as [other|]; simpl in *; [|done].
  destruct (dict_lookup vb other) as [[|]|]; simpl in *; [done| |done].
  rewrite IH; [done | lia |].
  intros Hr. by rewrite Hr in Hstep.
Qed.

Variable recursion_limit : nat.
Variable munkres_compute : matrix → list (nat * nat).
Variable old_clusters new_clusters : dict K (list E).
Variable similarity_function : list E → list E → list E → list E → X + Z.
Variable claims rejected : dict K (list E).

Lemma discover_fuel fuel fuel' k n ov nv :
  fuel ≤ fuel' →
  within_depth (discover (X:=X) old_clusters new_clusters fuel k n ov nv) →
  discover (X:=X) old_clusters new_clusters fuel' k n ov nv
  = discover old_clusters new_clusters fuel k n ov nv.
Proof.
  intros Hle Hw. unfold discover in *.
  destruct (dict_lookup nv k) as [[|]|]; simpl in *; [done| |done].
  apply foldM_within_ext; [|done].
  intros [[[a b] va] vb] sig Hstep.
  destruct (dict_lookup _ sig) as [other|]; simpl in *; [|done].
  destruct (dict_lookup vb other) as [[|]|]; simpl in *; [done| |done].
  rewrite (graph_traversal_fuel fuel); [done | lia |].
  intros Hr. by rewrite Hr in Hstep.
Qed.

Lemma component_step_fuel fuel fuel' s kn :
  fuel ≤ fuel' →
  within_depth (component_step munkres_compute old_clusters new_clusters
                  similarity_function claims rejected fuel s kn) →
  component_step munkres_compute old_clusters new_clusters
    similarity_function claims rejected fuel' s kn
  = component_step munkres_compute old_clusters new_clusters
      similarity_function claims rejected fuel s kn.
Proof.
  intros Hle Hw. destruct s as [[[a u] ov] nv], kn as [k n].
  unfold component_step in *.
  rewrite (discover_fuel fuel); [done | done |].
  exact (within_depth_bind_inv _ _ Hw).
Qed.

(** X12. The nesting of [graph_traversal] is bounded by the number of
    clusters: with a recursion limit that is at least
    [len(old_clusters) + len(new_clusters)] the call never reaches it, and
    its outcome does not depend on the limit. *)
Theorem recursion_depth_bounded :
  cluster_count old_clusters new_clusters ≤ recursion_limit →
  cluster_assignment recursion_limit munkres_compute old_clusters
    new_clusters similarity_function claims rejected
  = cluster_assignment (cluster_count old_clusters new_clusters)
      munkres_compute old_clusters new_clusters similarity_function claims
      rejected ∧
  cluster_assignment recursion_limit munkres_compute old_clusters
    new_clusters similarity_function claims rejected ≠ Raise RecursionError.
Proof.
  intros Hle.
  pose proof (cluster_assignment_within_depth
                (cluster_count old_clusters new_clusters) munkres_compute
                old_clusters new_clusters similarity_function claims rejected
                (Nat.le_refl _)) as Hw.
  cut (cluster_assignment recursion_limit munkres_compute old_clusters
         new_clusters similarity_function claims rejected
       = cluster_assignment (cluster_count old_clusters new_clusters)
           munkres_compute old_clusters new_clusters similarity_function
           claims rejected).
  { intros ->. by split. }
  unfold cluster_assignment, main_loop in *.
  apply within_depth_bind_inv in Hw.
  by rewrite (foldM_within_ext _ _ _
                (λ s kn, component_step_fuel _ recursion_limit s kn Hle)
                _ Hw).
Qed.
End Fuel.

(** ** The reverse index of a partition that is not disjoint *)

Section ReverseIndexLast.
Context {K E : Type} `{EqDecision E}.
Implicit Types (cl : dict K (list E)) (d : dict E K).

Lemma reverse_index_inner_other d (k0 : K) (va : list E) e :
  e ∉ va →
  dict_get (fold_left (λ d v, dict_set d v k0) va d) e = dict_get d e.
Proof.
  revert d. induction va as [|v va IH]; intros d Hnot; simpl; [done|].
  apply not_elem_of_cons in Hnot as [Hne Hnot].
  rewrite IH by done. by rewrite dict_get_set_ne.
Qed.

Lemma reverse_index_inner_set d (k0 : K) (va : list E) e :
  e ∈ va →
  dict_get (fold_left (λ d v, dict_set d v k0) va d) e = Some k0.
Proof.
  revert d. induction va as [|v va IH]; intros d Hin; simpl;
    [by apply elem_of_nil in Hin|].
  destruct (decide (e ∈ va)) as [|Hnot]; [by apply IH|].
  apply elem_of_cons in Hin as [->|]; [|done].
  rewrite reverse_index_inner_other by done. apply dict_get_set_eq.
Qed.

Lemma reverse_index_fold_other cl d e :
  (∀ k va, (k, va) ∈ cl → e ∉ va) →
  dict_get (fold_left (λ d kva, fold_left (λ d v, dict_set d v kva.1)
                                          kva.2 d) cl d) e
  = dict_get d e.
Proof.
  revert d. induction cl as [|[k0 va0] cl IH]; intros d Hnot; simpl; [done|].
  rewrite IH by (intros k va ?; apply (Hnot k); by right).
  apply reverse_index_inner_other. apply (Hnot k0). by left.
Qed.

(** The last cluster that holds an entity. *)
Lemma last_holder cl e :
  (∃ k va, (k, va) ∈ cl ∧ e ∈ va) →
  ∃ pre k va post,
    cl = pre ++ (k, va) :: post ∧ e ∈ va ∧
    ∀ k' va', (k', va') ∈ post → e ∉ va'.
Proof using Type*.
  induction cl as [|[k0 va0] cl IH]; intros (k & va & Hin & He).
  { by apply elem_of_nil in Hin. }
  destruct (decide (Exists (λ kva, e ∈ kva.2) cl)) as [Hex|Hno].
  - apply Exists_exists in Hex as ([k1 va1] & Hin1 & He1).
    destruct IH as (pre & k2 & va2 & post & -> & He2 & Hpost); [by eauto|].
    by exists ((k0, va0) :: pre), k2, va2, post.
  - rewrite Exists_exists in Hno.
    assert (∀ k' va', (k', va') ∈ cl → e ∉ va') as Hpost.
    { intros k' va' ? ?. apply Hno. by exists (k', va'). }
    apply elem_of_cons in Hin as [[= -> ->]|Hin]; [|by destruct (Hpost k va)].
    by exists [], k0, va0, cl.
Qed.

(** X15. The reverse index maps an entity to the key of the last cluster,
    in the order of iteration, that holds it; it has no entry for an entity
    that no cluster holds. *)
Theorem reverse_index_last cl e k :
  dict_get (reverse_index cl) e = Some k ↔
  ∃ pre va post,
    cl = pre ++ (k, va) :: post ∧ e ∈ va ∧
    ∀ k' va', (k', va') ∈ post → e ∉ va'.
Proof.
  assert (∀ pre va post,
    cl = pre ++ (k, va) :: post → e ∈ va →
    (∀ k' va', (k', va') ∈ post → e ∉ va') →
    dict_get (reverse_index cl) e = Some k) as Hlast.
  { intros pre va post -> He Hpost. unfold reverse_index.
    rewrite fold_left_app. simpl.
    rewrite reverse_index_fold_other by done.
    by apply reverse_index_inner_set. }
  split; [|intros (pre & va & post & ? & ? & ?); by eapply Hlast].
  intros Hget.
  destruct (last_holder cl e) as (pre & k' & va & post & Hcl & He & Hpost).
  { apply reverse_index_sound in Hget as (va & ? & ?). eauto. }
  assert (k' = k) as ->; [|by exists pre, va, post].
  subst cl. unfold reverse_index in Hget.
  rewrite fold_left_app in Hget. simpl in Hget.
  rewrite reverse_index_fold_other in Hget by done.
  rewrite reverse_index_inner_set in Hget by done. congruence.
Qed.
End ReverseIndexLast.

(** ** What a traversal does *)

Section TraversalEffect.
Context {K E X : Type} `{EqDecision K} `{EqDecision E}.

Lemma graph_traversal_first fuel
    ct co (rt ro : dict E K) (tc oc : dict K (list E)) tv ov c
    ct' co' tv' ov' :
  graph_traversal (X:=X) fuel ct co rt ro tc oc tv ov c
    = Ok (ct', co', tv', ov') →
  side_rel (λ _, True) (ct ++ [c]) (dict_set tv c true) ct' tv' ∧
  side_rel (λ _, True) co ov co' ov'.
Proof.
  destruct fuel as [|fuel]; simpl; [done|]. intros Hrun.
  apply bind_Ok in Hrun as (sigs & _ & Hloop).
  refine (foldM_invariant
    (λ _ (s : @sides K),
       let '(a, b, va, vb) := s in
       side_rel (λ _, True) (ct ++ [c]) (dict_set tv c true) a va ∧
       side_rel (λ _, True) co ov b vb)
    _ sigs _ (ct', co', tv', ov') _ _ Hloop).
  - split; apply side_rel_refl.
  - intros _ sig [[[a b] va] vb] [[[a' b'] va'] vb'] [Ha Hb] Hsig Hstep.
    apply bind_Ok in Hstep as (other & _ & Hstep).
    apply bind_Ok in Hstep as (seen & Hseen%dict_lookup_Ok & Hstep).
    destruct seen; [by injection Hstep as <- <- <- <-|].
    apply bind_Ok in Hstep as ([[[b1 a1] vb1] va1] & Hrec & [= <- <- <- <-]).
    apply (graph_traversal_spec (λ _, True)) in Hrec as [Hb1 Ha1];
      [| done | done | done].
    apply (side_rel_mono _ (λ _, True)) in Ha1; [|done].
    split; by eapply side_rel_trans.
Qed.

(** X11. A traversal that starts from a cluster that is not visited and
    returns: it appended the cluster and then further clusters to the list
    of its side, and clusters to the list of the other side, all pairwise
    distinct; the appended clusters are those whose flag went from [False]
    to [True], no other flag changed and no key was added; and for every
    appended cluster, the entries of its entities in the reverse index of
    the opposite side are visited at the end. *)
Theorem graph_traversal_effect fuel
    ct co (rt ro : dict E K) (tc oc : dict K (list E)) tv ov c
    ct' co' tv' ov' :
  graph_traversal (X:=X) fuel ct co rt ro tc oc tv ov c
    = Ok (ct', co', tv', ov') →
  dict_get tv c = Some false →
  ∃ this other,
    ct' = ct ++ c :: this ∧ co' = co ++ other ∧
    NoDup (c :: this) ∧ NoDup other ∧
    keys tv' = keys tv ∧ keys ov' = keys ov ∧
    (∀ k, dict_get tv' k = if decide (k ∈ c :: this) then Some true
                           else dict_get tv k) ∧
    (∀ k, dict_get ov' k = if decide (k ∈ other) then Some true
                           else dict_get ov k) ∧
    Forall (λ k, dict_get tv k = Some false) (c :: this) ∧
    Forall (λ k, dict_get ov k = Some false) other ∧
    Forall (scanned tc ro ov') (c :: this) ∧
    Forall (scanned oc rt tv') other.
Proof.
  intros Hrun Hc.
  destruct (graph_traversal_first _ _ _ _ _ _ _ _ _ _ _ _ _ _ Hrun)
    as [(this & -> & Hnd & _ & Hkeys & Hf & Hg)
        (other & -> & Hnd' & _ & Hkeys' & Hf' & Hg')].
  destruct (graph_traversal_closed _ _ _ _ _ _ _ _ _ _ _ _ _ _ Hrun Hc)
    as (_ & Hthis & Hother).
  assert (c ∉ this) as Hnot.
  { intros Hin. rewrite Forall_forall in Hf. specialize (Hf c Hin).
    by rewrite dict_get_set_eq in Hf. }
  assert (∀ k, dict_get tv' k = if decide (k ∈ c :: this) then Some true
                                else dict_get tv k) as Hg1.
  { intros k. rewrite Hg, dict_get_set.
    destruct (decide (k ∈ this)) as [Hin|Hout].
    - by rewrite decide_True by (by right).
    - destruct (decide (c = k)) as [->|Hne].
      + by rewrite decide_True by (by left).
      + rewrite decide_False; [done|].
        by intros [->|?]%elem_of_cons. }
  assert (Forall (λ k, dict_get tv k = Some false) (c :: this)) as Hf1.
  { constructor; [done|]. apply Forall_forall. intros k Hin.
    rewrite Forall_forall in Hf. specialize (Hf k Hin).
    rewrite dict_get_set_ne in Hf; [done|]. by intros ->. }
  exists this, other. split_and!; try done.
  - by rewrite <-app_assoc.
  - by apply NoDup_cons.
  - rewrite Hkeys. apply keys_dict_set. eauto.
  - apply Forall_forall. intros k Hin. apply Hthis. split.
    + rewrite Forall_forall in Hf1. by apply Hf1.
    + by rewrite Hg1, decide_True.
  - apply Forall_forall. intros k Hin. apply Hother. split.
    + rewrite Forall_forall in Hf'. by apply Hf'.
    + by rewrite Hg', decide_True.
Qed.
End TraversalEffect.

(** ** The entries of the cost matrix *)



Section CostEntries.
Context {K E X : Type} `{EqDecision K} `{EqDecision E}.
Variable old_clusters new_clusters : dict K (list E).
Variable similarity_function : list E → list E → list E → list E → X + Z.
Variable claims rejected : dict K (list E).

Abbreviation cost_row :=
  (cost_row old_clusters new_clusters similarity_function claims rejected).
Abbreviation build_cost_matrix :=
  (build_cost_matrix old_clusters new_clusters similarity_function
     claims rejected).
Abbreviation old_cost :=
  (old_cost old_clusters new_clusters similarity_function claims rejected).
Abbreviation dummy_cost := (dummy_cost new_clusters similarity_function).





End CostEntries.

(** ** The exceptions of a call on partitions of the same entities *)

Lemma raises_only_bind {X A B} (Q : exn X → Prop)
    (m : res X A) (f : A → res X B) :
  raises_only Q m → (∀ a, m = Ok a → raises_only Q (f a)) →
  raises_only Q (a ← m; f a).
Proof.
  unfold raises_only. destruct m as [a|e]; simpl; [eauto|].
  intros Hm _ e' [= <-]. by apply Hm.
Qed.

Lemma raises_only_Ok {X A} (Q : exn X → Prop) (a : A) : raises_only Q (Ok a).
Proof. done. Qed.

Lemma raises_only_foldM {X A B} (Q : exn X → Prop) (I : A → Prop)
    (f : A → B → res X A) l :
  (∀ s b, I s → b ∈ l →
     raises_only Q (f s b) ∧ ∀ s', f s b = Ok s' → I s') →
  ∀ a, I a → raises_only Q (foldM f l a).
Proof.
  induction l as [|b l IH]; intros Hstep a Ha; simpl; [done|].
  destruct (Hstep a b Ha ltac:(by left)) as [Hb Hnext].
  apply raises_only_bind; [done|]. intros a' Ha'.
  apply IH; [|by apply Hnext].
  intros s b' Hs Hb'. apply Hstep; [done | by right].
Qed.

Lemma raises_only_dict_lookup {X A B} `{EqDecision A} (Q : exn X → Prop)
    (d : dict A B) k :
  k ∈ keys d → raises_only Q (dict_lookup d k).
Proof.
  intros [v Hv]%dict_get_is_Some. unfold dict_lookup. by rewrite Hv.
Qed.

Lemma raises_only_list_index {X A} (l : list A) i :
  raises_only no_key_error (list_index (X:=X) l i).
Proof.
  unfold list_index. destruct (l !! i); [done|]. intros e [= <-]. by left.
Qed.

Lemma raises_only_dict_append {X A B} `{EqDecision A} (Q : exn X → Prop)
    (d : dict A (list B)) k x :
  k ∈ keys d → raises_only Q (dict_append (X:=X) d k x).
Proof.
  intros Hk. unfold dict_append.
  apply raises_only_bind; [by apply raises_only_dict_lookup | done].
Qed.

Lemma dict_append_keys {X A B} `{EqDecision A}
    (d d' : dict A (list B)) k x :
  dict_append (X:=X) d k x = Ok d' → keys d' = keys d.
Proof.
  unfold dict_append. intros Hrun.
  apply bind_Ok in Hrun as (l & Hl%dict_lookup_Ok & [= <-]).
  apply keys_dict_set. eauto.
Qed.

Section TraversalErrors.
Context {K E X : Type} `{EqDecision K} `{EqDecision E}.

Lemma graph_traversal_raises fuel :
  ∀ ct co (rt ro : dict E K) (tc oc : dict K (list E)) tv ov c,
    indexed tc oc ro → indexed oc tc rt →
    keys tv = keys tc → keys ov = keys oc →
    c ∈ keys tc →
    raises_only no_key_error
      (graph_traversal (X:=X) fuel ct co rt ro tc oc tv ov c).
Proof.
  induction fuel as [|fuel IH];
    intros ct co rt ro tc oc tv ov c Hro Hrt Htv Hov Hc; simpl.
  { intros e [= <-]. right. by right. }
  apply raises_only_bind; [by apply raises_only_dict_lookup|].
  intros sigs Hsigs%dict_lookup_Ok.
  apply (raises_only_foldM _
    (λ s : @sides K, let '(_, _, va, vb) := s in
                     keys va = keys tc ∧ keys vb = keys oc)).
  - intros [[[a b] va] vb] sig [Hva Hvb] Hsig.
    destruct (Hro c sigs sig Hsigs Hsig) as (o & Ho & Hkey).
    apply (dict_lookup_Ok (X:=X)) in Ho. rewrite !Ho. simpl.
    destruct (dict_get vb o) as [seen|] eqn:Hseen.
    2:{ apply dict_get_None in Hseen. by rewrite Hvb in Hseen. }
    apply (dict_lookup_Ok (X:=X)) in Hseen. rewrite !Hseen. simpl.
    apply dict_lookup_Ok in Hseen.
    destruct seen.
    { split; [done|]. intros s' Heq. by injection Heq as <-. }
    split.
    + apply raises_only_bind; [|done]. by apply IH.
    + intros [[[a' b'] va'] vb'] Hstep.
      apply bind_Ok in Hstep as ([[[b1 a1] vb1] va1] & Hrec & [= <- <- <- <-]).
      apply (graph_traversal_spec (λ _, True)) in Hrec as [Hb1 Ha1];
        [| done | done | done].
      apply side_rel_keys in Hb1, Ha1. split; congruence.
  - split; [|done]. rewrite <-Htv. apply keys_dict_set.
    apply dict_get_is_Some. by rewrite Htv.
Qed.
End TraversalErrors.

Section RunErrors.
Context {K E X : Type} `{EqDecision K} `{EqDecision E}.
Variable recursion_limit : nat.
Variable munkres_compute : matrix → list (nat * nat).
Variable old_clusters new_clusters : dict K (list E).
Variable similarity_function : list E → list E → list E → list E → X + Z.
Variable claims rejected : dict K (list E).

Abbreviation reversed_old := (reversed_old old_clusters).
Abbreviation reversed_new := (reversed_new new_clusters).
Abbreviation cluster_assignment :=
  (cluster_assignment recursion_limit munkres_compute old_clusters new_clusters
     similarity_function claims rejected).

Hypothesis new_known :
  ∀ k n e, (k, n) ∈ new_clusters → e ∈ n →
    ∃ g va, (g, va) ∈ old_clusters ∧ e ∈ va.
Hypothesis old_known :
  ∀ g va e, (g, va) ∈ old_clusters → e ∈ va →
    ∃ k n, (k, n) ∈ new_clusters ∧ e ∈ n.

Lemma new_indexed : indexed new_clusters old_clusters reversed_old.
Proof using new_known.
  intros k sigs sig Hk%dict_get_Some_elem Hsig.
  destruct (new_known _ _ _ Hk Hsig) as (g & va & Hg & He).
  destruct (reverse_index_complete _ _ _ _ Hg He) as [o Ho].
  exists o. split; [done|].
  apply reverse_index_sound in Ho as (va' & ? & _).
  apply list_elem_of_fmap. by exists (o, va').
Qed.

Lemma old_indexed : indexed old_clusters new_clusters reversed_new.
Proof using old_known.
  intros g sigs sig Hg%dict_get_Some_elem Hsig.
  destruct (old_known _ _ _ Hg Hsig) as (k & n & Hk & He).
  destruct (reverse_index_complete _ _ _ _ Hk He) as [c Hc].
  exists c. split; [done|].
  apply reverse_index_sound in Hc as (n' & ? & _).
  apply list_elem_of_fmap. by exists (c, n').
Qed.

Lemma discover_raises fuel k n ov nv :
  NoDup (keys new_clusters) → (k, n) ∈ new_clusters →
  keys nv = keys new_clusters → keys ov = keys old_clusters →
  raises_only no_key_error
    (discover (X:=X) old_clusters new_clusters fuel k n ov nv).
Proof using new_known old_known.
  intros Hnd Hkn Hnv Hov.
  assert (k ∈ keys new_clusters) as Hk.
  { apply list_elem_of_fmap. by exists (k, n). }
  destruct (dict_get nv k) as [seen|] eqn:Hseen.
  2:{ apply dict_get_None in Hseen. by rewrite Hnv in Hseen. }
  destruct seen.
  - unfold discover. apply (dict_lookup_Ok (X:=X)) in Hseen.
    by rewrite Hseen.
  - rewrite discover_traversal; [| by apply dict_get_elem_NoDup | done].
    apply graph_traversal_raises;
      [apply new_indexed | apply old_indexed | done | done | done].
Qed.

Lemma cost_matrix_raises cn co :
  Forall (λ c, c ∈ keys new_clusters) cn →
  Forall (λ g, g ∈ keys old_clusters) co →
  raises_only (λ e, ∃ x, e = CostError x)
    (build_cost_matrix old_clusters new_clusters similarity_function
       claims rejected cn co).
Proof.
  intros Hcn Hco e Hrun.
  pose proof (build_cost_matrix_spec old_clusters new_clusters
                similarity_function claims rejected cn co) as Hspec.
  destruct (first_raise _) as [e'|] eqn:Hfirst.
  2:{ destruct Hspec as (M & HM & _). congruence. }
  assert (e' = e) as -> by congruence.
  apply (first_raise_Forall (λ e, ∃ x, e = CostError x)) in Hfirst; [done|].
  rewrite Forall_forall in Hcn, Hco.
  apply Forall_forall. intros r (new & Hr & Hnew)%list_elem_of_bind e' ->.
  destruct (proj2 (dict_get_is_Some _ _) (Hcn _ Hnew)) as [nc Hnc].
  apply (dict_lookup_Ok (X:=X)) in Hnc.
  apply elem_of_app in Hr as [(old & Hr & Hold)%list_elem_of_fmap
                             |(j & Hr & _)%list_elem_of_fmap].
  - destruct (proj2 (dict_get_is_Some _ _) (Hco _ Hold)) as [oc Hoc].
    apply (dict_lookup_Ok (X:=X)) in Hoc.
    unfold old_cost in Hr. rewrite Hnc, Hoc in Hr. simpl in Hr.
    unfold call_similarity in Hr.
    destruct (similarity_function _ _ _ _); [|done].
    injection Hr as ->. eauto.
  - unfold dummy_cost in Hr. rewrite Hnc in Hr. simpl in Hr.
    unfold call_similarity in Hr.
    destruct (similarity_function _ _ _ _); [|done].
    injection Hr as ->. eauto.
Qed.

Lemma resolve_sig_raises co col a t sig :
  is_Some (dict_get reversed_old sig) →
  Forall (λ g, g ∈ keys old_clusters) co →
  keys a = keys old_clusters →
  raises_only no_key_error
    (resolve_sig (X:=X) old_clusters claims rejected co col (a, t) sig) ∧
  ∀ a' t', resolve_sig (X:=X) old_clusters claims rejected co col (a, t) sig
           = Ok (a', t') → keys a' = keys old_clusters.
Proof.
  intros [o Ho] Hco Ha.
  assert (o ∈ keys a) as Hoa.
  { rewrite Ha. apply reverse_index_sound in Ho as (va & ? & _).
    apply list_elem_of_fmap. by exists (o, va). }
  apply (dict_lookup_Ok (X:=X)) in Ho.
  assert (∀ g, g ∈ keys a →
    raises_only no_key_error
      (a1 ← dict_append (X:=X) a g sig; Ok (a1, t)) ∧
    ∀ a' t', (a1 ← dict_append (X:=X) a g sig; Ok (a1, t)) = Ok (a', t') →
             keys a' = keys old_clusters) as Happend.
  { intros g Hg. split.
    - apply raises_only_bind; [by apply raises_only_dict_append | done].
    - intros a' t' Hrun. apply bind_Ok in Hrun as (a1 & Ha1 & [= <- <-]).
      apply dict_append_keys in Ha1. congruence. }
  unfold resolve_sig.
  destruct (decide (sig ∈ claims_set claims)).
  { rewrite Ho. simpl. by apply Happend. }
  destruct (decide (col < length old_clusters)).
  2:{ split; [done|]. by intros a' t' [= <- <-]. }
  unfold list_index. destruct (co !! col) as [g|] eqn:Hg; simpl.
  2:{ split; [|done]. intros e [= <-]. by left. }
  destruct (decide (sig ∈ dict_get_default rejected g [])).
  { rewrite Ho. simpl. by apply Happend. }
  apply Happend. rewrite Ha. rewrite Forall_forall in Hco. apply Hco.
  by eapply list_elem_of_lookup_2.
Qed.

Lemma resolve_pair_raises cn co a u p :
  Forall (λ c, c ∈ keys new_clusters) cn →
  Forall (λ g, g ∈ keys old_clusters) co →
  keys a = keys old_clusters →
  raises_only no_key_error
    (resolve_pair (X:=X) old_clusters new_clusters claims rejected
       cn co (a, u) p) ∧
  ∀ a' u', resolve_pair (X:=X) old_clusters new_clusters claims rejected
             cn co (a, u) p = Ok (a', u') → keys a' = keys old_clusters.
Proof using new_known.
  intros Hcn Hco Ha. destruct p as [new old]. split.
  - unfold resolve_pair.
    apply raises_only_bind; [apply raises_only_list_index|].
    intros k Hk%list_index_Ok.
    assert (k ∈ keys new_clusters) as Hkey.
    { rewrite Forall_forall in Hcn. apply Hcn.
      by eapply list_elem_of_lookup_2. }
    apply raises_only_bind; [by apply raises_only_dict_lookup|].
    intros sigs Hsigs%dict_lookup_Ok.
    apply raises_only_bind; [|intros [a' t] _; by destruct t].
    apply (raises_only_foldM _
      (λ s : dict K (list E) * list E, keys s.1 = keys old_clusters));
      [|done].
    intros [a1 t1] sig Ha1 Hsig. simpl in Ha1.
    destruct (resolve_sig_raises co old a1 t1 sig) as [Hr Hkeys];
      [| done | done |].
    { destruct (new_indexed _ _ _ Hsigs Hsig) as (o & Ho & _). eauto. }
    split; [done|]. intros [a2 t2]. apply Hkeys.
  - intros a' u' Hrun.
    apply resolve_pair_spec in Hrun as (r & _ & [Hkeys _] & _). congruence.
Qed.

Lemma solve_component_raises cn co a u :
  Forall (λ c, c ∈ keys new_clusters) cn →
  Forall (λ g, g ∈ keys old_clusters) co →
  keys a = keys old_clusters →
  raises_only no_key_error
    (solve_component (X:=X) munkres_compute old_clusters new_clusters
       similarity_function claims rejected cn co (a, u)) ∧
  ∀ a' u', solve_component (X:=X) munkres_compute old_clusters new_clusters
             similarity_function claims rejected cn co (a, u) = Ok (a', u') →
           keys a' = keys old_clusters.
Proof using new_known.
  intros Hcn Hco Ha. unfold solve_component.
  destruct cn as [|k0 cn0] eqn:Heq.
  { split; [done|]. by intros a' u' [= <- <-]. }
  rewrite <-Heq in *. clear Heq. split.
  - apply raises_only_bind.
    + intros e He. apply cost_matrix_raises in He as [x ->]; [|done|done].
      right. left. eauto.
    + intros M _.
      apply (raises_only_foldM _
        (λ s : dict K (list E) * list (list E),
           keys s.1 = keys old_clusters)); [|done].
      intros [a1 u1] p Ha1 _. simpl in Ha1.
      destruct (resolve_pair_raises cn co a1 u1 p) as [Hr Hkeys];
        [done | done | done |].
      split; [done|]. intros [a2 u2]. apply Hkeys.
  - intros a' u' Hrun. apply bind_Ok in Hrun as (M & _ & Hrun).
    apply resolve_pairs_spec in Hrun as (tr & _ & [Hkeys _] & _). congruence.
Qed.

(** X2. When the old and the new clusters hold the same entities, no
    lookup of a key fails: a call that raises raises [IndexError], from a
    list subscript, or what the cost function raised, or the recursion
    error, and this one only under a recursion limit below the number of
    clusters. *)
Theorem exceptions_on_same_entities err :
  NoDup (keys new_clusters) →
  cluster_assignment = Raise err →
  err = IndexError ∨ (∃ x, err = CostError x) ∨
  (err = RecursionError ∧
   recursion_limit < cluster_count old_clusters new_clusters).
Proof using new_known old_known.
  intros Hnd Hrun.
  cut (raises_only no_key_error cluster_assignment).
  { intros Hraises. destruct (Hraises err Hrun) as [?|[?| ->]]; [eauto..|].
    right. right. split; [done|].
    destruct (decide (cluster_count old_clusters new_clusters
                      ≤ recursion_limit)) as [Hlimit|]; [|lia].
    by destruct (cluster_assignment_within_depth recursion_limit
                   munkres_compute old_clusters new_clusters
                   similarity_function claims rejected Hlimit). }
  clear Hrun.
  unfold cluster_assignment, main_loop.
  apply raises_only_bind; [|done].
  cut (∀ cl, (∀ kn, kn ∈ cl → kn ∈ new_clusters) →
         raises_only no_key_error
           (foldM (component_step munkres_compute old_clusters new_clusters
                     similarity_function claims rejected recursion_limit)
                  cl (initial_state old_clusters new_clusters))).
  { intros Hcut. by apply Hcut. }
  intros cl Hcl.
  apply (raises_only_foldM _
    (λ s : @loop_state K E,
       let '(a, _, ov, nv) := s in
       keys a = keys old_clusters ∧ keys ov = keys old_clusters ∧
       keys nv = keys new_clusters)).
  2:{ unfold initial_state. by rewrite !keys_fmap_const. }
  intros [[[a u] ov] nv] [k n] (Ha & Hov & Hnv) Hkn%Hcl.
  assert (∀ cn co nv1 ov1,
    discover (X:=X) old_clusters new_clusters recursion_limit k n ov nv
      = Ok (cn, co, nv1, ov1) →
    Forall (λ c, c ∈ keys new_clusters) cn ∧
    Forall (λ g, g ∈ keys old_clusters) co ∧
    keys nv1 = keys new_clusters ∧ keys ov1 = keys old_clusters)
    as Hdisc.
  { intros cn co nv1 ov1 Hd.
    destruct (discover_spec _ _ _ _ _ _ _ _ _ _ _ Hkn Hd)
      as [(_ & -> & -> & -> & ->) | (_ & _ & Hn & Ho)]; [done|].
    pose proof (side_rel_keys _ _ _ _ _ Hn) as Hkn'.
    pose proof (side_rel_keys _ _ _ _ _ Ho) as Hko.
    destruct Hn as (an & -> & _ & Han & _), Ho as (ao & -> & _ & Hao & _).
    split_and!; [| | congruence | congruence]; simpl.
    - eapply Forall_impl; [done|].
      intros c [->|(g & l & sig & _ & _ & Hc)].
      + apply list_elem_of_fmap. by exists (k, n).
      + apply reverse_index_sound in Hc as (l' & ? & _).
        apply list_elem_of_fmap. by exists (c, l').
    - eapply Forall_impl; [done|].
      intros g (c & l & sig & _ & _ & Hg).
      apply reverse_index_sound in Hg as (va & ? & _).
      apply list_elem_of_fmap. by exists (g, va). }
  unfold component_step. split.
  - apply raises_only_bind; [by apply discover_raises|].
    intros [[[cn co] nv1] ov1] (Hcn & Hco & _)%Hdisc.
    apply raises_only_bind; [by apply solve_component_raises|].
    by intros [a1 u1] _.
  - intros [[[a' u'] ov'] nv'] Hstep.
    apply bind_Ok in Hstep as ([[[cn co] nv1] ov1] & Hd & Hstep).
    apply bind_Ok in Hstep as ([a1 u1] & Hsolve & [= <- <- <- <-]).
    destruct (Hdisc _ _ _ _ Hd) as (Hcn & Hco & ? & ?).
    split_and!; [|done|done].
    by eapply solve_component_raises.
Qed.
End RunErrors.

(** ** A call on connected partitions returns *)

Lemma foldM_returns {X A B} (I : A → Prop) (f : A → B → res X A) l :
  (∀ s b, I s → b ∈ l → ∃ s', f s b = Ok s' ∧ I s') →
  ∀ a, I a → ∃ a', foldM f l a = Ok a' ∧ I a'.
Proof.
  induction l as [|b l IH]; intros Hstep a Ha; simpl; [by eauto|].
  destruct (Hstep a b Ha ltac:(by left)) as (s' & -> & Hs'). simpl.
  apply IH; [|done]. intros s b' Hs Hb'. apply Hstep; [done | by right].
Qed.

Lemma first_raise_None {X A} (l : list (res X A)) :
  Forall is_Ok l → first_raise l = None.
Proof. induction 1 as [|r l [a ->] _ IH]; simpl; auto. Qed.

Lemma dict_lookup_raises {X A B} `{EqDecision A} (Q : exn X → Prop)
    (d : dict A B) k :
  Q KeyError → raises_only Q (dict_lookup d k).
Proof.
  intros HQ. unfold dict_lookup. destruct (dict_get d k); [done|].
  by intros e [= <-].
Qed.

Section TraversalLookups.
Context {K E X : Type} `{EqDecision K} `{EqDecision E}.

(** A traversal raises nothing but the failure of a lookup and the
    recursion error. *)
Lemma graph_traversal_lookup_errors fuel :
  ∀ ct co (rt ro : dict E K) (tc oc : dict K (list E)) tv ov c,
    raises_only (λ e, e = KeyError ∨ e = RecursionError)
      (graph_traversal (X:=X) fuel ct co rt ro tc oc tv ov c).
Proof.
  induction fuel as [|fuel IH]; intros ct co rt ro tc oc tv ov c; simpl.
  { intros e [= <-]. by right. }
  apply raises_only_bind; [apply dict_lookup_raises; by left|].
  intros sigs _. apply (raises_only_foldM _ (λ _, True)); [|done].
  intros [[[a b] va] vb] sig _ _. split; [|done].
  apply raises_only_bind; [apply dict_lookup_raises; by left|].
  intros other _.
  apply raises_only_bind; [apply dict_lookup_raises; by left|].
  intros seen _. destruct seen; [done|].
  apply raises_only_bind; [apply IH | done].
Qed.

Lemma discover_lookup_errors
    (old_clusters new_clusters : dict K (list E)) fuel k n ov nv :
  raises_only (λ e, e = KeyError ∨ e = RecursionError)
    (discover (X:=X) old_clusters new_clusters fuel k n ov nv).
Proof.
  unfold discover.
  apply raises_only_bind; [apply dict_lookup_raises; by left|].
  intros seen _. destruct seen; [done|].
  apply (raises_only_foldM _ (λ _, True)); [|done].
  intros [[[a b] va] vb] sig _ _. split; [|done].
  apply raises_only_bind; [apply dict_lookup_raises; by left|].
  intros other _.
  apply raises_only_bind; [apply dict_lookup_raises; by left|].
  intros seen _. destruct seen; [done|].
  apply raises_only_bind; [apply graph_traversal_lookup_errors | done].
Qed.
End TraversalLookups.

Section Returns.
Context {K E X : Type} `{EqDecision K} `{EqDecision E}.
Variable recursion_limit : nat.
Variable munkres_compute : matrix → list (nat * nat).
Variable old_clusters new_clusters : dict K (list E).
Variable similarity_function : list E → list E → list E → list E → X + Z.
Variable claims rejected : dict K (list E).

Abbreviation reversed_old := (reversed_old old_clusters).
Abbreviation reversed_new := (reversed_new new_clusters).
Abbreviation cluster_assignment :=
  (cluster_assignment recursion_limit munkres_compute old_clusters new_clusters
     similarity_function claims rejected).
Abbreviation component_step :=
  (component_step munkres_compute old_clusters new_clusters
     similarity_function claims rejected).
Abbreviation connected := (connected old_clusters new_clusters).
Abbreviation fuel := recursion_limit.

Hypothesis solver : solver_ok munkres_compute.
Hypothesis new_keys : NoDup (keys new_clusters).
Hypothesis old_keys : NoDup (keys old_clusters).
Hypothesis new_disjoint : disjoint_clusters new_clusters.
Hypothesis old_disjoint : disjoint_clusters old_clusters.
Hypothesis new_known :
  ∀ k n e, (k, n) ∈ new_clusters → e ∈ n →
    ∃ g va, (g, va) ∈ old_clusters ∧ e ∈ va.
Hypothesis old_known :
  ∀ g va e, (g, va) ∈ old_clusters → e ∈ va →
    ∃ k n, (k, n) ∈ new_clusters ∧ e ∈ n.
Hypothesis cost_returns :
  ∀ nc oc cl rj, ∃ c, similarity_function nc oc cl rj = inr c.
Hypothesis one_component : graph_connected old_clusters new_clusters.

(** Under closed flags, the clusters connected to a visited new cluster
    are visited. *)
Lemma closed_flags_connected nv ov k x :
  closed_flags old_clusters new_clusters nv ov →
  dict_get nv k = Some true →
  connected (inl k) x →
  match x with
  | inl c => dict_get nv c = Some true
  | inr g => dict_get ov g = Some true
  end.
Proof using new_keys old_keys new_disjoint old_disjoint.
  intros Hclosed Hk. revert x.
  apply (rtc_ind_r (λ x, match x with
                         | inl c => dict_get nv c = Some true
                         | inr g => dict_get ov g = Some true
                         end) (inl k)); [done|].
  intros y z Hxy Hyz IH.
  destruct Hyz as [Hyz|Hzy].
  - destruct y as [c|g], z as [c'|g']; simpl in Hyz; try done.
    by apply (closed_flags_shares old_clusters new_clusters nv ov c g'
                new_keys old_keys new_disjoint old_disjoint Hclosed Hyz).
  - destruct z as [c|g], y as [c'|g']; simpl in Hzy; try done.
    by apply (closed_flags_shares old_clusters new_clusters nv ov c g'
                new_keys old_keys new_disjoint old_disjoint Hclosed Hzy).
Qed.

Lemma dict_append_returns {A B} `{EqDecision A}
    (d : dict A (list B)) k x :
  k ∈ keys d →
  ∃ d', dict_append (X:=X) d k x = Ok d' ∧ keys d' = keys d.
Proof.
  intros [l Hl]%dict_get_is_Some. unfold dict_append, dict_lookup.
  rewrite Hl. simpl. eexists. split; [done|]. apply keys_dict_set. eauto.
Qed.

Lemma resolve_sig_returns co col a t sig :
  is_Some (dict_get reversed_old sig) →
  Forall (λ g, g ∈ keys old_clusters) co →
  length co = length old_clusters →
  keys a = keys old_clusters →
  ∃ a' t',
    resolve_sig (X:=X) old_clusters claims rejected co col (a, t) sig
      = Ok (a', t') ∧ keys a' = keys old_clusters.
Proof.
  intros [o Ho] Hco Hlen Ha.
  assert (o ∈ keys a) as Hoa.
  { rewrite Ha. apply reverse_index_sound in Ho as (va & ? & _).
    apply list_elem_of_fmap. by exists (o, va). }
  apply (dict_lookup_Ok (X:=X)) in Ho.
  assert (∀ g, g ∈ keys a →
    ∃ a' t', (a1 ← dict_append (X:=X) a g sig; Ok (a1, t)) = Ok (a', t') ∧
             keys a' = keys old_clusters) as Happend.
  { intros g Hg. destruct (dict_append_returns a g sig Hg) as (a' & -> & Hk).
    exists a', t. split; [done | congruence]. }
  unfold resolve_sig.
  destruct (decide (sig ∈ claims_set claims)).
  { rewrite Ho. simpl. by apply Happend. }
  destruct (decide (col < length old_clusters)) as [Hcol|]; [|by eauto].
  unfold list_index. destruct (co !! col) as [g|] eqn:Hg; simpl.
  2:{ apply lookup_ge_None in Hg. lia. }
  destruct (decide (sig ∈ dict_get_default rejected g [])).
  { rewrite Ho. simpl. by apply Happend. }
  apply Happend. rewrite Ha. rewrite Forall_forall in Hco. apply Hco.
  by eapply list_elem_of_lookup_2.
Qed.

Lemma resolve_pair_returns cn co a u p :
  Forall (λ c, c ∈ keys new_clusters) cn →
  Forall (λ g, g ∈ keys old_clusters) co →
  length co = length old_clusters →
  keys a = keys old_clusters →
  p.1 < length cn →
  ∃ a' u',
    resolve_pair (X:=X) old_clusters new_clusters claims rejected
      cn co (a, u) p = Ok (a', u') ∧ keys a' = keys old_clusters.
Proof using new_known.
  intros Hcn Hco Hlen Ha Hp. destruct p as [new old]. simpl in Hp.
  unfold resolve_pair, list_index.
  destruct (lookup_lt_is_Some_2 cn new Hp) as [k Hk]. rewrite Hk. simpl.
  assert (k ∈ keys new_clusters) as Hkey.
  { rewrite Forall_forall in Hcn. apply Hcn.
    by eapply list_elem_of_lookup_2. }
  apply dict_get_is_Some in Hkey as [sigs Hsigs].
  pose proof Hsigs as Hlookup. apply (dict_lookup_Ok (X:=X)) in Hlookup.
  rewrite Hlookup. simpl.
  destruct (foldM_returns
    (λ s : dict K (list E) * list E, keys s.1 = keys old_clusters)
    (resolve_sig (X:=X) old_clusters claims rejected co old) sigs)
    with (a := (a, @nil E)) as ([a' t'] & -> & Hkeys); [|done|].
  { intros [a1 t1] sig Ha1 Hsig. simpl in Ha1.
    destruct (resolve_sig_returns co old a1 t1 sig)
      as (a2 & t2 & Hr & Hk2); [| done | done | done |].
    - destruct (new_indexed old_clusters new_clusters new_known
                  _ _ _ Hsigs Hsig) as (o & Ho & _). eauto.
    - by exists (a2, t2). }
  simpl in *. destruct t'; eauto.
Qed.

Lemma cost_matrix_returns cn co :
  Forall (λ c, c ∈ keys new_clusters) cn →
  Forall (λ g, g ∈ keys old_clusters) co →
  ∃ M, build_cost_matrix old_clusters new_clusters similarity_function
         claims rejected cn co = Ok M ∧
       dims (length cn) (length co + length cn) M.
Proof using cost_returns.
  intros Hcn Hco.
  pose proof (build_cost_matrix_spec old_clusters new_clusters
                similarity_function claims rejected cn co) as Hspec.
  rewrite first_raise_None in Hspec; [done|].
  rewrite Forall_forall in Hcn, Hco.
  apply Forall_forall. intros r (new & Hr & Hnew)%list_elem_of_bind.
  destruct (proj2 (dict_get_is_Some _ _) (Hcn _ Hnew)) as [nc Hnc].
  apply (dict_lookup_Ok (X:=X)) in Hnc.
  apply elem_of_app in Hr as [(old & -> & Hold)%list_elem_of_fmap
                             |(j & -> & _)%list_elem_of_fmap].
  - destruct (proj2 (dict_get_is_Some _ _) (Hco _ Hold)) as [oc Hoc].
    apply (dict_lookup_Ok (X:=X)) in Hoc.
    unfold old_cost. rewrite Hnc, Hoc. simpl. unfold call_similarity.
    destruct (cost_returns nc oc (dict_get_default claims old [])
                (dict_get_default rejected old [])) as [c ->].
    by exists c.
  - unfold dummy_cost. rewrite Hnc. simpl. unfold call_similarity.
    destruct (cost_returns nc [] [] []) as [c ->]. by exists c.
Qed.

Lemma solve_component_returns cn co a u :
  cn ≠ [] →
  Forall (λ c, c ∈ keys new_clusters) cn →
  Forall (λ g, g ∈ keys old_clusters) co →
  length co = length old_clusters →
  keys a = keys old_clusters →
  ∃ a' u',
    solve_component (X:=X) munkres_compute old_clusters new_clusters
      similarity_function claims rejected cn co (a, u) = Ok (a', u').
Proof using solver new_known cost_returns.
  intros Hne Hcn Hco Hlen Ha. unfold solve_component.
  destruct cn as [|k0 cn0] eqn:Heq; [done|]. rewrite <-Heq in *. clear Heq.
  destruct (cost_matrix_returns cn co Hcn Hco) as (M & -> & [Hrows Hcols]).
  simpl.
  destruct (solver M (length co + length cn)) as (Hfst & _ & _);
    [| done | lia |].
  { intros ->. by destruct cn. }
  destruct (foldM_returns
    (λ s : dict K (list E) * list (list E), keys s.1 = keys old_clusters)
    (resolve_pair (X:=X) old_clusters new_clusters claims rejected cn co)
    (munkres_compute M)) with (a := (a, u)) as ([a' u'] & -> & _);
    [| done | by eauto].
  intros [a1 u1] p Ha1 Hp. simpl in Ha1.
  destruct (resolve_pair_returns cn co a1 u1 p)
    as (a2 & u2 & Hr & Hk2); [done | done | done | done | |].
  - assert (p.1 ∈ (munkres_compute M).*1) as Hin
      by (apply list_elem_of_fmap; by exists p).
    rewrite Hfst, Hrows in Hin. apply elem_of_seq in Hin. lia.
  - by exists (a2, u2).
Qed.

Hypothesis enough_depth :
  cluster_count old_clusters new_clusters ≤ recursion_limit.

(** The first iteration discovers all the clusters. *)
Lemma first_component k n :
  (k, n) ∈ new_clusters →
  ∃ cn co nv1 ov1,
    discover (X:=X) old_clusters new_clusters fuel k n
      ((λ kv, (kv.1, false)) <$> old_clusters)
      ((λ kv, (kv.1, false)) <$> new_clusters)
    = Ok (cn, co, nv1, ov1) ∧
    cn ≠ [] ∧
    Forall (λ c, c ∈ keys new_clusters) cn ∧
    Forall (λ g, g ∈ keys old_clusters) co ∧
    length co = length old_clusters ∧
    ∀ c, c ∈ keys new_clusters → dict_get nv1 c = Some true.
Proof using new_keys old_keys new_disjoint old_disjoint new_known old_known
  one_component enough_depth.
  intros Hkn.
  set (ov0 := (λ kv : K * list E, (kv.1, false)) <$> old_clusters).
  set (nv0 := (λ kv : K * list E, (kv.1, false)) <$> new_clusters).
  assert (k ∈ keys new_clusters) as Hk.
  { apply list_elem_of_fmap. by exists (k, n). }
  destruct (discover (X:=X) old_clusters new_clusters fuel k n ov0 nv0)
    as [[[[cn co] nv1] ov1]|e] eqn:Hdisc.
  2:{ exfalso.
      pose proof (discover_raises (X:=X) old_clusters new_clusters
                    new_known old_known fuel k n ov0 nv0 new_keys Hkn) as Hr.
      destruct (Hr ltac:(apply keys_fmap_const) ltac:(apply keys_fmap_const)
                  e Hdisc) as [->|[[x ->]| ->]].
      - by destruct (discover_lookup_errors _ _ _ _ _ _ _ _ Hdisc).
      - by destruct (discover_lookup_errors _ _ _ _ _ _ _ _ Hdisc).
      - eapply (discover_within_depth old_clusters new_clusters);
          [done | | done].
        pose proof (pending_le_length ov0). pose proof (pending_le_length nv0).
        unfold ov0, nv0 in *. rewrite !length_fmap in *.
        unfold cluster_count in enough_depth. lia. }
  exists cn, co, nv1, ov1. split; [done|].
  pose proof Hdisc as Hflags.
  apply discover_flags in Hflags as (Hclosed & Hk1 & _);
    [| done | done | apply initial_closed_flags].
  destruct (discover_spec _ _ _ _ _ _ _ _ _ _ _ Hkn Hdisc)
    as [(Hv & _) | (_ & [rest ->] & Hn & Ho)].
  { unfold nv0 in Hv. rewrite dict_get_fmap_const in Hv.
    by destruct (dict_get new_clusters k). }
  assert (∀ x, x ∈ nodes old_clusters new_clusters →
               match x with
               | inl c => dict_get nv1 c = Some true
               | inr g => dict_get ov1 g = Some true
               end) as Hall.
  { intros x Hx. eapply closed_flags_connected; [done | done |].
    apply one_component; [|done].
    apply elem_of_app. left. apply list_elem_of_fmap. by exists k. }
  pose proof (side_rel_length _ _ _ _ Ho) as Hlen.
  unfold ov0 in Hlen. rewrite length_fmap in Hlen.
  split_and!; try done.
  - destruct Hn as (an & -> & _ & Han & _). simpl.
    eapply Forall_impl; [done|].
    intros c [->|(g & l & sig & _ & _ & Hc)]; [done|].
    apply reverse_index_sound in Hc as (l' & ? & _).
    apply list_elem_of_fmap. by exists (c, l').
  - destruct Ho as (ao & -> & _ & Hao & _). simpl.
    eapply Forall_impl; [done|].
    intros g (c & l & sig & _ & _ & Hg).
    apply reverse_index_sound in Hg as (va & ? & _).
    apply list_elem_of_fmap. by exists (g, va).
  - apply Nat.le_antisymm; [done|].
    rewrite <-(length_fmap fst old_clusters).
    apply submseteq_length, NoDup_submseteq; [done|].
    intros g Hg.
    destruct (side_rel_added _ _ _ _ g Ho) as [_ Hout].
    destruct (decide (g ∈ co)) as [|Hnot]; [done|]. exfalso.
    assert (dict_get ov1 g = Some true) as Hg1.
    { apply (Hall (inr g)). apply elem_of_app. right.
      apply list_elem_of_fmap. by exists g. }
    apply Hout in Hg1; [|done].
    unfold ov0 in Hg1. rewrite dict_get_fmap_const in Hg1.
    by destruct (dict_get old_clusters g).
  - intros c Hc. apply (Hall (inl c)).
    apply elem_of_app. left. apply list_elem_of_fmap. by exists c.
Qed.

(** The iteration of a new cluster that is visited changes nothing. *)
Lemma visited_step a u ov nv k n :
  dict_get nv k = Some true →
  component_step fuel (a, u, ov, nv) (k, n) = Ok (a, u, ov, nv).
Proof.
  intros Hk%(dict_lookup_Ok (X:=X)). unfold component_step, discover.
  by rewrite Hk.
Qed.

Lemma main_loop_returns cl :
  (∀ kn, kn ∈ cl → kn ∈ new_clusters) →
  ∃ s, foldM (component_step fuel) cl
         (initial_state old_clusters new_clusters) = Ok s.
Proof using All.
  destruct cl as [|[k n] rest]; intros Hcl; [by eauto|].
  assert ((k, n) ∈ new_clusters) as Hkn by (apply Hcl; by left).
  destruct (first_component k n Hkn)
    as (cn & co & nv1 & ov1 & Hdisc & Hne & Hcn & Hco & Hlen & Hall).
  destruct (solve_component_returns cn co
              ((λ kv, (kv.1, [])) <$> old_clusters) [])
    as (a1 & u1 & Hsolve);
    [done | done | done | done | apply keys_fmap_const |].
  assert (component_step fuel (initial_state old_clusters new_clusters)
            (k, n) = Ok (a1, u1, ov1, nv1)) as Hstep.
  { unfold component_step, initial_state. rewrite Hdisc. simpl.
    by rewrite Hsolve. }
  rewrite foldM_cons, Hstep. simpl.
  exists (a1, u1, ov1, nv1).
  assert (∀ l, (∀ kn, kn ∈ l → kn ∈ new_clusters) →
    foldM (component_step fuel) l (a1, u1, ov1, nv1)
    = Ok (a1, u1, ov1, nv1)) as Hrest.
  { induction l as [|[k' n'] l IH]; intros Hl; [done|].
    rewrite foldM_cons, visited_step; simpl.
    - apply IH. intros kn ?. apply Hl. by right.
    - apply Hall. apply list_elem_of_fmap. exists (k', n').
      split; [done|]. apply Hl. by left. }
  apply Hrest. intros kn ?. apply Hcl. by right.
Qed.

(** X1. On two partitions of the same entities whose graph of shared
    entities is connected, with a cost function that always returns and a
    recursion limit that is at least the number of clusters, the call
    returns. *)
Theorem returns_on_connected_partitions :
  ∃ assigned unassigned,
    cluster_assignment = Ok (assigned, unassigned).
Proof using All.
  destruct (main_loop_returns new_clusters) as ([[[a u] ov] nv] & Hloop);
    [done|].
  exists a, u.
  unfold cluster_assignment, main_loop.
  by rewrite Hloop.
Qed.
End Returns.

(** ** The subscript of [current_old] *)

Section ResolverBounds.
Context {K E X : Type} `{EqDecision K} `{EqDecision E}.
Variable old_clusters : dict K (list E).
Variable claims rejected : dict K (list E).

(** X14. The resolver raises [IndexError] for an entity exactly when the
    entity is not claimed and the column of its new cluster is not the
    column of an old cluster of the component but is below the number of
    all old clusters. *)
Theorem resolver_index_error co col a t sig :
  resolve_sig (X:=X) old_clusters claims rejected co col (a, t) sig
    = Raise IndexError ↔
  (sig ∉ claims_set claims) ∧ length co ≤ col < length old_clusters.
Proof.
  split.
  2:{ intros (? & ? & ?). by apply artificial_column_below_threshold. }
  assert ((o ← dict_lookup (X:=X) (reversed_old old_clusters) sig;
           a1 ← dict_append a o sig; Ok (a1, t)) ≠ Raise IndexError)
    as Hheld.
  { unfold dict_append, dict_lookup.
    destruct (dict_get _ sig) as [o|]; simpl; [|done].
    by destruct (dict_get a o). }
  assert (∀ g, (a1 ← dict_append (X:=X) a g sig; Ok (a1, t))
               ≠ Raise IndexError) as Hmatched.
  { intros g. unfold dict_append, dict_lookup. by destruct (dict_get a g). }
  unfold resolve_sig.
  destruct (decide (sig ∈ claims_set claims)) as [|Hcl]; [done|].
  destruct (decide (col < length old_clusters)) as [Hlt|]; [|done].
  unfold list_index. destruct (co !! col) as [g|] eqn:Hg; simpl.
  - destruct (decide (sig ∈ dict_get_default rejected g [])); [done|].
    intros Hrun. by destruct (Hmatched g).
  - intros _. apply lookup_ge_None in Hg. split; [done | lia].
Qed.
End ResolverBounds.

(** ** Components do not overlap *)

Section Disjoint.
Context {K E X : Type} `{EqDecision K} `{EqDecision E}.
Variable recursion_limit : nat.
Variable munkres_compute : matrix → list (nat * nat).
Variable old_clusters new_clusters : dict K (list E).
Variable similarity_function : list E → list E → list E → list E → X + Z.
Variable claims rejected : dict K (list E).

Abbreviation main_loop :=
  (main_loop munkres_compute old_clusters new_clusters similarity_function
     claims rejected).
Abbreviation component_step :=
  (component_step munkres_compute old_clusters new_clusters
     similarity_function claims rejected).
Abbreviation discovers :=
  (discovers recursion_limit munkres_compute
     old_clusters new_clusters similarity_function
     claims rejected).
Abbreviation loop_reaches :=
  (loop_reaches recursion_limit munkres_compute old_clusters new_clusters
     similarity_function claims rejected).
Abbreviation fuel := recursion_limit.

(** Two places in a list are the same, or one is before the other. *)
Lemma split_cases {A} (l1 l2 l1' l2' : list A) x x' :
  l1 ++ x :: l2 = l1' ++ x' :: l2' →
  (l1 = l1' ∧ x = x' ∧ l2 = l2') ∨
  (∃ mid, l1' = l1 ++ x :: mid) ∨
  (∃ mid, l1 = l1' ++ x' :: mid).
Proof.
  revert l1'. induction l1 as [|y l1 IH]; intros [|y' l1'] Heq.
  - injection Heq as <- <-. by left.
  - injection Heq as <- ->. right. left. by exists l1'.
  - injection Heq as -> <-. right. right. by exists l1.
  - injection Heq as <- Heq.
    destruct (IH _ Heq) as [(-> & -> & ->)|[[mid ->]|[mid ->]]].
    + by left.
    + right. left. by exists mid.
    + right. right. by exists mid.
Qed.

(** A cluster that a component holds is visited when the loop reaches a
    later new cluster. *)
Lemma earlier_component_visited pre k n mid k' n' post'
    a u ov nv cn co nv1 ov1 a' u' ov' nv' :
  NoDup (keys new_clusters) →
  new_clusters = (pre ++ (k, n) :: mid) ++ (k', n') :: post' →
  main_loop fuel pre (initial_state old_clusters new_clusters)
    = Ok (a, u, ov, nv) →
  discover (X:=X) old_clusters new_clusters fuel k n ov nv
    = Ok (cn, co, nv1, ov1) →
  main_loop fuel (pre ++ (k, n) :: mid)
            (initial_state old_clusters new_clusters)
    = Ok (a', u', ov', nv') →
  (∀ c, c ∈ cn → dict_get nv' c = Some true) ∧
  (∀ g, g ∈ co → dict_get ov' g = Some true).
Proof.
  intros Hnd Hnew Hpre Hdisc Hloop.
  assert (∀ kn, kn ∈ pre ++ (k, n) :: mid → kn ∈ new_clusters) as Hin.
  { intros kn ?. rewrite Hnew. apply elem_of_app. by left. }
  assert ((k, n) ∈ new_clusters) as Hkn.
  { apply Hin. apply elem_of_app. right. by left. }
  unfold main_loop in *. rewrite foldM_app, Hpre in Hloop. simpl in Hloop.
  apply bind_Ok in Hloop as ([[[a1 u1] ov2] nv2] & Hstep & Hmid).
  unfold component_step in Hstep. rewrite Hdisc in Hstep. simpl in Hstep.
  apply bind_Ok in Hstep as ([a2 u2] & _ & [= <- <- <- <-]).
  apply main_loop_flags in Hpre as (Hclosed & _);
    [| done | | apply initial_closed_flags].
  2:{ intros kn ?. apply Hin. apply elem_of_app. by left. }
  pose proof Hdisc as Hflags.
  apply discover_flags in Hflags as (Hclosed1 & _); [| done | done | done].
  apply main_loop_flags in Hmid as (_ & _ & Hkn' & Hko'); [| done | | done].
  2:{ intros kn ?. apply Hin. apply elem_of_app. right. by right. }
  destruct (discover_spec _ _ _ _ _ _ _ _ _ _ _ Hkn Hdisc)
    as [(_ & -> & -> & _) | (_ & _ & Hn & Ho)].
  { split; by intros ? ?%elem_of_nil. }
  split.
  - intros c Hc. apply Hkn'.
    by destruct (proj1 (side_rel_added _ _ _ _ c Hn) Hc).
  - intros g Hg. apply Hko'.
    by destruct (proj1 (side_rel_added _ _ _ _ g Ho) Hg).
Qed.

(** A later component shares no cluster with an earlier one. *)
Lemma later_component_disjoint pre k n mid k' n' post'
    a u ov nv cn co nv1 ov1 a' u' ov' nv' cn' co' nv1' ov1' :
  NoDup (keys new_clusters) →
  new_clusters = (pre ++ (k, n) :: mid) ++ (k', n') :: post' →
  main_loop fuel pre (initial_state old_clusters new_clusters)
    = Ok (a, u, ov, nv) →
  discover (X:=X) old_clusters new_clusters fuel k n ov nv
    = Ok (cn, co, nv1, ov1) →
  main_loop fuel (pre ++ (k, n) :: mid)
            (initial_state old_clusters new_clusters)
    = Ok (a', u', ov', nv') →
  discover (X:=X) old_clusters new_clusters fuel k' n' ov' nv'
    = Ok (cn', co', nv1', ov1') →
  (∀ c, c ∈ cn → c ∉ cn') ∧ (∀ g, g ∈ co → g ∉ co').
Proof.
  intros Hnd Hnew Hpre Hdisc Hloop Hdisc'.
  destruct (earlier_component_visited _ _ _ _ _ _ _ _ _ _ _ _ _ _ _ _ _ _ _
              Hnd Hnew Hpre Hdisc Hloop) as [Hcn Hco].
  assert ((k', n') ∈ new_clusters) as Hkn'.
  { rewrite Hnew. apply elem_of_app. right. by left. }
  destruct (discover_spec _ _ _ _ _ _ _ _ _ _ _ Hkn' Hdisc')
    as [(_ & -> & -> & _) | (_ & _ & Hn & Ho)].
  { split; intros ? _; apply not_elem_of_nil. }
  split.
  - intros c Hc Hc'. specialize (Hcn c Hc).
    destruct (proj1 (side_rel_added _ _ _ _ c Hn) Hc') as [Hf _].
    congruence.
  - intros g Hg Hg'. specialize (Hco g Hg).
    destruct (proj1 (side_rel_added _ _ _ _ g Ho) Hg') as [Hf _].
    congruence.
Qed.

(** X7. Two components that the loop discovers and that have a cluster in
    common, new or old, are the same component: no cluster takes part in
    two assignment problems. *)
Theorem components_disjoint cn co cn' co' :
  NoDup (keys new_clusters) →
  discovers cn co → discovers cn' co' →
  (∃ c, c ∈ cn ∧ c ∈ cn') ∨ (∃ g, g ∈ co ∧ g ∈ co') →
  cn = cn' ∧ co = co'.
Proof.
  intros Hnd
    (pre & k & n & post & a & u & ov & nv & nv1 & ov1 & [Hnew Hpre] & Hdisc)
    (pre' & k' & n' & post' & a' & u' & ov' & nv' & nv1' & ov1'
     & [Hnew' Hpre'] & Hdisc') Hshare.
  pose proof Hnew' as Heq. rewrite Hnew in Heq at 1.
  destruct (split_cases _ _ _ _ _ _ Heq)
    as [(<- & [= <- <-] & <-)|[[mid ->]|[mid ->]]].
  - rewrite Hpre in Hpre'. injection Hpre' as <- <- <- <-.
    rewrite Hdisc in Hdisc'. by injection Hdisc' as <- <- <- <-.
  - exfalso.
    destruct (later_component_disjoint _ _ _ _ _ _ _ _ _ _ _ _ _ _ _ _ _ _ _
                _ _ _ _ Hnd Hnew' Hpre Hdisc Hpre' Hdisc') as [Hcn Hco].
    destruct Hshare as [(c & ? & ?)|(g & ? & ?)]; naive_solver.
  - exfalso.
    destruct (later_component_disjoint _ _ _ _ _ _ _ _ _ _ _ _ _ _ _ _ _ _ _
                _ _ _ _ Hnd Hnew Hpre' Hdisc' Hpre Hdisc) as [Hcn Hco].
    destruct Hshare as [(c & ? & ?)|(g & ? & ?)]; naive_solver.
Qed.
End Disjoint.

(** ** Where an entity can land *)

Section Destinations.
Context {K E X : Type} `{EqDecision K} `{EqDecision E}.
Variable recursion_limit : nat.
Variable munkres_compute : matrix → list (nat * nat).
Variable old_clusters new_clusters : dict K (list E).
Variable similarity_function : list E → list E → list E → list E → X + Z.
Variable claims rejected : dict K (list E).

Abbreviation reversed_old := (reversed_old old_clusters).
Abbreviation cluster_assignment :=
  (cluster_assignment recursion_limit munkres_compute old_clusters new_clusters
     similarity_function claims rejected).
Abbreviation component_ok :=
  (component_ok recursion_limit munkres_compute old_clusters new_clusters
     similarity_function claims rejected).
Abbreviation solver_pairs :=
  (solver_pairs recursion_limit munkres_compute old_clusters new_clusters
     similarity_function claims rejected).
Abbreviation routed := (routed old_clusters claims rejected).

(** A resolution of a run is the resolution of a pair that the solver
    returned for the matrix of a component. *)
Lemma component_pair (comps : list (component K E)) r :
  Forall component_ok comps → r ∈ run_trace comps →
  ∃ (c : component K E) p M,
    discovers recursion_limit munkres_compute
              old_clusters new_clusters similarity_function
              claims rejected (comp_new c) (comp_old c) ∧
    build_cost_matrix old_clusters new_clusters similarity_function
                      claims rejected (comp_new c) (comp_old c) = Ok M ∧
    p ∈ munkres_compute M ∧
    resolves old_clusters new_clusters claims rejected
             (comp_new c) (comp_old c) p r.
Proof.
  intros Hok (c & Hr & Hc)%list_elem_of_bind.
  rewrite Forall_forall in Hok.
  destruct (Hok c Hc) as (Hdisc & asg & Hres & Hnil & HM).
  apply list_elem_of_lookup in Hr as [i Hi].
  destruct (Forall2_lookup_r _ _ _ _ _ Hres Hi) as (p & Hp & Hpr).
  destruct (decide (comp_new c = [])) as [Hcn|Hcn].
  { rewrite (Hnil Hcn) in Hp. by rewrite lookup_nil in Hp. }
  destruct (HM Hcn) as (M & HM' & ->).
  exists c, p, M. split_and!; try done. by eapply list_elem_of_lookup_2.
Qed.

(** The routing of an entity of a list of [assigned]. *)
Lemma assigned_routed assigned unassigned g la e :
  cluster_assignment = Ok (assigned, unassigned) →
  dict_get assigned g = Some la → e ∈ la →
  ∃ c l co col,
    dict_get new_clusters c = Some l ∧ e ∈ l ∧
    routed co col e (Some g) ∧
    (∀ g', co !! col = Some g' → solver_pairs c g').
Proof.
  intros Hrun Hla He.
  destruct (run_components _ _ _ _ _ _ _ _ _ Hrun)
    as (comps & Hok & Hkeys & Hget & _).
  rewrite Hget in Hla.
  2:{ rewrite <-Hkeys. apply dict_get_is_Some. eauto. }
  injection Hla as <-.
  apply elem_of_placed, elem_of_all_routes in He as (r & Hr & He).
  destruct (component_pair _ _ Hok Hr)
    as (c & [i j] & M & Hdisc & HM & Hp
        & (Hnew & Hcol & Hco & Hsigs & Hroutes)).
  simpl in *.
  exists (res_new r), (res_routes r).*1, (comp_old c), j. split_and!.
  - done.
  - apply list_elem_of_fmap. by exists (e, Some g).
  - rewrite Forall_forall in Hroutes. by apply (Hroutes _ He).
  - intros g' Hg'. by exists (comp_new c), (comp_old c), M, i, j.
Qed.

(** X17. An entity of [assigned[g]] is an entity of a new cluster, and [g] is
    the entry of the entity in the old reverse index, an old cluster that
    holds it, or [g] is the old cluster with which the solver paired that
    new cluster. *)
Theorem entity_destinations assigned unassigned g la e :
  cluster_assignment = Ok (assigned, unassigned) →
  dict_get assigned g = Some la → e ∈ la →
  ∃ c l, dict_get new_clusters c = Some l ∧ e ∈ l ∧
         (dict_get reversed_old e = Some g ∨ solver_pairs c g).
Proof.
  intros Hrun Hla He.
  destruct (assigned_routed _ _ _ _ _ Hrun Hla He)
    as (c & l & co & col & Hl & Hel & Hrouted & Hpairs).
  exists c, l. split_and!; [done | done |].
  inversion Hrouted as [o|g' o|g'|]; subst; [by left | by left |].
  right. by apply Hpairs.
Qed.

(** X16. The overrides are honoured: an entity that is claimed, or that the
    old cluster [g] rejects, is in [assigned[g]] only when [g] is its entry
    in the old reverse index, the old cluster that holds it. *)
Theorem overrides_honoured assigned unassigned g la e :
  cluster_assignment = Ok (assigned, unassigned) →
  dict_get assigned g = Some la → e ∈ la →
  e ∈ claims_set claims ∨ e ∈ dict_get_default rejected g [] →
  dict_get reversed_old e = Some g.
Proof.
  intros Hrun Hla He Hover.
  destruct (assigned_routed _ _ _ _ _ Hrun Hla He)
    as (c & l & co & col & _ & _ & Hrouted & _).
  inversion Hrouted as [o|g' o|g'|]; subst; [done | done |].
  by destruct Hover.
Qed.
End Destinations.

(** ** Instances of the further properties *)

(** The component of [test_claimed_paper]. *)
Lemma paper_component :
  discovers Tests.recursion_limit exhaustive_assignment
            Tests.paper_old Tests.paper_new
            Tests.intersection_cost [] [] [1; 2]%Z [1; 2]%Z.
Proof.
  exists [], 1%Z, [1%Z], [(2, [2; 3])]%Z.
  do 6 eexists.
  split; [split; [reflexivity | vm_compute; reflexivity]
        | vm_compute; reflexivity].
Qed.

(** Entities that are covered, as a property that can be computed. *)
Lemma entities_covered {K E} `{EqDecision E} (a b : dict K (list E)) :
  Forall (λ kn, Forall (λ e, Exists (λ gva, e ∈ gva.2) b) kn.2) a →
  ∀ k n e, (k, n) ∈ a → e ∈ n → ∃ g va, (g, va) ∈ b ∧ e ∈ va.
Proof.
  intros Hall k n e Hkn He. rewrite Forall_forall in Hall.
  specialize (Hall _ Hkn). simpl in Hall. rewrite Forall_forall in Hall.
  apply Hall, Exists_exists in He as ([g va] & ? & ?). eauto.
Qed.

Lemma new_entities_must_be_known_witness :
  ∃ g va,
    dict_get (reversed_old [(1, [1]); (2, [2; 3])]%Z) 2%Z = Some g ∧
    (g, va) ∈ [(1, [1]); (2, [2; 3])]%Z ∧ 2%Z ∈ va.
Proof.
  refine (new_entities_must_be_known Tests.recursion_limit exhaustive_assignment
            [(1, [1]); (2, [2; 3])]%Z [(1, [1; 2; 3])]%Z
            Tests.intersection_cost [] []
            [(1, []); (2, [1; 2; 3])]%Z [] 1%Z [1; 2; 3]%Z 2%Z _ _ _ _).
  - by_computation.
  - vm_compute. reflexivity.
  - by_computation.
  - by_computation.
Defined.

Lemma shared_old_clusters_must_be_covered_witness :
  ∃ k' n',
    dict_get (reversed_new [(1, [1; 2; 3])]%Z) 3%Z = Some k' ∧
    (k', n') ∈ [(1, [1; 2; 3])]%Z ∧ 3%Z ∈ n'.
Proof.
  refine (shared_old_clusters_must_be_covered
            Tests.recursion_limit exhaustive_assignment
            [(1, [1]); (2, [2; 3])]%Z [(1, [1; 2; 3])]%Z
            Tests.intersection_cost [] []
            [(1, []); (2, [1; 2; 3])]%Z [] 1%Z [1; 2; 3]%Z 2%Z
            2%Z [2; 3]%Z 3%Z _ _ _ _ _ _ _).
  - by_computation.
  - vm_compute. reflexivity.
  - by_computation.
  - by_computation.
  - reflexivity.
  - reflexivity.
  - by_computation.
Defined.

Lemma component_connected_witness :
  connected Tests.paper_old Tests.paper_new (inl 1%Z) (inr 2%Z).
Proof.
  refine (component_connected Tests.recursion_limit exhaustive_assignment
            Tests.paper_old
            Tests.paper_new Tests.intersection_cost [] []
            [1; 2]%Z [1; 2]%Z (inl 1%Z) (inr 2%Z) _ paper_component _ _).
  - by_computation.
  - by_computation.
  - by_computation.
Defined.

Lemma component_complete_witness :
  2%Z ∈ [1; 2]%Z ↔ 1%Z ∈ [1; 2]%Z.
Proof.
  refine (component_complete Tests.recursion_limit exhaustive_assignment
            Tests.paper_old
            Tests.paper_new Tests.intersection_cost [] []
            [1; 2]%Z [1; 2]%Z 2%Z 1%Z _ _ _ _ paper_component _).
  - by_computation.
  - by_computation.
  - apply NoDup_concat_disjoint. by_computation.
  - apply NoDup_concat_disjoint. by_computation.
  - exists [2; 3]%Z, [1; 2]%Z, 2%Z. split_and!; by_computation.
Defined.

Lemma entities_stay_in_component_witness :
  ∃ c l, (c, l) ∈ Tests.disconnected_new ∧ 14%Z ∈ l ∧
         connected Tests.disconnected_old Tests.disconnected_new
                   (inl c) (inr 3%Z).
Proof.
  refine (entities_stay_in_component Tests.recursion_limit exhaustive_assignment
            Tests.disconnected_old Tests.disconnected_new
            Tests.simple_cost [] []
            [(1, [9; 11]); (2, [10]); (3, [12; 14]); (4, [13])]%Z []
            3%Z [12; 14]%Z 14%Z _ _ _ _).
  - by_computation.
  - vm_compute. reflexivity.
  - reflexivity.
  - by_computation.
Defined.

Lemma unassigned_clusters_witness :
  [2%Z] ≠ [] ∧
  ∃ k n, (k, n) ∈ [(1, [1]); (2, [2; 3]); (3, [])]%Z ∧
         [2%Z] = filter (λ e, e ∉ claims_set [(1, [3])]%Z) n.
Proof.
  refine (unassigned_clusters Tests.recursion_limit exhaustive_assignment
            [(1, [1; 2; 3])]%Z
            [(1, [1]); (2, [2; 3]); (3, [])]%Z Tests.size_cost
            [(1, [3])]%Z [] [(1, [3])]%Z [[1]; [2]]%Z [2%Z] _ _).
  - vm_compute. reflexivity.
  - by_computation.
Defined.

Lemma clusters_move_whole_witness :
  (∀ g la,
     dict_get [(1, [9; 11]); (2, [10]); (3, [12; 14]); (4, [13])]%Z g
       = Some la →
     la = [] ∨ ∃ c, dict_get Tests.disconnected_new c = Some la) ∧
  (∀ t, t ∈ @nil (list Z) →
     t ≠ [] ∧ ∃ c, dict_get Tests.disconnected_new c = Some t).
Proof.
  refine (clusters_move_whole Tests.recursion_limit exhaustive_assignment
            Tests.disconnected_old
            Tests.disconnected_new Tests.simple_cost [] []
            exhaustive_assignment_ok _ _
            [(1, [9; 11]); (2, [10]); (3, [12; 14]); (4, [13])]%Z [] _).
  - reflexivity.
  - intros g. reflexivity.
  - vm_compute. reflexivity.
Defined.

Lemma recursion_depth_bounded_witness :
  Tests.run Tests.paper_old Tests.paper_new Tests.intersection_cost
            [(1, [2])]%Z []
  = cluster_assignment (cluster_count Tests.paper_old Tests.paper_new)
      exhaustive_assignment Tests.paper_old Tests.paper_new
      Tests.intersection_cost [(1, [2])]%Z [] ∧
  Tests.run Tests.paper_old Tests.paper_new Tests.intersection_cost
            [(1, [2])]%Z []
  ≠ Raise RecursionError.
Proof.
  refine (recursion_depth_bounded Tests.recursion_limit
            exhaustive_assignment Tests.paper_old Tests.paper_new
            Tests.intersection_cost [(1, [2])]%Z [] _).
  vm_compute. lia.
Defined.

Lemma graph_traversal_effect_witness :
  ∃ this other,
    [7; 5; 6]%Z = [7%Z] ++ 5%Z :: this ∧ [8; 2; 1]%Z = [8%Z] ++ other ∧
    NoDup (5%Z :: this) ∧ NoDup other ∧
    keys [(8, true); (9, false); (5, true); (6, true)]%Z
      = keys [(8, true); (9, false); (5, false); (6, false)]%Z ∧
    keys [(1, true); (2, true); (3, true); (4, false)]%Z
      = keys [(1, false); (2, false); (3, true); (4, false)]%Z ∧
    (∀ k, dict_get [(8, true); (9, false); (5, true); (6, true)]%Z k
          = if decide (k ∈ 5%Z :: this) then Some true
            else dict_get [(8, true); (9, false); (5, false); (6, false)]%Z
                          k) ∧
    (∀ k, dict_get [(1, true); (2, true); (3, true); (4, false)]%Z k
          = if decide (k ∈ other) then Some true
            else dict_get [(1, false); (2, false); (3, true); (4, false)]%Z
                          k) ∧
    Forall (λ k, dict_get [(8, true); (9, false); (5, false); (6, false)]%Z
                          k = Some false) (5%Z :: this) ∧
    Forall (λ k, dict_get [(1, false); (2, false); (3, true); (4, false)]%Z
                          k = Some false) other ∧
    Forall (scanned Tests.disconnected_new
                    (reversed_old Tests.disconnected_old)
                    [(1, true); (2, true); (3, true); (4, false)]%Z)
           (5%Z :: this) ∧
    Forall (scanned Tests.disconnected_old
                    (reversed_new Tests.disconnected_new)
                    [(8, true); (9, false); (5, true); (6, true)]%Z)
           other.
Proof.
  refine (graph_traversal_effect (X:=string) 5 [7%Z] [8%Z]
            (reversed_new Tests.disconnected_new)
            (reversed_old Tests.disconnected_old)
            Tests.disconnected_new Tests.disconnected_old
            [(8, true); (9, false); (5, false); (6, false)]%Z
            [(1, false); (2, false); (3, true); (4, false)]%Z 5%Z
            [7; 5; 6]%Z [8; 2; 1]%Z
            [(8, true); (9, false); (5, true); (6, true)]%Z
            [(1, true); (2, true); (3, true); (4, false)]%Z _ _).
  - vm_compute. reflexivity.
  - reflexivity.
Defined.


Lemma exceptions_on_same_entities_witness :
  @IndexError string = IndexError ∨
  (∃ x, @IndexError string = CostError x) ∨
  (@IndexError string = RecursionError ∧
   Tests.recursion_limit
   < cluster_count [(1, [1]); (2, [2])]%Z [(1, [1]); (2, [2])]%Z).
Proof.
  refine (exceptions_on_same_entities
            Tests.recursion_limit exhaustive_assignment
            [(1, [1]); (2, [2])]%Z [(1, [1]); (2, [2])]%Z
            Tests.size_cost [] [] _ _ IndexError _ _).
  - apply entities_covered. by_computation.
  - apply entities_covered. by_computation.
  - by_computation.
  - vm_compute. reflexivity.
Defined.

(** The graph of [test_claimed_paper] is one component. *)
Lemma paper_connected : graph_connected Tests.paper_old Tests.paper_new.
Proof.
  assert (linked Tests.paper_old Tests.paper_new (inl 1%Z) (inr 1%Z)) as H11.
  { exists [1%Z], [1; 2]%Z, 1%Z. split_and!; by_computation. }
  assert (linked Tests.paper_old Tests.paper_new (inl 2%Z) (inr 1%Z)) as H21.
  { exists [2; 3]%Z, [1; 2]%Z, 2%Z. split_and!; by_computation. }
  assert (linked Tests.paper_old Tests.paper_new (inl 2%Z) (inr 2%Z)) as H22.
  { exists [2; 3]%Z, [3%Z], 3%Z. split_and!; by_computation. }
  assert (∀ z, z ∈ nodes Tests.paper_old Tests.paper_new →
               connected Tests.paper_old Tests.paper_new (inl 1%Z) z)
    as Hroot.
  { intros z Hz. unfold nodes in Hz. simpl in Hz.
    repeat (apply elem_of_cons in Hz as [->|Hz]);
      [| | | | by apply elem_of_nil in Hz].
    - done.
    - eapply rtc_l; [by left|]. eapply rtc_l; [by right|]. done.
    - eapply rtc_l; [by left|]. done.
    - eapply rtc_l; [by left|]. eapply rtc_l; [by right|].
      eapply rtc_l; [by left|]. done. }
  intros x y Hx Hy.
  transitivity (inl 1%Z : Z + Z); [symmetry|]; by apply Hroot.
Qed.

Lemma returns_on_connected_partitions_witness :
  ∃ assigned unassigned,
    Tests.run Tests.paper_old Tests.paper_new Tests.intersection_cost
              [(1, [2])]%Z [] = Ok (assigned, unassigned).
Proof.
  refine (returns_on_connected_partitions
            Tests.recursion_limit exhaustive_assignment
            Tests.paper_old Tests.paper_new Tests.intersection_cost
            [(1, [2])]%Z [] exhaustive_assignment_ok _ _ _ _ _ _ _
            paper_connected _).
  - by_computation.
  - by_computation.
  - apply NoDup_concat_disjoint. by_computation.
  - apply NoDup_concat_disjoint. by_computation.
  - apply entities_covered. by_computation.
  - apply entities_covered. by_computation.
  - intros nc oc cl rj. eexists. reflexivity.
  - vm_compute. lia.
Defined.

Lemma components_disjoint_witness :
  [1; 2]%Z = [1; 2]%Z ∧ [1; 2]%Z = [1; 2]%Z.
Proof.
  refine (components_disjoint Tests.recursion_limit exhaustive_assignment
            Tests.paper_old
            Tests.paper_new Tests.intersection_cost [] []
            [1; 2]%Z [1; 2]%Z [1; 2]%Z [1; 2]%Z _
            paper_component paper_component _).
  - by_computation.
  - left. exists 2%Z. split; by_computation.
Defined.

Lemma entity_destinations_witness :
  ∃ c l, dict_get Tests.paper_new c = Some l ∧ 2%Z ∈ l ∧
         (dict_get (reversed_old Tests.paper_old) 2%Z = Some 1%Z ∨
          solver_pairs Tests.recursion_limit exhaustive_assignment
                       Tests.paper_old Tests.paper_new
                       Tests.intersection_cost [] [(2, [2])]%Z c 1%Z).
Proof.
  refine (entity_destinations Tests.recursion_limit exhaustive_assignment
            Tests.paper_old
            Tests.paper_new Tests.intersection_cost [] [(2, [2])]%Z
            [(1, [1; 2]); (2, [3])]%Z [] 1%Z [1; 2]%Z 2%Z _ _ _).
  - vm_compute. reflexivity.
  - reflexivity.
  - by_computation.
Defined.

Lemma overrides_honoured_witness :
  dict_get (reversed_old Tests.paper_old) 2%Z = Some 1%Z.
Proof.
  refine (overrides_honoured Tests.recursion_limit exhaustive_assignment
            Tests.paper_old
            Tests.paper_new Tests.intersection_cost [(1, [2])]%Z []
            [(1, [1; 2]); (2, [3])]%Z [] 1%Z [1; 2]%Z 2%Z _ _ _ _).
  - vm_compute. reflexivity.
  - reflexivity.
  - by_computation.
  - left. by_computation.
Defined.
